(** * WebAI2API: routing, failover and response writing

    A shallow embedding of the request-routing core of the repository:
    - [src/backend/failover.js]      the failover executor,
    - the [Worker] class              (busy counter, routing, model listing,
                                       image policy, initialisation),
    - [src/server/http/respond.js]   the guarded response writers,
    - the configuration loader's     [resolveProxyConfig].

    JavaScript values are modelled as the code uses them: an optional field
    is an [option], a number is a [Z], a [Set] of strings is a [gset string],
    an exception is the [Threw] case of an outcome.  Effects are explicit:
    a function that calls out (an adapter, the logger, the response stream)
    returns the events it produced together with the new state. *)

From Stdlib Require Import ZArith Lia Ascii String.
From stdpp Require Import base strings list gmap pretty.

Open Scope Z_scope.

(* ===================================================================== *)
(** ** JavaScript helpers                                                  *)
(* ===================================================================== *)

Module JS.

(** [s.includes(c)] for a one-character needle. *)
Fixpoint includes (c : ascii) (s : string) : bool :=
  match s with
  | EmptyString => false
  | String a rest => if Ascii.eqb a c then true else includes c rest
  end.

(** [s.split(c)]: all the pieces, in order (never the empty array). *)
Fixpoint split (c : ascii) (s : string) : list string :=
  match s with
  | EmptyString => [EmptyString]
  | String a rest =>
      if Ascii.eqb a c then EmptyString :: split c rest
      else match split c rest with
           | [] => [String a EmptyString]
           | p :: ps => String a p :: ps
           end
  end.

(** [s.split(c, n)]: at most [n] pieces, the remainder is dropped. *)
Definition split_limit (c : ascii) (n : nat) (s : string) : list string :=
  take n (split c s).

(** Truthiness of an optional string: [undefined] and [''] are falsy. *)
Definition truthy (o : option string) : bool :=
  match o with
  | Some EmptyString => false
  | Some _ => true
  | None => false
  end.

(** Template interpolation of a value that is a string or [null]. *)
Definition interp (o : option string) : string :=
  match o with
  | Some s => s
  | None => "null"
  end.


End JS.

(* ===================================================================== *)
(** ** Results exchanged with adapters and callers                         *)
(* ===================================================================== *)

(** The object an attempt returns: [{error?, code?, retryable?, ...}].
    [content] stands for the remaining fields (text or image). *)
Record Result := mkResult {
  error : option string;
  code : option string;
  retryable : option bool;
  content : option string
}.

(** What a call can do: return an object, or throw.  For a thrown value
    [err] the string kept is [err.message || String(err)]. *)
Inductive Outcome :=
| Returned (r : Result)
| Threw (msg : string).

Definition errorResult (msg : string) : Result :=
  {| error := Some msg; code := None; retryable := None; content := None |}.

(** [!result.error] *)
Definition succeeded (r : Result) : bool := negb (JS.truthy (error r)).

(** An attempt that did not end the failover loop. *)
Definition failed (o : Outcome) : bool :=
  match o with
  | Returned r => JS.truthy (error r)
  | Threw _ => true
  end.

(* ===================================================================== *)
(** ** src/backend/failover.js                                             *)
(* ===================================================================== *)

Module Failover.

(** What [normalizeError] produces. *)
Record Normalized := mkNormalized {
  n_message : string;
  n_code : string;
  n_retryable : bool
}.

Section Executor.

(** Candidates and the state the attempt function acts on. *)
Context {C S : Type}.

(** [RETRY.MAX_ATTEMPTS] of utils/constants.js. *)
Variable RETRY_MAX_ATTEMPTS : Z.

(** [normalizeError] of backend/utils/error.js, the error classification:
    it produces a message, a code and the retryable flag for every
    error. *)
Variable normalizeError : string -> Normalized.

(** The attempt function given to [execute]. *)
Variable attempt : C -> S -> Outcome * S.

(** An [onRetry] callback: it acts on the state like any other code and may
    throw; [Some msg] is the [err.message || String(err)] of what it
    threw. *)
Definition Callback : Type := C -> string -> Z -> S -> option string * S.

(** [options.onRetry || (() => { })] *)
Definition onRetryOf (options_onRetry : option Callback) : Callback :=
  match options_onRetry with
  | Some f => f
  | None => fun _ _ _ s => (None, s)
  end.

(** The calls an execution makes, in order; [thrown] is what the callback
    threw, if it did. *)
Inductive Event :=
| EvAttempt (c : C) (o : Outcome)
| EvDebugSkip (err : string)
| EvOnRetry (c : C) (err : string) (n : Z) (thrown : option string).

(** [options.maxRetries ?? RETRY.MAX_ATTEMPTS] *)
Definition maxRetriesOf (opt : option Z) : Z :=
  match opt with
  | Some m => m
  | None => RETRY_MAX_ATTEMPTS
  end.

(** [maxRetries === 0 ? candidates.length
                      : Math.min(maxRetries + 1, candidates.length)] *)
Definition maxAttemptsOf (maxRetries : Z) (n : nat) : Z :=
  if maxRetries =? 0 then Z.of_nat n
  else Z.min (maxRetries + 1) (Z.of_nat n).

Definition exhausted (lastError : option string) : Result :=
  {| error := Some ("所有候选都失败: " +:+ JS.interp lastError);
     code := Some "FAILOVER_EXHAUSTED"%string;
     retryable := Some false;
     content := None |}.

(** The [catch] block of an iteration, entered with the exception [msg]
    after the events [evs] of the [try] block: [lastError] becomes [msg]
    and, with attempts left, [onRetry] is called; what it throws here
    leaves [execute].  The answer is [inl lastError] when the loop goes on
    and [inr msg'] when [execute] rejects with [msg']. *)
Definition catchBlock (onRetry : Callback) (more : bool) (candidate : C)
    (n : Z) (msg : string) (s : S) (evs : list Event)
  : (string + string) * S * list Event :=
  if more then
    let '(thrown, s1) := onRetry candidate msg n s in
    match thrown with
    | None => (inl msg, s1, evs ++ [EvOnRetry candidate msg n thrown])
    | Some msg' => (inr msg', s1, evs ++ [EvOnRetry candidate msg n thrown])
    end
  else (inl msg, s, evs).

(** An iteration after its attempt failed with [o]: the rest of the [try]
    block for an error result (the debug line, then [onRetry], whose
    exception the [catch] block receives), the [catch] block alone for an
    attempt that threw.  [logger.debug], called here with a string and
    the default [meta], does not throw (logger.js formats strings and
    catches the errors of its file writes). *)
Definition afterFailure (onRetry : Callback) (more : bool) (candidate : C)
    (n : Z) (o : Outcome) (s : S)
  : (string + string) * S * list Event :=
  match o with
  | Returned result =>
      let err := JS.interp (error result) in
      let dbg :=
        if negb (n_retryable (normalizeError err)) && more
        then [EvDebugSkip err] else [] in
      if more then
        let '(thrown, s1) := onRetry candidate err n s in
        match thrown with
        | None => (inl err, s1, dbg ++ [EvOnRetry candidate err n thrown])
        | Some msg =>
            catchBlock onRetry more candidate n msg s1
              (dbg ++ [EvOnRetry candidate err n thrown])
        end
      else (inl err, s, dbg)
  | Threw msg => catchBlock onRetry more candidate n msg s []
  end.

(** The [for] loop, [todo] iterations left, at index [i].  [Threw] is an
    exception that leaves [execute]. *)
Fixpoint loop (onRetry : Callback) (candidates : list C) (maxAttempts : Z)
    (todo : nat) (i : nat) (lastError : option string) (s : S)
  : Outcome * S * list Event :=
  match todo with
  | O => (Returned (exhausted lastError), s, [])
  | Datatypes.S todo' =>
      match candidates !! i with
      | None => (* index past the array: maxAttempts <= length rules it out *)
          (Returned (exhausted lastError), s, [])
      | Some candidate =>
          let '(o, s1) := attempt candidate s in
          let more := Z.of_nat i <? maxAttempts - 1 in
          let goOn :=
            match afterFailure onRetry more candidate (Z.of_nat i + 1) o s1 with
            | (inl err, s2, evs) =>
                let '(r, s3, evs') :=
                  loop onRetry candidates maxAttempts todo' (Datatypes.S i)
                       (Some err) s2 in
                (r, s3, EvAttempt candidate o :: evs ++ evs')
            | (inr msg, s2, evs) => (Threw msg, s2, EvAttempt candidate o :: evs)
            end in
          match o with
          | Returned result =>
              if succeeded result
              then (Returned result, s1, [EvAttempt candidate o])
              else goOn
          | Threw _ => goOn
          end
      end
  end.

(** [createFailoverExecutor(options).execute(candidates, execute)], with
    [meta] left at its default [{}] *)
Definition execute (options_maxRetries : option Z)
    (options_onRetry : option Callback) (candidates : list C) (s : S)
  : Outcome * S * list Event :=
  match candidates with
  | [] => (Returned (errorResult "没有可用的候选"), s, [])
  | _ =>
      let maxRetries := maxRetriesOf options_maxRetries in
      let maxAttempts := maxAttemptsOf maxRetries (length candidates) in
      loop (onRetryOf options_onRetry) candidates maxAttempts
           (Z.to_nat maxAttempts) 0 None s
  end.

(** A callback that never throws. *)
Definition quiet (onRetry : Callback) : Prop :=
  forall c err n s, (onRetry c err n s).1 = None.

(** The attempts of a run, in order. *)
Definition attemptsOf (evs : list Event) : list (C * Outcome) :=
  omap (fun e => match e with EvAttempt c o => Some (c, o) | _ => None end) evs.

(** The error a failed attempt leaves in [lastError]. *)
Definition errText (o : Outcome) : string :=
  match o with
  | Returned r => JS.interp (error r)
  | Threw msg => msg
  end.

(** [lastError] after the attempts [atts], starting from [init]. *)
Definition lastErrorAfter (init : option string) (atts : list (C * Outcome))
  : option string :=
  match last atts with
  | Some (_, o) => Some (errText o)
  | None => init
  end.


(** How a run of the loop ends: on the first success, with every attempt
    failed, or on an exception of the callback. *)
Definition endsWell (o : Outcome) (atts : list (C * Outcome)) : Prop :=
  exists pre c r,
    o = Returned r
    /\ atts = pre ++ [(c, Returned r)]
    /\ Forall (fun a => failed a.2 = true) pre
    /\ succeeded r = true.

Definition endsExhausted (last : option string) (o : Outcome)
    (atts : list (C * Outcome)) : Prop :=
  Forall (fun a => failed a.2 = true) atts
  /\ o = Returned (exhausted (lastErrorAfter last atts)).

Definition endsRejected (o : Outcome) (evs : list Event)
    (atts : list (C * Outcome)) : Prop :=
  Forall (fun a => failed a.2 = true) atts
  /\ exists msg c err n,
       o = Threw msg /\ last evs = Some (EvOnRetry c err n (Some msg)).

End Executor.

End Failover.

(* ===================================================================== *)
(** ** Configuration loader: proxy resolution                              *)
(* ===================================================================== *)

Module Config.

(** A YAML scalar as the loader sees it after parsing. *)
Inductive JsVal :=
| VUndefined
| VNull
| VBool (b : bool)
| VNum (n : Z)
| VStr (s : string).

(** [v === true] and [v === false] *)
Definition isTrue (v : JsVal) : bool :=
  match v with VBool true => true | _ => false end.

Definition isFalse (v : JsVal) : bool :=
  match v with VBool false => true | _ => false end.

(** A proxy block, [browser.proxy] or [instances[].proxy]. *)
Record Proxy := mkProxy {
  enable : JsVal;
  ptype : string;
  host : string;
  port : Z
}.

(** [block && test(block.enable)] for a block that may be absent *)
Definition enableIs (test : JsVal -> bool) (block : option Proxy) : bool :=
  match block with
  | Some p => test (enable p)
  | None => false
  end.

(** [resolveProxyConfig(globalProxy, instanceProxy)]; [None] is an absent
    block on the way in and [null] (direct connection) on the way out. *)
Definition resolveProxyConfig (globalProxy instanceProxy : option Proxy)
  : option Proxy :=
  if enableIs isFalse instanceProxy then None
  else if enableIs isTrue instanceProxy then instanceProxy
  else if enableIs isTrue globalProxy then globalProxy
  else None.

End Config.

(* ===================================================================== *)
(** ** The Worker class                                                    *)
(* ===================================================================== *)

Module Worker.

(** An entry of a model listing. *)
Record Model := mkModel {
  m_id : string;
  m_object : string;
  m_created : Z;
  m_owned_by : string
}.

(** A browser tab as far as the Worker touches it. *)
Record Page := mkPage {
  page_id : nat;
  authState : option bool;          (* [{ isHandlingAuth }] once set *)
  cursor : bool;                    (* [createCursor] has been attached *)
  framenavigated : list (list string) (* installed handler chains *)
}.

Record Browser := mkBrowser {
  browser_id : nat;
  onClose : bool                    (* the login-mode close listener *)
}.

(** [backend.pool.failover] *)
Record FailoverConfig := mkFailoverConfig {
  enabled : Config.JsVal;
  maxRetries : option Z
}.

Record GlobalConfig := mkGlobalConfig {
  failover : option FailoverConfig
}.

(** What an adapter is called with besides the model id. *)
Record Request := mkRequest {
  prompt : string;
  paths : list string;
  meta : string
}.

Record SubContext := mkSubContext {
  sc_page : option Page;
  sc_config : GlobalConfig;
  sc_proxyConfig : option Config.Proxy;
  sc_userDataDir : string
}.

Record t := mkWorker {
  name : string;
  type : string;
  instanceName : option string;
  userDataDir : string;
  proxyConfig : option Config.Proxy;
  globalConfig : GlobalConfig;
  mergeTypes : list string;
  mergeMonitor : option string;
  browser : option Browser;
  page : option Page;
  busyCount : Z;
  initialized : bool
}.

(** The fields [constructor(globalConfig, workerConfig)] reads. *)
Record WorkerConfig := mkWorkerConfig {
  wc_name : string;
  wc_type : string;
  wc_instanceName : option string;
  wc_userDataDir : string;
  wc_resolvedProxy : option Config.Proxy;
  wc_mergeTypes : option (list string);
  wc_mergeMonitor : option string
}.

Definition constructor (g : GlobalConfig) (c : WorkerConfig) : t :=
  {| name := wc_name c;
     type := wc_type c;
     instanceName := wc_instanceName c;
     userDataDir := wc_userDataDir c;
     proxyConfig := wc_resolvedProxy c;
     globalConfig := g;
     mergeTypes := default [] (wc_mergeTypes c);
     mergeMonitor := wc_mergeMonitor c;
     browser := None;
     page := None;
     busyCount := 0;
     initialized := false |}.

Definition set_busyCount (w : t) (b : Z) : t :=
  {| name := name w; type := type w; instanceName := instanceName w;
     userDataDir := userDataDir w; proxyConfig := proxyConfig w;
     globalConfig := globalConfig w; mergeTypes := mergeTypes w;
     mergeMonitor := mergeMonitor w; browser := browser w; page := page w;
     busyCount := b; initialized := initialized w |}.

(** [this.busyCount++] and [this.busyCount--] *)
Definition enter (w : t) : t := set_busyCount w (busyCount w + 1).
Definition leave (w : t) : t := set_busyCount w (busyCount w - 1).

Inductive Event :=
| EvInvoke (type modelId : string) (o : Outcome)
| EvLog (level msg : string)
| EvMkdir (path : string)
| EvLaunchBrowser (userDataDir : string)
| EvNewPage (browser : nat)
| EvGoto (url : string) (timeout : Z)
| EvNoAdapter (type : string).     (* [_executeAdapter] returned early *)

Definition noAdapter (ty : string) : Result :=
  errorResult ("适配器不存在: " +:+ ty).

(** An adapter driver: its [generate] acts on the outside world [S]. *)
Record Adapter (S : Type) := mkAdapter {
  generate_ : SubContext -> Request -> string -> S -> Outcome * S
}.
Arguments generate_ {S} _ _ _ _ _.
Arguments mkAdapter {S} _.

(** The registry of backend/registry.js, as the Worker calls it. *)
Record Registry (S : Type) := mkRegistry {
  reg_supportsModel : string -> string -> bool;
  reg_getImagePolicy : string -> string -> string;
  reg_getModelsForAdapter : string -> option (list Model);
  reg_getAdapter : string -> option (Adapter S);
  reg_getTargetUrl : string -> option string;
  reg_getNavigationHandlers : string -> list string
}.
Arguments reg_supportsModel {S} _ _ _.
Arguments reg_getImagePolicy {S} _ _ _.
Arguments reg_getModelsForAdapter {S} _ _.
Arguments reg_getAdapter {S} _ _.
Arguments reg_getTargetUrl {S} _ _.
Arguments reg_getNavigationHandlers {S} _ _.

Definition isMerge (w : t) : bool := String.eqb (type w) "merge".

(** [array.includes(x)] on an array of strings *)
Definition arrayIncludes (l : list string) (x : string) : bool :=
  bool_decide (x ∈ l).

Section Methods.

Context {S : Type}.
Variable registry : Registry S.

(** [supports(modelId)] *)
Definition supports (w : t) (modelId : string) : bool :=
  if isMerge w then
    if existsb (fun ty => reg_supportsModel registry ty modelId) (mergeTypes w)
    then true
    else if JS.includes "/" modelId then
      match JS.split_limit "/" 2 modelId with
      | specifiedType :: actualModel :: _ =>
          if arrayIncludes (mergeTypes w) specifiedType
          then reg_supportsModel registry specifiedType actualModel
          else false
      | _ => false
      end
    else false
  else
    if JS.includes "/" modelId then
      match JS.split_limit "/" 2 modelId with
      | specifiedType :: actualModel :: _ =>
          if String.eqb specifiedType (type w)
          then reg_supportsModel registry (type w) actualModel
          else false
      | _ => false
      end
    else reg_supportsModel registry (type w) modelId.

(** [_getAdapterType(modelKey)]; [None] is [mergeTypes[0]] of an empty
    array, that is [undefined]. *)
Definition _getAdapterType (w : t) (modelKey : string) : option string :=
  if isMerge w then
    if JS.includes "/" modelKey then
      match JS.split_limit "/" 2 modelKey with
      | specifiedType :: _ =>
          if arrayIncludes (mergeTypes w) specifiedType
          then Some specifiedType
          else head (mergeTypes w)
      | [] => head (mergeTypes w)
      end
    else
      match filter (fun ty => reg_supportsModel registry ty modelKey = true)
                   (mergeTypes w) with
      | ty :: _ => Some ty
      | [] => head (mergeTypes w)
      end
  else Some (type w).

(** [_getCandidateTypes(modelKey)]: pairs [{type, modelId}] *)
Definition _getCandidateTypes (w : t) (modelKey : string)
  : list (string * string) :=
  if JS.includes "/" modelKey then
    match JS.split_limit "/" 2 modelKey with
    | specifiedType :: actualModel :: _ =>
        if arrayIncludes (mergeTypes w) specifiedType
           && reg_supportsModel registry specifiedType actualModel
        then [(specifiedType, actualModel)]
        else []
    | _ => []
    end
  else
    map (fun ty => (ty, modelKey))
        (filter (fun ty => reg_supportsModel registry ty modelKey = true)
                (mergeTypes w)).

Definition subContextOf (w : t) : SubContext :=
  {| sc_page := page w;
     sc_config := globalConfig w;
     sc_proxyConfig := proxyConfig w;
     sc_userDataDir := userDataDir w |}.

(** [_executeAdapter(ctx, type, modelId, prompt, paths, meta)] has one
    suspension point, [await adapter.generate(...)].  This is its code up
    to that point: the registry lookup with its early [return], the info
    line, the sub-context and [this.busyCount++].  [inl] is the early
    return; [inr] carries the Worker as the suspended call leaves it, the
    adapter and the sub-context it is about to be called with. *)
Definition _executeAdapter_begin (w : t) (ty modelId : string)
  : (Result * list Event) + (t * Adapter S * SubContext * list Event) :=
  match reg_getAdapter registry ty with
  | None => inl (noAdapter ty, [EvNoAdapter ty])
  | Some adapter =>
      let info :=
        EvLog "info" ("[" +:+ name w +:+ "] 执行任务 -> " +:+ ty +:+ "/" +:+ modelId) in
      let subContext := subContextOf w in
      let w1 := enter w in
      inr (w1, adapter, subContext, [info])
  end.

(** ... and this is its code from the settlement of the adapter on: the
    [finally] block, [this.busyCount--], on the Worker as it is by then,
    after which what the adapter returned is returned and what it threw is
    thrown on. *)
Definition _executeAdapter_settle (w : t) (o : Outcome) : Outcome * t :=
  let w2 := leave w in
  (o, w2).

(** A call of [_executeAdapter] with nothing else running between its two
    halves. *)
Definition _executeAdapter (w : t) (ty modelId : string) (req : Request)
    (s : S) : Outcome * t * S * list Event :=
  match _executeAdapter_begin w ty modelId with
  | inl (result, evs) => (Returned result, w, s, evs)
  | inr (w1, adapter, subContext, evs) =>
      let '(o, s1) := generate_ adapter subContext req modelId s in
      let '(o', w2) := _executeAdapter_settle w1 o in
      (o', w2, s1, evs ++ [EvInvoke ty modelId o])
  end.

Definition emptyFailoverConfig : FailoverConfig :=
  {| enabled := Config.VUndefined; maxRetries := None |}.

(** [failoverConfig.maxRetries || 2]: [undefined] and [0] both give 2. *)
Definition maxRetriesOr2 (fc : FailoverConfig) : Z :=
  match maxRetries fc with
  | Some m => if m =? 0 then 2 else m
  | None => 2
  end.

Definition allFailed (w : t) (lastError : option string) : Result :=
  errorResult ("所有支持该模型的适配器都无法使用: " +:+ JS.interp lastError).

Definition unsupported (w : t) (modelId : string) : Result :=
  errorResult ("Worker [" +:+ name w +:+ "] 不支持模型: " +:+ modelId).

(** The [for] loop of [_generateWithFailover]; an exception of the
    adapter is not caught here and ends the loop. *)
Fixpoint failoverLoop (candidateTypes : list (string * string))
    (maxAttempts : Z) (todo i : nat) (lastError : option string)
    (req : Request) (w : t) (s : S) : Outcome * t * S * list Event :=
  match todo with
  | O => (Returned (allFailed w lastError), w, s, [])
  | Datatypes.S todo' =>
      match candidateTypes !! i with
      | None => (* index past the array: maxAttempts <= length rules it out *)
          (Returned (allFailed w lastError), w, s, [])
      | Some (ty, actualModelId) =>
          let '(o, w1, s1, evs) := _executeAdapter w ty actualModelId req s in
          match o with
          | Threw msg => (Threw msg, w1, s1, evs)
          | Returned result =>
              if succeeded result then (Returned result, w1, s1, evs)
              else
                let warn :=
                  if Z.of_nat i <? maxAttempts - 1
                  then [EvLog "warn" ("[" +:+ name w +:+ "] " +:+ ty +:+ " 失败，尝试下一个适配器...")]
                  else [] in
                let '(o2, w2, s2, evs2) :=
                  failoverLoop candidateTypes maxAttempts todo' (Datatypes.S i)
                               (error result) req w1 s1 in
                (o2, w2, s2, evs ++ warn ++ evs2)
          end
      end
  end.

(** [_generateWithFailover(ctx, prompt, paths, modelId, meta, failoverConfig)] *)
Definition _generateWithFailover (w : t) (req : Request) (modelId : string)
    (failoverConfig : FailoverConfig) (s : S) : Outcome * t * S * list Event :=
  let maxRetries := maxRetriesOr2 failoverConfig in
  let candidateTypes := _getCandidateTypes w modelId in
  match candidateTypes with
  | [] => (Returned (unsupported w modelId), w, s, [])
  | _ =>
      let maxAttempts :=
        if maxRetries =? 0 then Z.of_nat (length candidateTypes)
        else Z.min (maxRetries + 1) (Z.of_nat (length candidateTypes)) in
      failoverLoop candidateTypes maxAttempts (Z.to_nat maxAttempts) 0 None req w s
  end.

(** [this.globalConfig.backend?.pool?.failover || {}] *)
Definition failoverConfigOf (w : t) : FailoverConfig :=
  default emptyFailoverConfig (failover (globalConfig w)).

(** [failoverConfig.enabled !== false] *)
Definition failoverEnabled (w : t) : bool :=
  negb (Config.isFalse (enabled (failoverConfigOf w))).

(** [generate(ctx, prompt, paths, modelId, meta)] *)
Definition generate (w : t) (req : Request) (modelId : string) (s : S)
  : Outcome * t * S * list Event :=
  let failoverConfig := failoverConfigOf w in
  if isMerge w && failoverEnabled w then
    _generateWithFailover w req modelId failoverConfig s
  else if negb (supports w modelId) then
    (Returned (unsupported w modelId), w, s, [])
  else
    let actualModelId :=
      if JS.includes "/" modelId then
        match JS.split_limit "/" 2 modelId with
        | _ :: part1 :: _ => part1
        | _ => modelId
        end
      else modelId in
    match _getAdapterType w modelId with
    | Some ty => _executeAdapter w ty actualModelId req s
    | None => (* [mergeTypes[0]] of an empty array; [supports] rules it out *)
        (Returned (errorResult "适配器不存在: undefined"), w, s, [])
    end.

(** A sequence of [generate] calls, each awaited before the next. *)
Fixpoint generateAll (w : t) (calls : list (Request * string)) (s : S)
  : list Outcome * t * S :=
  match calls with
  | [] => ([], w, s)
  | (req, modelId) :: rest =>
      let '(o, w1, s1, _) := generate w req modelId s in
      let '(os, w2, s2) := generateAll w1 rest s1 in
      (o :: os, w2, s2)
  end.

(** The adapter calls of a run, in order. *)
Definition invocations (evs : list Event) : list (string * string) :=
  omap (fun e => match e with
                 | EvInvoke ty modelId _ => Some (ty, modelId)
                 | _ => None
                 end) evs.

(** What each call of [_executeAdapter] handed back, in order. *)
Definition attempts (evs : list Event) : list Outcome :=
  omap (fun e => match e with
                 | EvInvoke _ _ o => Some o
                 | EvNoAdapter ty => Some (Returned (noAdapter ty))
                 | _ => None
                 end) evs.

(** A failed attempt of the merge loop: an error result (an exception
    leaves the loop instead). *)
Definition failedResult (o : Outcome) : Prop :=
  exists r, o = Returned r /\ succeeded r = false.

Definition lastErrorW (init : option string) (atts : list Outcome) : option string :=
  match last atts with
  | Some (Returned r) => error r
  | Some (Threw msg) => Some msg
  | None => init
  end.

(** *** Model listing *)

(** [{ ...m, owned_by: 'internal_server' }] *)
Definition bare (m : Model) : Model :=
  {| m_id := m_id m; m_object := m_object m; m_created := m_created m;
     m_owned_by := "internal_server" |}.

(** [{ ...m, id: `${type}/${m.id}`, owned_by: type }] *)
Definition qualified (ty : string) (m : Model) : Model :=
  {| m_id := ty +:+ "/" +:+ m_id m; m_object := m_object m;
     m_created := m_created m; m_owned_by := ty |}.

(** First loop of the merge branch: bare entries, one per unseen id. *)
Definition pushUnseen (acc : gset string * list Model) (m : Model)
  : gset string * list Model :=
  let '(seenIds, allModels) := acc in
  if bool_decide (m_id m ∈ seenIds) then (seenIds, allModels)
  else ({[ m_id m ]} ∪ seenIds, allModels ++ [bare m]).

Definition collectBare (acc : gset string * list Model) (ty : string)
  : gset string * list Model :=
  match reg_getModelsForAdapter registry ty with
  | Some data => fold_left pushUnseen data acc
  | None => acc
  end.

(** Second loop of the merge branch: every member's qualified entries. *)
Definition collectQualified (allModels : list Model) (ty : string)
  : list Model :=
  match reg_getModelsForAdapter registry ty with
  | Some data => fold_left (fun acc m => acc ++ [qualified ty m]) data allModels
  | None => allModels
  end.

(** [getModels()] *)
Definition getModels (w : t) : list Model :=
  if isMerge w then
    let '(_, allModels) := fold_left collectBare (mergeTypes w) (∅, []) in
    fold_left collectQualified (mergeTypes w) allModels
  else
    let models := default [] (reg_getModelsForAdapter registry (type w)) in
    let allModels := fold_left (fun acc m => acc ++ [bare m]) models [] in
    fold_left (fun acc m => acc ++ [qualified (type w) m]) models allModels.

(** The data of an adapter's listing, [result?.data || []]. *)
Definition modelsOf (ty : string) : list Model :=
  default [] (reg_getModelsForAdapter registry ty).

(** The adapter types a Worker lists models for. *)
Definition listedTypes (w : t) : list string :=
  if isMerge w then mergeTypes w else [type w].

(** The second half of every listing. *)
Definition qualifiedSection (types : list string) : list Model :=
  concat (map (fun ty => map (qualified ty) (modelsOf ty)) types).

(** [e] is an entry for the model id [x]: the bare id, or the id behind
    one of the [types]. *)
Definition listedFor (types : list string) (x : string) (e : Model) : bool :=
  String.eqb (m_id e) x
  || existsb (fun ty => String.eqb (m_id e) (ty +:+ "/" +:+ x)) types.

(** What the first loop of the merge branch maintains: [seenIds] is the
    set of ids pushed so far, no id was pushed twice, and every entry
    is the bare copy of a model satisfying [P]. *)
Definition BareInv (P : Model -> Prop) (st : gset string * list Model) : Prop :=
  (forall x, x ∈ st.1 <-> x ∈ m_id <$> st.2)
  /\ NoDup (m_id <$> st.2)
  /\ (forall e, e ∈ st.2 -> exists m, P m /\ e = bare m).

(** *** Image policy *)

Definition collectPolicy (modelKey : string) (policies : gset string)
    (ty : string) : gset string :=
  if reg_supportsModel registry ty modelKey
  then {[ reg_getImagePolicy registry ty modelKey ]} ∪ policies
  else policies.

(** The last four lines of [getImagePolicy]. *)
Definition lenient (policies : gset string) : string :=
  if bool_decide ("optional"%string ∈ policies) then "optional"
  else if bool_decide ("required"%string ∈ policies) then "required"
  else if bool_decide ("forbidden"%string ∈ policies) then "forbidden"
  else "optional".

(** [getImagePolicy(modelKey)] *)
Definition getImagePolicy (w : t) (modelKey : string) : string :=
  if isMerge w then
    let named :=
      if JS.includes "/" modelKey then
        match JS.split_limit "/" 2 modelKey with
        | specifiedType :: actualModel :: _ =>
            if arrayIncludes (mergeTypes w) specifiedType
            then Some (reg_getImagePolicy registry specifiedType actualModel)
            else None
        | _ => None
        end
      else None in
    match named with
    | Some policy => policy
    | None => lenient (fold_left (collectPolicy modelKey) (mergeTypes w) ∅)
    end
  else reg_getImagePolicy registry (type w) modelKey.

(** Some supporting member of [w] reports [policy] for [modelKey]. *)
Definition reported (w : t) (modelKey policy : string) : Prop :=
  exists ty, ty ∈ mergeTypes w
             /\ reg_supportsModel registry ty modelKey = true
             /\ reg_getImagePolicy registry ty modelKey = policy.

(** *** Initialisation *)

(** What [init] finds outside the Worker. *)
Record InitEnv := mkInitEnv {
  existsSync : string -> bool;             (* [fs.existsSync] *)
  isLoginMode : bool;                      (* some argument starts with [-login] *)
  tryGotoWithCheck : string -> option string; (* the [error] of the result *)
  initBrowserBase : string -> option (Browser * Page); (* [None]: it throws *)
  newPage : Browser -> option Page         (* [None]: it throws *)
}.

Definition set_browser_page (w : t) (b : option Browser) (p : option Page) : t :=
  {| name := name w; type := type w; instanceName := instanceName w;
     userDataDir := userDataDir w; proxyConfig := proxyConfig w;
     globalConfig := globalConfig w; mergeTypes := mergeTypes w;
     mergeMonitor := mergeMonitor w; browser := b; page := p;
     busyCount := busyCount w; initialized := initialized w |}.

Definition set_initialized (w : t) (b : bool) : t :=
  {| name := name w; type := type w; instanceName := instanceName w;
     userDataDir := userDataDir w; proxyConfig := proxyConfig w;
     globalConfig := globalConfig w; mergeTypes := mergeTypes w;
     mergeMonitor := mergeMonitor w; browser := browser w; page := page w;
     busyCount := busyCount w; initialized := b |}.

(** [page.authState = { isHandlingAuth: false }; page.cursor = createCursor(page)] *)
Definition preparePage (p : Page) : Page :=
  {| page_id := page_id p; authState := Some false; cursor := true;
     framenavigated := framenavigated p |}.

(** [page.on('framenavigated', ...)] when a handler chain exists *)
Definition installHandler (navigationHandler : option (list string)) (p : Page)
  : Page :=
  match navigationHandler with
  | Some handlers =>
      {| page_id := page_id p; authState := authState p; cursor := cursor p;
         framenavigated := framenavigated p ++ [handlers] |}
  | None => p
  end.

(** The merge branch of [_navigateToTarget]: the first reachable member
    site wins. *)
Fixpoint gotoFirst (env : InitEnv) (w : t) (types : list string)
  : bool * list Event :=
  match types with
  | [] => (false, [])
  | ty :: rest =>
      match reg_getTargetUrl registry ty with
      | None => gotoFirst env w rest
      | Some url =>
          match tryGotoWithCheck env url with
          | None =>
              (true, [EvGoto url 30000;
                      EvLog "debug" ("[" +:+ name w +:+ "] 使用 " +:+ ty +:+ " 适配器初始化成功")])
          | Some err =>
              let '(ok, evs) := gotoFirst env w rest in
              (ok, EvGoto url 30000
                   :: EvLog "warn" ("[" +:+ name w +:+ "] " +:+ ty +:+ " 网站不可用，尝试下一个...")
                   :: evs)
          end
      end
  end.

(** [_navigateToTarget(targetUrl)] *)
Definition _navigateToTarget (env : InitEnv) (w : t) (targetUrl : string)
  : list Event :=
  if isMerge w then
    let '(gotoSuccess, evs) := gotoFirst env w (mergeTypes w) in
    if gotoSuccess then evs
    else evs ++ [EvLog "warn" ("[" +:+ name w +:+ "] 所有适配器网站当前不可用，但 Worker 仍将初始化（请求时可能会失败）")]
  else
    match tryGotoWithCheck env targetUrl with
    | None => [EvGoto targetUrl 60000]
    | Some err =>
        [EvGoto targetUrl 60000;
         EvLog "warn" ("[" +:+ name w +:+ "] 目标网站当前不可用: " +:+ err +:+ "，但 Worker 仍将初始化")]
    end.

(** [_initWithSharedBrowser]; [Some msg] in front is a thrown error. *)
Definition _initWithSharedBrowser (env : InitEnv) (w : t)
    (sharedBrowser : Browser) (targetUrl : string)
    (navigationHandler : option (list string))
  : option string * t * list Event :=
  let log1 := EvLog "info" ("[" +:+ name w +:+ "] 复用已有浏览器，创建新标签页...") in
  match newPage env sharedBrowser with
  | None =>
      (Some "newPage"%string, set_browser_page w (Some sharedBrowser) (page w), [log1])
  | Some p =>
      let w1 := set_browser_page w (Some sharedBrowser) (Some (preparePage p)) in
      let nav := _navigateToTarget env w1 targetUrl in
      let w2 := set_browser_page w1 (browser w1)
                  (Some (installHandler navigationHandler (preparePage p))) in
      (None, w2,
       [log1; EvNewPage (browser_id sharedBrowser)] ++ nav
       ++ [EvLog "info" ("[" +:+ name w +:+ "] 初始化完成")])
  end.

(** [_initNewBrowser] *)
Definition _initNewBrowser (env : InitEnv) (w : t) (targetUrl : string)
    (navigationHandler : option (list string))
  : option string * t * list Event :=
  match initBrowserBase env (userDataDir w) with
  | None => (Some "initBrowserBase"%string, w, [EvLaunchBrowser (userDataDir w)])
  | Some (context, p) =>
      let p1 := installHandler navigationHandler (preparePage p) in
      let w1 := set_browser_page w (Some context) (Some p1) in
      let nav := _navigateToTarget env w1 targetUrl in
      let w2 :=
        if isLoginMode env
        then set_browser_page w1
               (Some {| browser_id := browser_id context; onClose := true |})
               (page w1)
        else w1 in
      (None, w2,
       [EvLaunchBrowser (userDataDir w);
        EvLog "info" ("[" +:+ name w +:+ "] 正在连接目标页面...")]
       ++ nav
       ++ (if isLoginMode env
           then [EvLog "info" ("[" +:+ name w +:+ "] 登录模式已就绪，请在浏览器中完成登录")]
           else [])
       ++ [EvLog "info" ("[" +:+ name w +:+ "] 初始化完成")])
  end.

(** [init(sharedBrowser = null)] *)
Definition init (env : InitEnv) (sharedBrowser : option Browser) (w : t)
  : option string * t * list Event :=
  if initialized w then (None, w, [])
  else
    let mk := if existsSync env (userDataDir w) then []
              else [EvMkdir (userDataDir w)] in
    let targetUrl :=
      if isMerge w then
        default "about:blank"%string
          (ty ← head (mergeTypes w); reg_getTargetUrl registry ty)
      else default "about:blank"%string (reg_getTargetUrl registry (type w)) in
    let navigationHandler :=
      if isLoginMode env then None
      else
        let typesToHandle := if isMerge w then mergeTypes w else [type w] in
        let handlers := concat (map (reg_getNavigationHandlers registry) typesToHandle) in
        match handlers with
        | [] => None
        | _ => Some handlers
        end in
    let logs :=
      [EvLog "info" ("[" +:+ name w +:+ "] 正在初始化浏览器...");
       match proxyConfig w with
       | Some px =>
           EvLog "debug" ("[" +:+ name w +:+ "] 使用代理: " +:+ Config.ptype px +:+ "://" +:+ Config.host px
                        +:+ ":" +:+ pretty (Config.port px))
       | None => EvLog "debug" ("[" +:+ name w +:+ "] 直连模式（无代理）")
       end] in
    let '(thrown, w1, evs) :=
      match sharedBrowser with
      | Some b => _initWithSharedBrowser env w b targetUrl navigationHandler
      | None => _initNewBrowser env w targetUrl navigationHandler
      end in
    match thrown with
    | Some msg => (Some msg, w1, mk ++ logs ++ evs)
    | None => (None, set_initialized w1 true, mk ++ logs ++ evs)
    end.

(** *** The busy counter between suspension points

    The runtime is single-threaded: code runs uninterrupted from one
    [await] to the next.  A call of [_executeAdapter] therefore takes
    two atomic steps, [_executeAdapter_begin] and, once its adapter has
    settled, [_executeAdapter_settle]; several calls on one Worker may be
    suspended in between, and they settle in any order.  Besides the
    constructor these two are the only code that writes [busyCount];
    [init] writes other fields of the Worker. *)

(** A call suspended inside [_executeAdapter]. *)
Record Pending := mkPending {
  p_type : string;
  p_modelId : string
}.

Inductive step : t * list Pending -> t * list Pending -> Prop :=
| step_return w ops ty modelId result evs :
    (* the early [return { error }]: nothing is suspended *)
    _executeAdapter_begin w ty modelId = inl (result, evs) ->
    step (w, ops) (w, ops)
| step_begin w ops ty modelId w1 adapter subContext evs :
    (* a call runs up to its [await] and suspends *)
    _executeAdapter_begin w ty modelId = inr (w1, adapter, subContext, evs) ->
    step (w, ops) (w1, ops ++ [mkPending ty modelId])
| step_settle w ops1 op ops2 (o o' : Outcome) w2 :
    (* the adapter of [op] returned or threw [o]; the call resumes *)
    _executeAdapter_settle w o = (o', w2) ->
    step (w, ops1 ++ op :: ops2) (w2, ops1 ++ ops2)
| step_init w ops env sharedBrowser thrown w1 evs :
    init env sharedBrowser w = (thrown, w1, evs) ->
    step (w, ops) (w1, ops).

(** States a Worker can be observed in, starting from its constructor. *)
Inductive reachable : t * list Pending -> Prop :=
| reach_new g c : reachable (constructor g c, [])
| reach_step st st' : reachable st -> step st st' -> reachable st'.

End Methods.

End Worker.

(* ===================================================================== *)
(** ** src/server/http/respond.js                                          *)
(* ===================================================================== *)

Module Respond.

(** The part of Node's [http.ServerResponse] the writers use. *)
Record Response := mkResponse {
  writableEnded : bool;
  headersSent : bool;
  statusCode : Z;
  headers : list (string * string);
  body : list string
}.

#[warnings="-register-all"] Inductive Json :=
| JNull
| JNum (n : Z)
| JStr (s : string)
| JArr (l : list Json)
| JObj (fields : list (string * Json)).

(** [res.writeHead(status, headers)]: throws once the headers are out.
    [Some code] in front of a result is the error raised. *)
Definition writeHead (res : Response) (status : Z) (hs : list (string * string))
  : option string * Response :=
  if headersSent res then (Some "ERR_HTTP_HEADERS_SENT"%string, res)
  else (None, {| writableEnded := writableEnded res; headersSent := true;
                 statusCode := status; headers := hs; body := body res |}).

(** [res.write(chunk)]: writing after [end] raises an error and the chunk
    is dropped. *)
Definition write (res : Response) (chunk : string) : option string * Response :=
  if writableEnded res then (Some "ERR_STREAM_WRITE_AFTER_END"%string, res)
  else (None, {| writableEnded := false; headersSent := true;
                 statusCode := statusCode res; headers := headers res;
                 body := body res ++ [chunk] |}).

(** [res.end(data?)] *)
Definition end_ (res : Response) (data : option string) : Response :=
  if writableEnded res then res
  else {| writableEnded := true; headersSent := true;
          statusCode := statusCode res; headers := headers res;
          body := body res ++ match data with Some d => [d] | None => [] end |}.

(** The line feed of the SSE framing. *)
Definition LF : string := String "010"%char EmptyString.

Section Writers.

(** [JSON.stringify] *)
Variable stringify : Json -> string.

(** [sendJson(res, status, payload)] *)
Definition sendJson (res : Response) (status : Z) (payload : Json)
  : option string * Response :=
  if writableEnded res then (None, res)
  else
    match writeHead res status [("Content-Type", "application/json")]%string with
    | (Some err, res1) => (Some err, res1)
    | (None, res1) => (None, end_ res1 (Some (stringify payload)))
    end.

(** [sendSse(res, payload)] *)
Definition sendSse (res : Response) (payload : Json) : option string * Response :=
  if writableEnded res then (None, res)
  else write res ("data: " +:+ stringify payload +:+ LF +:+ LF).

(** [sendSseDone(res)] *)
Definition sendSseDone (res : Response) : option string * Response :=
  if writableEnded res then (None, res)
  else
    match write res ("data: [DONE]" +:+ LF +:+ LF) with
    | (Some err, res1) => (Some err, res1)
    | (None, res1) => (None, end_ res1 None)
    end.

(** The empty-delta chunk of the content mode, at time [now]. *)
Definition heartbeatChunk (now : Z) (modelName : option string) : Json :=
  JObj [("id", JStr ("chatcmpl-" +:+ pretty now));
        ("object", JStr "chat.completion.chunk");
        ("created", JNum (now / 1000));
        ("model", JStr (if JS.truthy modelName then JS.interp modelName
                        else "default-model"));
        ("choices",
         JArr [JObj [("index", JNum 0);
                     ("delta", JObj [("content", JStr "")]);
                     ("finish_reason", JNull)]])]%string.

(** [sendHeartbeat(res, mode, modelName)], [now] being [Date.now()] *)
Definition sendHeartbeat (now : Z) (res : Response) (mode : string)
    (modelName : option string) : option string * Response :=
  if writableEnded res then (None, res)
  else if String.eqb mode "comment" then write res (":keepalive" +:+ LF +:+ LF)
  else write res ("data: " +:+ stringify (heartbeatChunk now modelName) +:+ LF +:+ LF).

End Writers.

End Respond.

(* ===================================================================== *)
(** ** Concrete configurations used below                                  *)
(* ===================================================================== *)

Module Examples.

Import Worker.

(** Modelled from the spec: [normalizeError] of backend/utils/error.js is
    not among the sources.  The kinds section 4.7 lists as non-retryable
    ([INVALID_MODEL], [IMAGE_REQUIRED], [IMAGE_FORBIDDEN]) are classified
    so; every other error is retryable. *)
Definition normalizeError (err : string) : Failover.Normalized :=
  let fatal :=
    bool_decide (err ∈ ["INVALID_MODEL"; "IMAGE_REQUIRED"; "IMAGE_FORBIDDEN"]%string) in
  {| Failover.n_message := err;
     Failover.n_code := if fatal then err else "GENERATION_FAILED"%string;
     Failover.n_retryable := negb fatal |}.

Definition ok (txt : string) : Result :=
  {| error := None; code := None; retryable := None; content := Some txt |}.

(** Three candidates: [A] fails for good, [B] times out, [C] answers. *)
Definition attemptABC (c : string) (s : unit) : Outcome * unit :=
  if String.eqb c "A" then (Returned (errorResult "INVALID_MODEL"), s)
  else if String.eqb c "B" then (Returned (errorResult "Timeout"), s)
  else (Returned (ok "done"), s).

(** Every candidate is down. *)
Definition attemptDown (c : string) (s : unit) : Outcome * unit :=
  (Returned (errorResult ("down: " +:+ c)), s).

(** An [onRetry] callback that throws every time it is called. *)
Definition alwaysThrows : @Failover.Callback string unit :=
  fun _ _ _ s => (Some "boom"%string, s).

(** An [onRetry] callback that throws on its first call only; the state
    counts its calls. *)
Definition throwsOnce : @Failover.Callback string nat :=
  fun _ _ _ calls =>
    (if Nat.eqb calls 0 then Some "boom"%string else None, Datatypes.S calls).

(** Every candidate is down, whatever the callback has done. *)
Definition attemptDownCounting (c : string) (calls : nat) : Outcome * nat :=
  (Returned (errorResult ("down: " +:+ c)), calls).

(** An adapter that always answers with the error [msg]. *)
Definition failing (msg : string) : Adapter unit :=
  mkAdapter (fun _ _ _ s => (Returned (errorResult msg), s)).

(** An adapter that always answers [txt]. *)
Definition answering (txt : string) : Adapter unit :=
  mkAdapter (fun _ _ _ s => (Returned (ok txt), s)).

Definition aRequest : Request :=
  {| prompt := "a cat"; paths := []; meta := "" |}.

Definition workerConfig (ty : string) (types : option (list string)) : WorkerConfig :=
  {| wc_name := "w1"; wc_type := ty; wc_instanceName := Some "i1"%string;
     wc_userDataDir := "data/camoufoxUserData"; wc_resolvedProxy := None;
     wc_mergeTypes := types; wc_mergeMonitor := None |}.

Definition mergeWorker (types : list string) (fc : option FailoverConfig) : t :=
  constructor (mkGlobalConfig fc) (workerConfig "merge" (Some types)).

(** Four member adapters that all list model [m] and are all down. *)
Definition fourDown : Registry unit :=
  let known ty := arrayIncludes ["a"; "b"; "c"; "d"]%string ty in
  {| reg_supportsModel := fun ty m => known ty && String.eqb m "m";
     reg_getImagePolicy := fun _ _ => "optional"%string;
     reg_getModelsForAdapter := fun ty =>
       if known ty then Some [mkModel "m" "model" 0 ty] else None;
     reg_getAdapter := fun ty =>
       if known ty then Some (failing ("down: " +:+ ty)) else None;
     reg_getTargetUrl := fun _ => None;
     reg_getNavigationHandlers := fun _ => [] |}.

Definition retriesZero : FailoverConfig :=
  {| enabled := Config.VBool true; maxRetries := Some 0 |}.


(** A registry with one healthy adapter [a] serving model [m]. *)
Definition oneUp : Registry unit :=
  {| reg_supportsModel := fun ty m => String.eqb ty "a" && String.eqb m "m";
     reg_getImagePolicy := fun _ _ => "optional"%string;
     reg_getModelsForAdapter := fun ty =>
       if String.eqb ty "a" then Some [mkModel "m" "model" 0 "a"] else None;
     reg_getAdapter := fun ty =>
       if String.eqb ty "a" then Some (answering "hello") else None;
     reg_getTargetUrl := fun _ => Some "https://a.example/"%string;
     reg_getNavigationHandlers := fun _ => ["login"%string] |}.

Definition singleWorker : t :=
  constructor (mkGlobalConfig None) (workerConfig "a" None).

(** A healthy host: the profile directory exists, every site answers,
    browsers and tabs open. *)
Definition healthy : InitEnv :=
  {| existsSync := fun _ => true;
     isLoginMode := false;
     tryGotoWithCheck := fun _ => None;
     initBrowserBase := fun _ => Some (mkBrowser 1 false, mkPage 1 None false []);
     newPage := fun _ => Some (mkPage 2 None false []) |}.

Definition endedResponse : Respond.Response :=
  {| Respond.writableEnded := true; Respond.headersSent := true;
     Respond.statusCode := 200;
     Respond.headers := [("Content-Type", "text/event-stream")]%string;
     Respond.body := ["data: [DONE]"%string] |}.

(** A serialiser good enough to run the writers on. *)
Definition showJson (j : Respond.Json) : string :=
  match j with
  | Respond.JNull => "null"
  | Respond.JNum n => pretty n
  | Respond.JStr s => s
  | Respond.JArr _ => "[...]"
  | Respond.JObj _ => "{...}"
  end.

Definition globalProxy : Config.Proxy :=
  {| Config.enable := Config.VBool true; Config.ptype := "http";
     Config.host := "10.0.0.1"; Config.port := 8080 |}.

(** An instance block that names a proxy but leaves [enable] out. *)
Definition instanceProxyNoEnable : Config.Proxy :=
  {| Config.enable := Config.VUndefined; Config.ptype := "socks5";
     Config.host := "10.0.0.2"; Config.port := 1080 |}.


(** Members [a] and [b] both list [shared]; [a] takes no images, [b]
    requires them.  Nobody lists [unknown]. *)
Definition twoMembers : Registry unit :=
  let known ty := arrayIncludes ["a"; "b"]%string ty in
  {| reg_supportsModel := fun ty m => known ty && String.eqb m "shared";
     reg_getImagePolicy := fun ty _ =>
       if String.eqb ty "a" then "forbidden"%string else "required"%string;
     reg_getModelsForAdapter := fun ty =>
       if known ty then Some [mkModel "shared" "model" 0 ty] else None;
     reg_getAdapter := fun ty =>
       if known ty then Some (answering ("from " +:+ ty)) else None;
     reg_getTargetUrl := fun _ => None;
     reg_getNavigationHandlers := fun _ => [] |}.


(** Adapter [a] lists a model whose id itself contains a slash; adapter [x]
    lists the model [y]. *)
Definition slashId : Registry unit :=
  {| reg_supportsModel := fun ty m =>
       (String.eqb ty "a" && String.eqb m "x/y")
       || (String.eqb ty "x" && String.eqb m "y");
     reg_getImagePolicy := fun _ _ => "optional"%string;
     reg_getModelsForAdapter := fun ty =>
       if String.eqb ty "a" then Some [mkModel "x/y" "model" 0 "a"]
       else if String.eqb ty "x" then Some [mkModel "y" "model" 0 "x"]
       else None;
     reg_getAdapter := fun ty =>
       if String.eqb ty "a" then Some (answering "from a")
       else if String.eqb ty "x" then Some (answering "from x")
       else None;
     reg_getTargetUrl := fun _ => None;
     reg_getNavigationHandlers := fun _ => [] |}.

Definition failoverOff : FailoverConfig :=
  {| enabled := Config.VBool false; maxRetries := None |}.

End Examples.

(* ===================================================================== *)
(** ** The load-balancing strategies                                       *)
(* ===================================================================== *)

Module Strategy.

Definition LEAST_BUSY : string := "least_busy".
Definition ROUND_ROBIN : string := "round_robin".
Definition RANDOM : string := "random".

Section Selector.

(** Candidates are objects with a [busyCount] property, which may be
    missing. *)
Context {A : Type}.
Variable busyCount : A -> option Z.

(** [[...candidates].sort(() => Math.random() - 0.5)]: whatever order the
    random comparator produces. *)
Variable randomOrder : list A -> list A.

(** [a.busyCount || 0] *)
Definition load (a : A) : Z :=
  match busyCount a with
  | Some n => n
  | None => 0
  end.

(** [Array.prototype.sort] with the comparator
    [(a, b) => load(a) - load(b)].  The built-in sort is stable, which
    fixes its result; it is computed here by stable insertion. *)
Fixpoint insertByLoad (x : A) (l : list A) : list A :=
  match l with
  | [] => [x]
  | y :: rest =>
      if load x <=? load y then x :: y :: rest
      else y :: insertByLoad x rest
  end.

Definition sortByLoad (l : list A) : list A := foldr insertByLoad [] l.

(** [sort(candidates)] of a selector created for [strategy], the closure
    variable [roundRobinIndex] being passed in and out. *)
Definition sort (strategy : string) (roundRobinIndex : nat) (candidates : list A)
  : list A * nat :=
  if (length candidates <=? 1)%nat then (candidates, roundRobinIndex)
  else if String.eqb strategy ROUND_ROBIN then
    let start := (roundRobinIndex mod length candidates)%nat in
    (drop start candidates ++ take start candidates, Datatypes.S roundRobinIndex)
  else if String.eqb strategy RANDOM then
    (randomOrder candidates, roundRobinIndex)
  else (sortByLoad candidates, roundRobinIndex).

(** [select(candidates)]; [None] is [null] (or [undefined]). *)
Definition select (strategy : string) (roundRobinIndex : nat) (candidates : list A)
  : option A * nat :=
  match candidates with
  | [] => (None, roundRobinIndex)
  | [c] => (Some c, roundRobinIndex)
  | _ =>
      let '(sorted, idx) := sort strategy roundRobinIndex candidates in
      (head sorted, idx)
  end.

(** [k] calls of [select] in a row on the same candidates. *)
Fixpoint selectMany (strategy : string) (roundRobinIndex : nat)
    (candidates : list A) (k : nat) : list (option A) * nat :=
  match k with
  | O => ([], roundRobinIndex)
  | Datatypes.S k' =>
      let '(c, idx1) := select strategy roundRobinIndex candidates in
      let '(cs, idx2) := selectMany strategy idx1 candidates k' in
      (c :: cs, idx2)
  end.

(** Ascending by load: no element is followed by a lighter one. *)
Fixpoint ascending (l : list A) : Prop :=
  match l with
  | [] => True
  | x :: rest => Forall (fun b => load x <= load b) rest /\ ascending rest
  end.

End Selector.

End Strategy.

Module StrategyExamples.

(** Workers as candidates: their [busyCount] is always a number. *)
Definition workerLoad (w : Worker.t) : option Z := Some (Worker.busyCount w).

Definition idle : Worker.t := Examples.singleWorker.
Definition busy1 : Worker.t := Worker.enter idle.
Definition busy2 : Worker.t := Worker.enter busy1.

(** No shuffling at all. *)
Definition keepOrder (l : list Worker.t) : list Worker.t := l.

End StrategyExamples.

(* ===================================================================== *)
(** ** More on the failover executor                                       *)
(* ===================================================================== *)

Module FailoverCallbacks.

Section Retries.

Context {C : Type}.

(** The [onRetry(candidate, error, attemptIndex)] calls of a run, in order. *)
Definition retriesOf (evs : list (@Failover.Event C)) : list (C * string * Z) :=
  omap (fun e => match e with
                 | Failover.EvOnRetry c err n _ => Some (c, err, n)
                 | _ => None
                 end) evs.

(** The call expected after the [j]-th attempt [a] (counting from 0). *)
Definition retryAfter (j : nat) (a : C * Outcome) : C * string * Z :=
  (a.1, Failover.errText a.2, Z.of_nat j + 1).

(** [executeWithFailover(candidates, execute, options)] *)
Definition executeWithFailover {S : Type} (RETRY_MAX_ATTEMPTS : Z)
    (normalizeError : string -> Failover.Normalized)
    (attempt : C -> S -> Outcome * S)
    (candidates : list C) (options_maxRetries : option Z)
    (options_onRetry : option (@Failover.Callback C S)) (s : S)
  : Outcome * S * list (@Failover.Event C) :=
  Failover.execute RETRY_MAX_ATTEMPTS normalizeError attempt options_maxRetries
                   options_onRetry candidates s.

End Retries.

End FailoverCallbacks.

(* ===================================================================== *)
(** ** More methods of the Worker class                                    *)
(* ===================================================================== *)

Module WorkerQueries.

Import Worker.

Section Queries.

Context {S : Type}.
Variable registry : Registry S.

(** [registry.getModelType(type, modelKey)] *)
Variable reg_getModelType : string -> string -> string.

(** [getModelType(modelKey)] *)
Definition getModelType (w : t) (modelKey : string) : string :=
  if isMerge w then
    let named :=
      if JS.includes "/" modelKey then
        match JS.split_limit "/" 2 modelKey with
        | specifiedType :: actualModel :: _ =>
            if arrayIncludes (mergeTypes w) specifiedType
            then Some (reg_getModelType specifiedType actualModel)
            else None
        | _ => None
        end
      else None in
    match named with
    | Some modelType => modelType
    | None =>
        match filter (fun ty => reg_supportsModel registry ty modelKey = true)
                     (mergeTypes w) with
        | ty :: _ => reg_getModelType ty modelKey
        | [] => "image"
        end
    end
  else reg_getModelType (type w) modelKey.

(** [domain.startsWith('http') ? domain : `https://${domain}`] *)
Definition cookieUrl (domain : string) : string :=
  if String.prefix "http" domain then domain else "https://" +:+ domain.

(** [getCookies(domain)]: [context.cookies] is the browser's answer to a
    query with or without a URL; [inl] is the thrown error. *)
Definition getCookies {Cookie : Type}
    (cookies : Page -> option string -> list Cookie)
    (w : t) (domain : option string) : string + list Cookie :=
  match page w with
  | None => inl ("Worker [" +:+ name w +:+ "] 未初始化")
  | Some p =>
      if JS.truthy domain
      then inr (cookies p (Some (cookieUrl (JS.interp domain))))
      else inr (cookies p None)
  end.

End Queries.

End WorkerQueries.

(* ===================================================================== *)
(** ** src/server/errors.js and the error writer of respond.js             *)
(* ===================================================================== *)

Module Errors.

Definition INVALID_REQUEST : string := "invalid_request_error".
Definition SERVER_ERROR : string := "server_error".
Definition RATE_LIMIT : string := "rate_limit_error".

(** A value found under a key of [ERROR_DETAILS]; a field that is not
    there reads as [undefined]. *)
Record Details := mkDetails {
  message : option string;
  status : option Z;
  type_ : option string
}.

Definition entry (msg : string) (st : Z) (ty : string) : Details :=
  {| message := Some msg; status := Some st; type_ := Some ty |}.

(** The own properties of [ERROR_DETAILS]. *)
Definition ERROR_DETAILS : list (string * Details) :=
  [("UNAUTHORIZED", entry "未授权（Token 无效或缺失）" 401 INVALID_REQUEST);
   ("BROWSER_NOT_INITIALIZED", entry "浏览器未初始化" 503 SERVER_ERROR);
   ("SERVER_BUSY", entry "服务器繁忙（队列已满）" 429 RATE_LIMIT);
   ("NO_MESSAGES", entry "请求参数缺少 messages" 400 INVALID_REQUEST);
   ("NO_USER_MESSAGES", entry "messages 中缺少 role=user 的消息" 400 INVALID_REQUEST);
   ("TOO_MANY_IMAGES", entry "图片数量超过限制" 400 INVALID_REQUEST);
   ("INVALID_MODEL", entry "模型无效/后端不支持" 400 INVALID_REQUEST);
   ("IMAGE_REQUIRED", entry "该模型需要参考图" 400 INVALID_REQUEST);
   ("IMAGE_FORBIDDEN", entry "该模型不支持图片输入" 400 INVALID_REQUEST);
   ("RECAPTCHA", entry "触发人机验证（reCAPTCHA）" 403 SERVER_ERROR);
   ("INTERNAL_ERROR", entry "服务器内部错误" 500 SERVER_ERROR);
   ("GENERATION_FAILED", entry "图片生成失败" 502 SERVER_ERROR)]%string.

(** The keys every object literal inherits from [Object.prototype]; what
    is found under them has none of the three fields. *)
Definition inheritedKeys : list string :=
  ["constructor"; "toString"; "toLocaleString"; "valueOf"; "hasOwnProperty";
   "isPrototypeOf"; "propertyIsEnumerable"; "__proto__"; "__defineGetter__";
   "__defineSetter__"; "__lookupGetter__"; "__lookupSetter__"]%string.

Definition inherited : Details :=
  {| message := None; status := None; type_ := None |}.

Fixpoint assoc (code : string) (table : list (string * Details)) : option Details :=
  match table with
  | [] => None
  | (k, d) :: rest => if String.eqb k code then Some d else assoc code rest
  end.

(** [ERROR_DETAILS[code]]; [None] is [undefined]. *)
Definition tableGet (code : string) : option Details :=
  match assoc code ERROR_DETAILS with
  | Some d => Some d
  | None => if bool_decide (code ∈ inheritedKeys) then Some inherited else None
  end.

(** [getErrorMessage(code)] *)
Definition getErrorMessage (code : string) : string :=
  match tableGet code with
  | Some d => if JS.truthy (message d) then JS.interp (message d) else "未知错误"
  | None => "未知错误"
  end.

(** Truthiness of a number that may be [undefined]. *)
Definition truthyNum (o : option Z) : bool :=
  match o with
  | Some n => negb (n =? 0)
  | None => false
  end.

(** [getErrorStatus(code)] *)
Definition getErrorStatus (code : string) : Z :=
  match tableGet code with
  | Some d => if truthyNum (status d) then default 500 (status d) else 500
  | None => 500
  end.

(** [getErrorDetails(code)] *)
Definition getErrorDetails (code : string) : Details :=
  match tableGet code with
  | Some d => d
  | None => {| message := Some "未知错误"%string; status := Some 500; type_ := None |}
  end.

End Errors.

Module RespondApi.

Import Respond.

(** The [options] of [sendApiError]. *)
Record Options := mkOptions {
  o_code : option string;
  o_message : option string;
  o_status : option Z;
  o_isStreaming : bool
}.

Section ErrorWriter.

Variable stringify : Json -> string.

(** [sendJson(res, status, payload)] as [sendApiError] calls it: the status
    may be [undefined], and [writeHead], once past its check of the headers,
    refuses a status outside 100..999. *)
Definition sendJsonStatus (res : Response) (status : option Z) (payload : Json)
  : option string * Response :=
  if writableEnded res then (None, res)
  else if headersSent res then (Some "ERR_HTTP_HEADERS_SENT"%string, res)
  else
    match status with
    | Some st =>
        if (100 <=? st) && (st <=? 999) then sendJson stringify res st payload
        else (Some "ERR_HTTP_INVALID_STATUS_CODE"%string, res)
    | None => (Some "ERR_HTTP_INVALID_STATUS_CODE"%string, res)
    end.

Definition detailsOf (opts : Options) : option Errors.Details :=
  if JS.truthy (o_code opts)
  then Some (Errors.getErrorDetails (JS.interp (o_code opts)))
  else None.

(** [message || (details ? details.message : '未知错误')] *)
Definition errorMessage (opts : Options) : option string :=
  if JS.truthy (o_message opts) then o_message opts
  else match detailsOf opts with
       | Some d => Errors.message d
       | None => Some "未知错误"%string
       end.

(** [details?.type || 'server_error'] *)
Definition errorType (opts : Options) : string :=
  match detailsOf opts with
  | Some d => if JS.truthy (Errors.type_ d) then JS.interp (Errors.type_ d)
              else "server_error"
  | None => "server_error"
  end.

(** [status || (details ? details.status : 500)] *)
Definition httpStatus (opts : Options) : option Z :=
  if Errors.truthyNum (o_status opts) then o_status opts
  else match detailsOf opts with
       | Some d => Errors.status d
       | None => Some 500
       end.

(** The body [{ error: { message, type, code } }]; a message that is
    [undefined] is left out by the serialiser. *)
Definition errorPayload (opts : Options) : Json :=
  JObj [("error"%string,
         JObj ((match errorMessage opts with
                | Some msg => [("message"%string, JStr msg)]
                | None => []
                end)
               ++ [("type"%string, JStr (errorType opts));
                   ("code"%string,
                    JStr (if JS.truthy (o_code opts) then JS.interp (o_code opts)
                          else "INTERNAL_ERROR"))]))].

(** [sendApiError(res, options)] *)
Definition sendApiError (res : Response) (opts : Options)
  : option string * Response :=
  let payload := errorPayload opts in
  if o_isStreaming opts then
    match sendSse stringify res payload with
    | (Some err, res1) => (Some err, res1)
    | (None, res1) => sendSseDone res1
    end
  else sendJsonStatus res (httpStatus opts) payload.

End ErrorWriter.

End RespondApi.

Module ErrorExamples.

Definition openStream : Respond.Response :=
  {| Respond.writableEnded := false; Respond.headersSent := true;
     Respond.statusCode := 200;
     Respond.headers := [("Content-Type", "text/event-stream")]%string;
     Respond.body := [] |}.

Definition fresh : Respond.Response :=
  {| Respond.writableEnded := false; Respond.headersSent := false;
     Respond.statusCode := 200; Respond.headers := []; Respond.body := [] |}.

Definition busy (streaming : bool) : RespondApi.Options :=
  {| RespondApi.o_code := Some "SERVER_BUSY"%string;
     RespondApi.o_message := None; RespondApi.o_status := None;
     RespondApi.o_isStreaming := streaming |}.

End ErrorExamples.

(* ===================================================================== *)
(** ** The configuration loader                                            *)
(* ===================================================================== *)

Module ConfigLoader.

(** A worker entry of [instances[].workers] as parsed.  Names and types are
    strings or missing; [mergeTypes] is an array or missing. *)
Record RawWorker := mkRawWorker {
  rw_name : option string;
  rw_type : option string;
  rw_mergeTypes : option (list string);
  rw_mergeMonitor : option string
}.

(** An entry of [backend.pool.instances] as parsed; [ri_workers] is [None]
    when the field is missing or not an array. *)
Record RawInstance := mkRawInstance {
  ri_name : option string;
  ri_userDataMark : option string;
  ri_proxy : option Config.Proxy;
  ri_workers : option (list RawWorker)
}.

(** An element of the flattened [workers] array. *)
Record FlatWorker := mkFlatWorker {
  fw_name : string;
  fw_type : string;
  fw_mergeTypes : list string;
  fw_mergeMonitor : option string;
  fw_instanceName : string;
  fw_userDataMark : option string;
  fw_userDataDir : string;
  fw_resolvedProxy : option Config.Proxy
}.

(** The double quote character of the error messages. *)
Definition quote : string := String (Ascii.ascii_of_nat 34) EmptyString.

(** [x || null] for a string that may be missing *)
Definition orNull (x : option string) : option string :=
  if JS.truthy x then x else None.

(** The flattened entry read as the [workerConfig] of the Worker class. *)
Definition toWorkerConfig (fw : FlatWorker) : Worker.WorkerConfig :=
  {| Worker.wc_name := fw_name fw;
     Worker.wc_type := fw_type fw;
     Worker.wc_instanceName := Some (fw_instanceName fw);
     Worker.wc_userDataDir := fw_userDataDir fw;
     Worker.wc_resolvedProxy := fw_resolvedProxy fw;
     Worker.wc_mergeTypes := Some (fw_mergeTypes fw);
     Worker.wc_mergeMonitor := fw_mergeMonitor fw |}.

Section Flatten.

(** [process.cwd()] and [path.join] *)
Variable cwd : string.
Variable path_join : string -> string -> string.

(** [resolveUserDataDir(userDataMark)] *)
Definition resolveUserDataDir (userDataMark : option string) : string :=
  let baseDir := path_join cwd "data" in
  if negb (JS.truthy userDataMark) then path_join baseDir "camoufoxUserData"
  else path_join baseDir ("camoufoxUserData_" +:+ JS.interp userDataMark).

(** [validateInstance(instance, index)]; [Some msg] is the error thrown. *)
Definition validateInstance (instance : RawInstance) (index : nat) : option string :=
  if negb (JS.truthy (ri_name instance)) then
    Some ("instances[" +:+ pretty index +:+ "] 缺少必需字段: name")
  else
    match ri_workers instance with
    | Some (_ :: _) => None
    | _ =>
        Some ("instances[" +:+ pretty index +:+ "] ("
              +:+ JS.interp (ri_name instance) +:+ ") 缺少有效的 workers 数组")
    end.

(** [validateWorker(worker, instanceName, index)] *)
Definition validateWorker (worker : RawWorker) (instanceName : string) (index : nat)
  : option string :=
  if negb (JS.truthy (rw_name worker)) then
    Some ("instances[" +:+ instanceName +:+ "].workers[" +:+ pretty index
          +:+ "] 缺少必需字段: name")
  else if negb (JS.truthy (rw_type worker)) then
    Some ("instances[" +:+ instanceName +:+ "].workers[" +:+ pretty index
          +:+ "] (" +:+ JS.interp (rw_name worker) +:+ ") 缺少必需字段: type")
  else if String.eqb (JS.interp (rw_type worker)) "merge" then
    match rw_mergeTypes worker with
    | Some (_ :: _) => None
    | _ =>
        Some ("Worker " +:+ quote +:+ JS.interp (rw_name worker) +:+ quote
              +:+ " 类型为 merge，但缺少有效的 mergeTypes 数组")
    end
  else None.

(** The object pushed for [worker] of [instance]. *)
Definition flatOf (globalProxy : option Config.Proxy) (instance : RawInstance)
    (worker : RawWorker) : FlatWorker :=
  {| fw_name := JS.interp (rw_name worker);
     fw_type := JS.interp (rw_type worker);
     fw_mergeTypes := default [] (rw_mergeTypes worker);
     fw_mergeMonitor := orNull (rw_mergeMonitor worker);
     fw_instanceName := JS.interp (ri_name instance);
     fw_userDataMark := orNull (ri_userDataMark instance);
     fw_userDataDir := resolveUserDataDir (ri_userDataMark instance);
     fw_resolvedProxy := Config.resolveProxyConfig globalProxy (ri_proxy instance) |}.

(** The inner loop, from index [j], with the names seen and the workers
    pushed so far. *)
Fixpoint flattenWorkers (globalProxy : option Config.Proxy) (instance : RawInstance)
    (workers : list RawWorker) (j : nat) (st : gset string * list FlatWorker)
  : string + (gset string * list FlatWorker) :=
  match workers with
  | [] => inr st
  | worker :: rest =>
      match validateWorker worker (JS.interp (ri_name instance)) j with
      | Some err => inl err
      | None =>
          let name := JS.interp (rw_name worker) in
          if bool_decide (name ∈ st.1) then
            inl ("Worker 名称 " +:+ quote +:+ name +:+ quote
                 +:+ " 重复。Worker 名称必须全局唯一。")
          else
            flattenWorkers globalProxy instance rest (Datatypes.S j)
              ({[ name ]} ∪ st.1, st.2 ++ [flatOf globalProxy instance worker])
      end
  end.

(** The workers of an instance that passed [validateInstance]. *)
Definition workersOf (instance : RawInstance) : list RawWorker :=
  default [] (ri_workers instance).

(** The outer loop, from index [i]. *)
Fixpoint flattenInstances (globalProxy : option Config.Proxy)
    (instances : list RawInstance) (i : nat) (st : gset string * list FlatWorker)
  : string + (gset string * list FlatWorker) :=
  match instances with
  | [] => inr st
  | instance :: rest =>
      match validateInstance instance i with
      | Some err => inl err
      | None =>
          match flattenWorkers globalProxy instance (workersOf instance) 0 st with
          | inl err => inl err
          | inr st1 => flattenInstances globalProxy rest (Datatypes.S i) st1
          end
      end
  end.

(** [flattenInstancesToWorkers(instances, globalProxy)]; [inl] is the error
    thrown. *)
Definition flattenInstancesToWorkers (instances : list RawInstance)
    (globalProxy : option Config.Proxy) : string + list FlatWorker :=
  match flattenInstances globalProxy instances 0 (∅, []) with
  | inl err => inl err
  | inr st => inr st.2
  end.

(** What the validators accept. *)
Definition workerOk (worker : RawWorker) : Prop :=
  JS.truthy (rw_name worker) = true
  /\ JS.truthy (rw_type worker) = true
  /\ (rw_type worker = Some "merge"%string -> default [] (rw_mergeTypes worker) <> []).

Definition instanceOk (instance : RawInstance) : Prop :=
  JS.truthy (ri_name instance) = true
  /\ workersOf instance <> []
  /\ Forall workerOk (workersOf instance).

(** All the workers of all the instances, in order. *)
Definition expand (globalProxy : option Config.Proxy) (instances : list RawInstance)
  : list FlatWorker :=
  concat (map (fun instance => map (flatOf globalProxy instance) (workersOf instance))
              instances).

(** The condition under which flattening goes through, [acc] being the
    workers already pushed. *)
Definition accepted (globalProxy : option Config.Proxy) (acc : list FlatWorker)
    (instances : list RawInstance) : Prop :=
  Forall instanceOk instances
  /\ NoDup (fw_name <$> (acc ++ expand globalProxy instances)).

Definition acceptedWorkers (globalProxy : option Config.Proxy) (instance : RawInstance)
    (acc : list FlatWorker) (workers : list RawWorker) : Prop :=
  Forall workerOk workers
  /\ NoDup (fw_name <$> (acc ++ map (flatOf globalProxy instance) workers)).

(** [seenNames] is the set of names pushed, none of them twice. *)
Definition namesInv (st : gset string * list FlatWorker) : Prop :=
  (forall x, x ∈ st.1 <-> x ∈ fw_name <$> st.2) /\ NoDup (fw_name <$> st.2).

End Flatten.

(** The names of all the workers of all the instances, in order. *)
Definition allNames (instances : list RawInstance) : list string :=
  concat (map (fun instance =>
                 map (fun worker => JS.interp (rw_name worker)) (workersOf instance))
              instances).

End ConfigLoader.

Module ConfigExamples.

Import ConfigLoader.

Definition pathJoin (a b : string) : string := a +:+ "/" +:+ b.

Definition chat : RawWorker :=
  {| rw_name := Some "chat"; rw_type := Some "lmarena";
     rw_mergeTypes := None; rw_mergeMonitor := None |}.

Definition both : RawWorker :=
  {| rw_name := Some "both"; rw_type := Some "merge";
     rw_mergeTypes := Some ["lmarena"; "gemini"]; rw_mergeMonitor := Some "" |}.

Definition draw : RawWorker :=
  {| rw_name := Some "draw"; rw_type := Some "gemini";
     rw_mergeTypes := None; rw_mergeMonitor := None |}.

Definition first : RawInstance :=
  {| ri_name := Some "first"; ri_userDataMark := None;
     ri_proxy := Some Examples.instanceProxyNoEnable;
     ri_workers := Some [chat; both] |}.

Definition second : RawInstance :=
  {| ri_name := Some "second"; ri_userDataMark := Some "";
     ri_proxy := None; ri_workers := Some [draw] |}.

Definition flattened : list FlatWorker :=
  expand "/srv" pathJoin (Some Examples.globalProxy) [first; second].

End ConfigExamples.

(* ===================================================================== *)
(** ** Finding and loading the configuration file                          *)
(* ===================================================================== *)

Module ConfigFiles.

Import ConfigLoader.

(** What a path names: a regular file with its text, or a directory. *)
Inductive Entry :=
| File (text : string)
| Dir.

(** The file system, by path. *)
Abbreviation Fs := (gmap string Entry).

(** A value of the parsed document. *)
Inductive Value :=
| VUndefined                 (* the key is missing *)
| VNull
| VBool (b : bool)
| VInt (n : Z)               (* a number for which [Number.isInteger] holds *)
| VFloat (nan : bool)        (* any other number, [NaN] when [nan] *)
| VStr (s : string)
| VObj.                      (* a mapping or a sequence *)

(** [!!v] *)
Definition truthyV (v : Value) : bool :=
  match v with
  | VUndefined | VNull => false
  | VBool b => b
  | VInt n => negb (n =? 0)
  | VFloat nan => negb nan
  | VStr s => negb (String.eqb s "")
  | VObj => true
  end.

(** [names.includes(v)] for an array of strings *)
Definition includesV (names : list string) (v : Value) : bool :=
  match v with
  | VStr s => bool_decide (s ∈ names)
  | _ => false
  end.

(** The sections of the document the loader reads.  A section is [None]
    when its key is missing or [null]; [p_instances] is [None] also when
    the value is not an array. *)
Record BrowserSection := mkBrowserSection {
  b_path : Value;
  b_proxy : option Config.Proxy
}.

Record Keepalive := mkKeepalive {
  ka_mode : Value
}.

Record Server := mkServer {
  s_port : Value;
  s_auth : Value;
  s_keepalive : option Keepalive
}.

Record FailoverSection := mkFailoverSection {
  f_enabled : Value;
  f_maxRetries : Value
}.

Record Pool := mkPool {
  p_strategy : Value;
  p_failover : option FailoverSection;
  p_instances : option (list RawInstance);
  p_workers : option (list FlatWorker)
}.

Record GeminiBiz := mkGeminiBiz {
  entryUrl : Value
}.

Record AdapterSection := mkAdapterSection {
  gemini_biz : option GeminiBiz
}.

Record Backend := mkBackend {
  bk_pool : option Pool;
  bk_adapter : option AdapterSection
}.

Record Queue := mkQueue {
  q_queueBuffer : Value;
  q_imageLimit : Value;
  q_maxConcurrent : Value
}.

Record ConfigObject := mkConfigObject {
  server : option Server;
  browser : option BrowserSection;
  backend : option Backend;
  queue : option Queue;
  logLevel : Value
}.

(** What [yaml.parse] makes of a text. *)
Inductive Parsed :=
| Invalid (msg : string)          (* it throws *)
| Scalar                          (* [null] or a value that is no object *)
| Mapping (config : ConfigObject).

(** The errors thrown, by [fs], by [yaml.parse] and by the loader:
    - [NotFound]: 未找到配置文件: ${configPath}。...
    - [ParseFailed]: 配置文件解析失败: ${configPath}
    - [MissingPort]: 配置文件缺少必需字段: server.port
    - [BadPort]: server.port 必须是 1-65535 范围内的整数，当前值: ${port}
    - [MissingAuth]: 配置文件缺少必需字段: server.auth
    - [BadAuth]: server.auth 必须是至少 10 个字符的字符串 ...
    - [MissingInstances]: 配置文件缺少必需字段: backend.pool.instances
    - [EmptyInstances]: backend.pool.instances 不能为空数组
    - [InvalidInstances]: the error of [flattenInstancesToWorkers]
    - [MissingEntryUrl]: 存在 gemini_biz 类型的 Worker，但 ... entryUrl 未配置 *)
Inductive Error :=
| FsError (code : string)
| YamlError (msg : string)
| NotFound (configPath : string)
| ParseFailed (configPath : string)
| MissingPort
| BadPort (port : Value)
| MissingAuth
| BadAuth
| MissingInstances
| EmptyInstances
| InvalidInstances (msg : string)
| MissingEntryUrl.

(** The calls of the logger, one constructor for each call site:
    - [Migrated]: info, 已将 ${src} 迁移到 ${dst}
    - [Copied]: info, 已从 ${src} 复制配置到 ${dst}
    - [DockerPath]: info, 检测到容器环境，自动修正浏览器路径为 ...
    - [InvalidKeepalive]: warn, 无效的 keepalive.mode: ${mode}，使用默认值 comment
    - [InvalidStrategy]: warn, 无效的 pool.strategy: ${strategy}，使用默认值 least_busy
    - [SetLevel]: [logger.setLevel(config.logLevel)]
    - [LoadedFile], [LoadedCounts], [LoadedStrategy], [LoadedKeepalive]: the
      four debug lines at the end of [loadConfig] *)
Inductive Log :=
| Migrated (src dst : string)
| Copied (src dst : string)
| DockerPath
| InvalidKeepalive (mode : Value)
| InvalidStrategy (strategy : Value)
| SetLevel (level : Value)
| LoadedFile (configPath : string)
| LoadedCounts (instances workers : nat)
| LoadedStrategy (strategy : Value)
| LoadedKeepalive (mode : Value).

(** The file system and the module-level variables [cachedConfig] and
    [activeConfigPath], with the log written so far. *)
Record State := mkState {
  files : Fs;
  cachedConfig : option ConfigObject;
  activeConfigPath : option string;
  logs : list Log
}.

(** Code that reads and writes the state and may throw. *)
Definition M (A : Type) : Type := State -> (Error + A) * State.

Definition ret {A} (a : A) : M A := fun st => (inr a, st).

Definition throw {A} (e : Error) : M A := fun st => (inl e, st).

Definition bind {A B} (m : M A) (k : A -> M B) : M B :=
  fun st =>
    match m st with
    | (inl e, st') => (inl e, st')
    | (inr a, st') => k a st'
    end.

#[local] Notation "x <- m ;; k" := (bind m (fun x => k))
  (at level 100, m at next level, right associativity).

(** [logger.info], [logger.warn], [logger.debug], [logger.setLevel] *)
Definition log (l : Log) : M unit :=
  fun st =>
    (inr tt, {| files := files st; cachedConfig := cachedConfig st;
                activeConfigPath := activeConfigPath st;
                logs := logs st ++ [l] |}).

Definition logAll (ls : list Log) : M unit :=
  fun st =>
    (inr tt, {| files := files st; cachedConfig := cachedConfig st;
                activeConfigPath := activeConfigPath st;
                logs := logs st ++ ls |}).

Definition set_files (st : State) (fs : Fs) : State :=
  {| files := fs; cachedConfig := cachedConfig st;
     activeConfigPath := activeConfigPath st; logs := logs st |}.

(** [fs.existsSync(p)] *)
Definition existsSync (p : string) : M bool :=
  fun st => (inr (bool_decide (is_Some (files st !! p))), st).

(** [fs.existsSync(v)] for a value of the document: [false] for what is not
    a string. *)
Definition existsSyncV (v : Value) : M bool :=
  match v with
  | VStr p => existsSync p
  | _ => ret false
  end.

(** [fs.readFileSync(p, 'utf8')] *)
Definition readFileSync (p : string) : M string :=
  fun st =>
    match files st !! p with
    | Some (File text) => (inr text, st)
    | Some Dir => (inl (FsError "EISDIR"), st)
    | None => (inl (FsError "ENOENT"), st)
    end.

(** [fs.mkdirSync(p, { recursive: true })]; of the directories it makes only
    [p] is recorded. *)
Definition mkdirSync (p : string) : M unit :=
  fun st =>
    match files st !! p with
    | Some (File _) => (inl (FsError "EEXIST"), st)
    | Some Dir => (inr tt, st)
    | None => (inr tt, set_files st (<[p := Dir]> (files st)))
    end.

Section Loader.

(** [process.cwd()], [path.join], the parent directory of a path as the file
    system sees it, [yaml.parse] and [s.length]. *)
Variable cwd : string.
Variable path_join : string -> string -> string.
Variable dirname : string -> string.
Variable parse : string -> Parsed.
Variable strlen : string -> nat.

Definition DATA_DIR : string := path_join cwd "data".
Definition DATA_CONFIG_PATH : string := path_join DATA_DIR "config.yaml".
Definition ROOT_CONFIG_PATH : string := path_join cwd "config.yaml".
Definition EXAMPLE_CONFIG_PATH : string := path_join cwd "config.example.yaml".

(** [fs.renameSync(oldPath, newPath)]: the entry moves, replacing what
    [newPath] named. *)
Definition renameSync (oldPath newPath : string) : M unit :=
  fun st =>
    match files st !! oldPath with
    | None => (inl (FsError "ENOENT"), st)
    | Some e =>
        match files st !! dirname newPath with
        | Some Dir =>
            match e, files st !! newPath with
            | File _, Some Dir => (inl (FsError "EISDIR"), st)
            | Dir, Some (File _) => (inl (FsError "ENOTDIR"), st)
            | _, _ =>
                (inr tt, set_files st (<[newPath := e]> (delete oldPath (files st))))
            end
        | Some (File _) => (inl (FsError "ENOTDIR"), st)
        | None => (inl (FsError "ENOENT"), st)
        end
    end.

(** [fs.copyFileSync(src, dest)] *)
Definition copyFileSync (src dest : string) : M unit :=
  fun st =>
    match files st !! src with
    | None => (inl (FsError "ENOENT"), st)
    | Some Dir => (inl (FsError "EISDIR"), st)
    | Some (File text) =>
        match files st !! dirname dest with
        | Some Dir =>
            match files st !! dest with
            | Some Dir => (inl (FsError "EISDIR"), st)
            | _ => (inr tt, set_files st (<[dest := File text]> (files st)))
            end
        | Some (File _) => (inl (FsError "ENOTDIR"), st)
        | None => (inl (FsError "ENOENT"), st)
        end
    end.

(** [if (!fs.existsSync(DATA_DIR)) fs.mkdirSync(DATA_DIR, { recursive: true })] *)
Definition ensureDataDir : M unit :=
  there <- existsSync DATA_DIR ;;
  if negb there then mkdirSync DATA_DIR else ret tt.

(** [resolveConfigPath()] *)
Definition resolveConfigPath : M string :=
  inData <- existsSync DATA_CONFIG_PATH ;;
  if inData then ret DATA_CONFIG_PATH
  else
    inRoot <- existsSync ROOT_CONFIG_PATH ;;
    if inRoot then
      _ <- ensureDataDir ;;
      _ <- renameSync ROOT_CONFIG_PATH DATA_CONFIG_PATH ;;
      _ <- log (Migrated ROOT_CONFIG_PATH DATA_CONFIG_PATH) ;;
      ret DATA_CONFIG_PATH
    else
      hasExample <- existsSync EXAMPLE_CONFIG_PATH ;;
      if hasExample then
        _ <- ensureDataDir ;;
        _ <- copyFileSync EXAMPLE_CONFIG_PATH DATA_CONFIG_PATH ;;
        _ <- log (Copied EXAMPLE_CONFIG_PATH DATA_CONFIG_PATH) ;;
        ret DATA_CONFIG_PATH
      else ret DATA_CONFIG_PATH.

(** [getConfigPath()] *)
Definition getConfigPath : M string :=
  fun st =>
    if negb (JS.truthy (activeConfigPath st)) then
      match resolveConfigPath st with
      | (inl e, st') => (inl e, st')
      | (inr p, st') =>
          (inr p, {| files := files st'; cachedConfig := cachedConfig st';
                     activeConfigPath := Some p; logs := logs st' |})
      end
    else (inr (JS.interp (activeConfigPath st)), st).

(** The container-path block of [loadConfig]: the browser section it
    leaves. *)
Definition dockerPath (config : ConfigObject) : M (option BrowserSection) :=
  let path := match browser config with Some b => b_path b | None => VUndefined end in
  there <- (if negb (truthyV path) then ret false else existsSyncV path) ;;
  if negb there then
    inContainer <- existsSync "/app/camoufox/camoufox" ;;
    if inContainer then
      _ <- log DockerPath ;;
      ret (Some {| b_path := VStr "/app/camoufox/camoufox";
                   b_proxy := match browser config with
                              | Some b => b_proxy b
                              | None => None
                              end |})
    else ret (browser config)
  else ret (browser config).

(** [typeof port === 'number' && Number.isInteger(port) && port >= 1
    && port <= 65535] *)
Definition validPort (port : Value) : bool :=
  match port with
  | VInt n => (1 <=? n) && (n <=? 65535)
  | _ => false
  end.

(** [typeof auth === 'string' && auth.length >= 10] *)
Definition validAuth (auth : Value) : bool :=
  match auth with
  | VStr s => (10 <=? strlen s)%nat
  | _ => false
  end.

(** The checks of [server.port] and [server.auth]. *)
Definition checkServer (config : ConfigObject) : M Server :=
  match server config with
  | None => throw MissingPort
  | Some s =>
      if negb (truthyV (s_port s)) then throw MissingPort
      else if negb (validPort (s_port s)) then throw (BadPort (s_port s))
      else if negb (truthyV (s_auth s)) then throw MissingAuth
      else if negb (validAuth (s_auth s)) then throw BadAuth
      else ret s
  end.

(** The keepalive block: the mode it leaves. *)
Definition keepaliveMode (s : Server) : M Value :=
  match s_keepalive s with
  | None => ret (VStr "comment")
  | Some ka =>
      let mode := match ka_mode ka with
                  | VUndefined => VStr "comment"
                  | m => m
                  end in
      if negb (includesV ["comment"; "content"] mode) then
        _ <- log (InvalidKeepalive mode) ;;
        ret (VStr "comment")
      else ret mode
  end.

(** [config.backend.pool] once [backend] and [pool] default to [{}]. *)
Definition poolOf (config : ConfigObject) : Pool :=
  match backend config with
  | Some b =>
      match bk_pool b with
      | Some p => p
      | None => {| p_strategy := VUndefined; p_failover := None;
                   p_instances := None; p_workers := None |}
      end
  | None => {| p_strategy := VUndefined; p_failover := None;
               p_instances := None; p_workers := None |}
  end.

(** The strategy block. *)
Definition poolStrategy (pool : Pool) : M Value :=
  let strategy := if negb (truthyV (p_strategy pool)) then VStr "least_busy"
                  else p_strategy pool in
  if negb (includesV ["least_busy"; "round_robin"; "random"] strategy) then
    _ <- log (InvalidStrategy strategy) ;;
    ret (VStr "least_busy")
  else ret strategy.

(** The failover block. *)
Definition poolFailover (pool : Pool) : FailoverSection :=
  let failover := match p_failover pool with
                  | Some f => f
                  | None => {| f_enabled := VUndefined; f_maxRetries := VUndefined |}
                  end in
  {| f_enabled := match f_enabled failover with
                  | VUndefined => VBool true
                  | v => v
                  end;
     f_maxRetries := match f_maxRetries failover with
                     | VUndefined => VInt 2
                     | v => v
                     end |}.

(** The instances block: the flattened workers. *)
Definition poolWorkers (pool : Pool) (browser' : option BrowserSection)
  : M (list RawInstance * list FlatWorker) :=
  match p_instances pool with
  | None => throw MissingInstances
  | Some [] => throw EmptyInstances
  | Some instances =>
      match flattenInstancesToWorkers cwd path_join instances
              (match browser' with Some b => b_proxy b | None => None end) with
      | inl msg => throw (InvalidInstances msg)
      | inr workers => ret (instances, workers)
      end
  end.

(** The queue block, with [maxConcurrent] the number of workers. *)
Definition queueOf (config : ConfigObject) (workers : list FlatWorker) : Queue :=
  let q := match queue config with
           | None => {| q_queueBuffer := VInt 2; q_imageLimit := VInt 5;
                        q_maxConcurrent := VUndefined |}
           | Some q =>
               {| q_queueBuffer := match q_queueBuffer q with
                                   | VUndefined => VInt 2
                                   | v => v
                                   end;
                  q_imageLimit := match q_imageLimit q with
                                  | VUndefined => VInt 5
                                  | v => v
                                  end;
                  q_maxConcurrent := q_maxConcurrent q |}
           end in
  {| q_queueBuffer := q_queueBuffer q; q_imageLimit := q_imageLimit q;
     q_maxConcurrent := VInt (Z.of_nat (length workers)) |}.

(** [config.backend.adapter] once it defaults to [{}]. *)
Definition adapterOf (config : ConfigObject) : AdapterSection :=
  match backend config with
  | Some b =>
      match bk_adapter b with
      | Some a => a
      | None => {| gemini_biz := None |}
      end
  | None => {| gemini_biz := None |}
  end.

(** [w.type === 'gemini_biz' || (w.type === 'merge' &&
    w.mergeTypes?.includes('gemini_biz'))] *)
Definition usesGeminiBiz (w : FlatWorker) : bool :=
  String.eqb (fw_type w) "gemini_biz"
  || (String.eqb (fw_type w) "merge" && bool_decide ("gemini_biz"%string ∈ fw_mergeTypes w)).

(** [config.backend.adapter.gemini_biz?.entryUrl] *)
Definition entryUrlOf (a : AdapterSection) : Value :=
  match gemini_biz a with
  | Some g => entryUrl g
  | None => VUndefined
  end.

(** [loadConfig()] from the parsed document on: checks, defaults, logs. *)
Definition complete (configPath : string) (config : ConfigObject) : M ConfigObject :=
  browser' <- dockerPath config ;;
  s <- checkServer config ;;
  mode <- keepaliveMode s ;;
  let pool := poolOf config in
  strategy <- poolStrategy pool ;;
  let failover := poolFailover pool in
  iw <- poolWorkers pool browser' ;;
  let instances := iw.1 in
  let workers := iw.2 in
  let queue' := queueOf config workers in
  let adapter := adapterOf config in
  if existsb usesGeminiBiz workers && negb (truthyV (entryUrlOf adapter)) then
    throw MissingEntryUrl
  else
    _ <- (if truthyV (logLevel config) then log (SetLevel (logLevel config))
          else ret tt) ;;
    _ <- logAll [LoadedFile configPath;
                 LoadedCounts (length instances) (length workers);
                 LoadedStrategy strategy;
                 LoadedKeepalive mode] ;;
    ret {| server := Some {| s_port := s_port s; s_auth := s_auth s;
                             s_keepalive := Some {| ka_mode := mode |} |};
           browser := browser';
           backend := Some {| bk_pool :=
                                Some {| p_strategy := strategy;
                                        p_failover := Some failover;
                                        p_instances := Some instances;
                                        p_workers := Some workers |};
                              bk_adapter := Some adapter |};
           queue := Some queue';
           logLevel := logLevel config |}.

(** [loadConfig()] *)
Definition loadConfig : M ConfigObject :=
  fun st =>
    match cachedConfig st with
    | Some config => (inr config, st)
    | None =>
        (configPath <- getConfigPath ;;
         there <- existsSync configPath ;;
         if negb there then throw (NotFound configPath)
         else
           configFile <- readFileSync configPath ;;
           match parse configFile with
           | Invalid msg => throw (YamlError msg)
           | Scalar => throw (ParseFailed configPath)
           | Mapping config =>
               config' <- complete configPath config ;;
               fun st' =>
                 (inr config',
                  {| files := files st'; cachedConfig := Some config';
                     activeConfigPath := activeConfigPath st';
                     logs := logs st' |})
           end) st
    end.

End Loader.

End ConfigFiles.

Module LoaderExamples.

Import ConfigFiles.

(** The directory part of a path with [/] as separator. *)
Definition parentOf (p : string) : string :=
  String.concat "/" (removelast (JS.split "/" p)).

Definition exampleText : string := "server: { port: 3000, auth: sk-0123456789 }".

(** What the example text parses to: an unknown strategy, failover switched
    off with no retries, two instances. *)
Definition exampleConfig : ConfigObject :=
  {| server := Some {| s_port := VInt 3000; s_auth := VStr "sk-0123456789";
                       s_keepalive := None |};
     browser := Some {| b_path := VUndefined;
                        b_proxy := Some Examples.globalProxy |};
     backend :=
       Some {| bk_pool :=
                 Some {| p_strategy := VStr "fastest";
                         p_failover := Some {| f_enabled := VBool false;
                                               f_maxRetries := VInt 0 |};
                         p_instances := Some [ConfigExamples.first;
                                              ConfigExamples.second];
                         p_workers := None |};
               bk_adapter := None |};
     queue := None;
     logLevel := VUndefined |}.

Definition parseExample (text : string) : Parsed :=
  if String.eqb text exampleText then Mapping exampleConfig
  else Invalid "syntax".

(** A first start: only [config.example.yaml] is there. *)
Definition firstStart : State :=
  {| files := {[ "/srv/config.example.yaml"%string := File exampleText ]};
     cachedConfig := None; activeConfigPath := None; logs := [] |}.

End LoaderExamples.

(* ===================================================================== *)
(** ** The page authentication lock                                        *)
(* ===================================================================== *)

Module PageAuth.





End PageAuth.

(* ===================================================================== *)
(** * Properties                                                           *)
(* ===================================================================== *)

(** ** Strings *)

Section StringFacts.

Import JS.

Lemma split_nonempty c s : split c s <> [].
Proof.
  destruct s as [|a rest]; simpl; [discriminate|].
  destruct (Ascii.eqb a c); [discriminate|].
  destruct (split c rest); discriminate.
Qed.

Lemma includes_split c s :
  includes c s = true ->
  exists a b rest, split c s = a :: b :: rest.
Proof.
  induction s as [|x s IH]; simpl; [discriminate|].
  destruct (Ascii.eqb x c) eqn:E.
  - intros _. destruct (split c s) as [|p ps] eqn:Hs.
    + exfalso. by eapply split_nonempty.
    + by exists EmptyString, p, ps.
  - intros H. destruct (IH H) as (a & b & rest & ->).
    by exists (String x a), b, rest.
Qed.

Lemma split_limit_2 s :
  includes "/" s = true ->
  exists a b, split_limit "/" 2 s = [a; b].
Proof.
  intros H. destruct (includes_split _ _ H) as (a & b & rest & Hs).
  exists a, b. unfold split_limit. by rewrite Hs.
Qed.

Lemma no_slash_split c s : includes c s = false -> split c s = [s].
Proof.
  induction s as [|x s IH]; simpl; [done|].
  destruct (Ascii.eqb x c); [discriminate|].
  intros H. by rewrite (IH H).
Qed.



Lemma append_assoc (a b c : string) : (a +:+ b) +:+ c = a +:+ (b +:+ c).
Proof.
  induction a as [|x a IH]; [done|].
  change (String x ((a +:+ b) +:+ c) = String x (a +:+ (b +:+ c))).
  by rewrite IH.
Qed.

Lemma append_inj_l (a b c : string) : a +:+ b = a +:+ c -> b = c.
Proof.
  induction a as [|x a IH]; [done|].
  change (String x (a +:+ b) = String x (a +:+ c) -> b = c).
  intros [= H]. by apply IH.
Qed.

Lemma truthy_interp o : truthy o = true -> Some (interp o) = o.
Proof. by destruct o as [[|]|]. Qed.

End StringFacts.

(** ** The failover executor *)

Section FailoverFacts.

Import Failover.

Context {C S : Type}.
Variable attempt : C -> S -> Outcome * S.

Lemma attemptsOf_app (a b : list (@Event C)) :
  attemptsOf (a ++ b) = attemptsOf a ++ attemptsOf b.
Proof. apply omap_app. Qed.

(** What follows a failed attempt, case by case. *)
Lemma afterFailure_cases norm (onRetry : @Callback C S) more c n o s :
  let err := errText o in
  let dbg := match o with
             | Returned _ =>
                 if negb (n_retryable (norm err)) && more
                 then [@EvDebugSkip C err] else []
             | Threw _ => []
             end in
  let first := onRetry c err n s in
  afterFailure norm onRetry more c n o s
  = if more then
      match first.1, o with
      | None, _ => (inl err, first.2, dbg ++ [EvOnRetry c err n None])
      | Some msg, Threw _ => (inr msg, first.2, [EvOnRetry c err n (Some msg)])
      | Some msg, Returned _ =>
          let second := onRetry c msg n first.2 in
          (match second.1 with None => inl msg | Some msg' => inr msg' end,
           second.2,
           (dbg ++ [EvOnRetry c err n (Some msg)])
           ++ [EvOnRetry c msg n second.1])
      end
    else (inl err, s, []).
Proof.
  cbv zeta. unfold afterFailure, catchBlock.
  destruct o as [r|msg]; simpl errText; destruct more; simpl.
  - destruct (onRetry c (JS.interp (error r)) n s) as [[m|] s1]; simpl; [|done].
    rewrite andb_true_r.
    by destruct (onRetry c m n s1) as [[m'|] s2].
  - by rewrite andb_false_r.
  - by destruct (onRetry c msg n s) as [[m|] s1].
  - done.
Qed.

Lemma afterFailure_attempts norm (onRetry : @Callback C S) more c n o s :
  attemptsOf (afterFailure norm onRetry more c n o s).2 = [].
Proof.
  rewrite afterFailure_cases. cbv zeta. destruct more; [|done].
  destruct (onRetry c (errText o) n s).1 as [msg|]; simpl.
  - destruct o as [r|m]; simpl; [|done].
    rewrite !attemptsOf_app. simpl.
    by destruct (negb _ && _).
  - rewrite attemptsOf_app. simpl. destruct o; [|done].
    by destruct (negb _ && _).
Qed.


Lemma afterFailure_quiet norm (onRetry : @Callback C S) more c n o s :
  quiet onRetry ->
  (afterFailure norm onRetry more c n o s).1.1 = inl (errText o).
Proof.
  intros Hq. rewrite afterFailure_cases. cbv zeta. destruct more; [|done].
  by rewrite (Hq c (errText o) n s).
Qed.

Lemma afterFailure_last norm (onRetry : @Callback C S) c n o s :
  afterFailure norm onRetry false c n o s = (inl (errText o), s, []).
Proof. by rewrite afterFailure_cases. Qed.

(** [execute] is left only by an exception of the callback. *)
Lemma afterFailure_rejects norm (onRetry : @Callback C S) more c n o s msg :
  (afterFailure norm onRetry more c n o s).1.1 = inr msg ->
  more = true
  /\ exists err, last (afterFailure norm onRetry more c n o s).2
                 = Some (EvOnRetry c err n (Some msg)).
Proof.
  rewrite afterFailure_cases. cbv zeta. destruct more; [|done].
  destruct (onRetry c (errText o) n s).1 as [m|]; [|done].
  destruct o as [r|m0]; simpl.
  - destruct (onRetry c m n _).1 as [m'|] eqn:E; [|done].
    intros [= ->]. split; [done|]. exists m. by rewrite last_snoc.
  - intros [= ->]. split; [done|]. by eexists.
Qed.

Lemma loop_unfold norm (onRetry : @Callback C S) cands maxA todo i last s :
  loop norm attempt onRetry cands maxA (Datatypes.S todo) i last s =
  match cands !! i with
  | None => (Returned (exhausted last), s, [])
  | Some c =>
      let o := (attempt c s).1 in
      let s1 := (attempt c s).2 in
      if failed o then
        let after :=
          afterFailure norm onRetry (Z.of_nat i <? maxA - 1) c (Z.of_nat i + 1) o s1 in
        match after.1.1 with
        | inl err =>
            let rest := loop norm attempt onRetry cands maxA todo (Datatypes.S i)
                          (Some err) after.1.2 in
            (rest.1.1, rest.1.2, EvAttempt c o :: after.2 ++ rest.2)
        | inr msg => (Threw msg, after.1.2, EvAttempt c o :: after.2)
        end
      else (o, s1, [EvAttempt c o])
  end.
Proof.
  cbn [loop]. destruct (cands !! i) as [c|]; [|done].
  destruct (attempt c s) as [o s1]. cbn [fst snd].
  generalize (afterFailure norm onRetry (Z.of_nat i <? maxA - 1) c
                (Z.of_nat i + 1) o s1).
  intros [[[err|m] s2] evs]; cbn [fst snd].
  - destruct (loop _ _ _ _ _ _ _ _ _) as [[? ?] ?].
    destruct o as [r|msg]; cbn [failed]; [|done].
    unfold succeeded. by destruct (JS.truthy (error r)).
  - destruct o as [r|msg]; cbn [failed]; [|done].
    unfold succeeded. by destruct (JS.truthy (error r)).
Qed.


Lemma lastErrorAfter_cons init a (atts : list (C * Outcome)) :
  lastErrorAfter init (a :: atts) = lastErrorAfter (Some (errText a.2)) atts.
Proof.
  unfold lastErrorAfter. rewrite last_cons.
  destruct (last atts) as [[? ?]|]; [done|]. by destruct a.
Qed.

Lemma lastErrorAfter_nonempty init init' (atts : list (C * Outcome)) :
  atts <> [] -> lastErrorAfter init atts = lastErrorAfter init' atts.
Proof.
  intros Hne. unfold lastErrorAfter. destruct (last atts) eqn:E; [done|].
  by apply last_None in E.
Qed.

Lemma loop_first_attempt norm (onRetry : @Callback C S) cands maxA todo i last s :
  (0 < todo)%nat -> (i < length cands)%nat ->
  attemptsOf (loop norm attempt onRetry cands maxA todo i last s).2 <> [].
Proof.
  intros Ht Hi. destruct todo as [|todo]; [lia|]. rewrite loop_unfold.
  destruct (lookup_lt_is_Some_2 cands i Hi) as [c Hc]. rewrite Hc. cbv zeta.
  destruct (failed (attempt c s).1) eqn:Hf; [|done].
  by destruct (afterFailure _ _ _ _ _ _ _).1.1.
Qed.

(** The shape of a run of the loop that ends at [maxAttempts]. *)
Lemma loop_shape norm (onRetry : @Callback C S) cands maxA todo :
  forall i last s,
    todo = O \/ Z.of_nat (i + todo) = maxA ->
    (i + todo <= length cands)%nat ->
    let run := loop norm attempt onRetry cands maxA todo i last s in
    let atts := attemptsOf run.2 in
    atts.*1 = take (length atts) (drop i cands)
    /\ (length atts <= todo)%nat
    /\ (endsWell run.1.1 atts
        \/ (endsExhausted last run.1.1 atts /\ length atts = todo)
        \/ endsRejected run.1.1 run.2 atts).
Proof.
  induction todo as [|todo IH]; intros i last s Hsum Hlen; cbv zeta.
  { simpl. split; [by rewrite take_0|]. split; [done|]. right. left.
    repeat split; done. }
  destruct Hsum as [?|Hsum]; [done|].
  rewrite loop_unfold.
  destruct (lookup_lt_is_Some_2 cands i ltac:(lia)) as [c Hc]. rewrite Hc.
  cbv zeta. destruct (failed (attempt c s).1) eqn:Hf.
  2:{ destruct (attempt c s).1 as [r|msg] eqn:Ho; [|done].
      simpl. split; [by rewrite (drop_S _ _ _ Hc)|]. split; [lia|].
      left. exists [], c, r. repeat split; [done|].
      unfold succeeded. simpl in Hf. by rewrite Hf. }
  set (o := (attempt c s).1) in *. set (s1 := (attempt c s).2).
  set (more := Z.of_nat i <? maxA - 1).
  pose proof (afterFailure_attempts norm onRetry more c (Z.of_nat i + 1) o s1) as Hna.
  pose proof (afterFailure_rejects norm onRetry more c (Z.of_nat i + 1) o s1) as Hrej.
  pose proof (afterFailure_last norm onRetry c (Z.of_nat i + 1) o s1) as Hlast.
  destruct (afterFailure norm onRetry more c (Z.of_nat i + 1) o s1)
    as [[[err|msg] s2] evs] eqn:Hafter; simpl in *.
  - specialize (IH (Datatypes.S i) (Some err) s2).
    cbv zeta in IH.
    set (rest := loop norm attempt onRetry cands maxA todo (Datatypes.S i) _ _) in *.
    change (attemptsOf (EvAttempt c o :: evs ++ rest.2))
      with ((c, o) :: attemptsOf (evs ++ rest.2)).
    rewrite attemptsOf_app, Hna. simpl app.
    destruct IH as (Hpre & Hle & Hend); [destruct todo; [by left|right; lia]|lia|].
    split; [|split].
    + simpl. rewrite (drop_S _ _ _ Hc). simpl. by rewrite Hpre at 1.
    + simpl. lia.
    + destruct Hend as [(pre & c' & r & Hr & Heq & Hall & Hok)
                       |[((Hall & Hr) & Hn)|(Hall & m & c' & e & n & Hr & Hl)]].
      * left. exists ((c, o) :: pre), c', r.
        rewrite Heq. repeat split; [done| |done]. by constructor.
      * right. left. split; [split|].
        -- by constructor.
        -- rewrite Hr. rewrite lastErrorAfter_cons. simpl.
           destruct todo as [|todo'].
           ++ (* this was the last attempt allowed *)
              assert (Hmore : more = false) by (apply Z.ltb_ge; lia).
              rewrite Hmore, Hlast in Hafter. by injection Hafter as -> _ _.
           ++ f_equal. f_equal. apply lastErrorAfter_nonempty.
              apply (loop_first_attempt norm onRetry cands maxA
                       (Datatypes.S todo') (Datatypes.S i) (Some err) s2); lia.
        -- simpl. lia.
      * right. right. split; [by constructor|].
        exists m, c', e, n. split; [done|].
        rewrite app_comm_cons, last_app, Hl. done.
  - change (attemptsOf (EvAttempt c o :: evs)) with ((c, o) :: attemptsOf evs).
    rewrite Hna. simpl. rewrite (drop_S _ _ _ Hc). simpl. rewrite take_0.
    split; [done|]. split; [lia|]. right. right.
    split; [by repeat constructor|].
    destruct (Hrej msg eq_refl) as (_ & e & Hl).
    exists msg, c, e, (Z.of_nat i + 1). split; [done|].
    destruct evs as [|ev evs']; [done|]. by rewrite last_cons, Hl.
Qed.

(** A callback that never throws never makes the loop reject. *)
Lemma loop_quiet norm (onRetry : @Callback C S) cands maxA todo :
  quiet onRetry ->
  forall i last s,
    exists r, (loop norm attempt onRetry cands maxA todo i last s).1.1 = Returned r.
Proof.
  intros Hq. induction todo as [|todo IH]; intros i last s; [by eexists|].
  rewrite loop_unfold. destruct (cands !! i) as [c|]; [|by eexists].
  cbv zeta. destruct (failed (attempt c s).1) eqn:Hf.
  - rewrite (afterFailure_quiet norm onRetry _ _ _ _ _ Hq). simpl. apply IH.
  - destruct (attempt c s).1; [by eexists|done].
Qed.

(** Every recorded attempt is a call of the attempt function. *)
Lemma loop_attempts_genuine norm (onRetry : @Callback C S) cands maxA todo :
  forall i last s,
    Forall (fun a => exists s', a.2 = (attempt a.1 s').1)
           (attemptsOf (loop norm attempt onRetry cands maxA todo i last s).2).
Proof.
  induction todo as [|todo IH]; intros i last s; [by constructor|].
  rewrite loop_unfold. destruct (cands !! i) as [c|]; [|by constructor].
  cbv zeta. destruct (failed (attempt c s).1) eqn:Hf.
  - pose proof (afterFailure_attempts norm onRetry (Z.of_nat i <? maxA - 1) c
                  (Z.of_nat i + 1) (attempt c s).1 (attempt c s).2) as Hna.
    destruct (afterFailure _ _ _ _ _ _ _) as [[[err|msg] s2] evs]; simpl in *.
    + change (attemptsOf (?e :: ?l)) with ((c, (attempt c s).1) :: attemptsOf l).
      constructor; [by exists s|]. rewrite attemptsOf_app, Hna. apply IH.
    + change (attemptsOf (?e :: ?l)) with ((c, (attempt c s).1) :: attemptsOf l).
      rewrite Hna. constructor; [by exists s|constructor].
  - simpl. constructor; [by exists s|constructor].
Qed.

Lemma maxAttemptsOf_bounds m n :
  0 <= m -> 0 <= maxAttemptsOf m n <= Z.of_nat n.
Proof. unfold maxAttemptsOf. destruct (m =? 0) eqn:E; lia. Qed.


End FailoverFacts.

(** ** The Worker: adapter execution and its failover loop *)

Section WorkerFacts.

Import Worker.

Context {S : Type}.
Variable registry : Registry S.

Lemma leave_enter w : leave (enter w) = w.
Proof.
  destruct w. unfold leave, enter, set_busyCount. simpl. f_equal. lia.
Qed.

Lemma attempts_app (a b : list Event) : attempts (a ++ b) = attempts a ++ attempts b.
Proof. apply omap_app. Qed.

Lemma invocations_app (a b : list Event) :
  invocations (a ++ b) = invocations a ++ invocations b.
Proof. apply omap_app. Qed.

(** One call of [_executeAdapter]: the Worker comes back as it was, one
    attempt is recorded, and only the adapter asked for was called. *)
Lemma executeAdapter_spec w ty modelId req s :
  let run := _executeAdapter registry w ty modelId req s in
  run.1.1.2 = w
  /\ attempts run.2 = [run.1.1.1]
  /\ (invocations run.2 = [] \/ invocations run.2 = [(ty, modelId)]).
Proof.
  unfold _executeAdapter, _executeAdapter_begin, _executeAdapter_settle.
  destruct (reg_getAdapter registry ty) as [a|].
  - cbv zeta. destruct (generate_ a _ req modelId s) as [o s1]. simpl.
    rewrite leave_enter. auto.
  - simpl. auto.
Qed.

Lemma failoverLoop_unfold cands maxA todo i last req w s :
  failoverLoop registry cands maxA (Datatypes.S todo) i last req w s =
  match cands !! i with
  | None => (Returned (allFailed w last), w, s, [])
  | Some (ty, actualModelId) =>
      let run := _executeAdapter registry w ty actualModelId req s in
      match run.1.1.1 with
      | Threw msg => run
      | Returned result =>
          if succeeded result then run
          else
            let rest := failoverLoop registry cands maxA todo (Datatypes.S i)
                          (error result) req run.1.1.2 run.1.2 in
            (rest.1.1.1, rest.1.1.2, rest.1.2,
             run.2
             ++ (if Z.of_nat i <? maxA - 1
                 then [EvLog "warn" ("[" +:+ name w +:+ "] " +:+ ty +:+ " 失败，尝试下一个适配器...")]
                 else [])
             ++ rest.2)
      end
  end.
Proof.
  simpl. destruct (cands !! i) as [[ty m]|]; [|done].
  destruct (_executeAdapter registry w ty m req s) as [[[o w1] s1] evs].
  simpl. destruct o as [r|msg]; [|done].
  destruct (succeeded r); [done|].
  by destruct (failoverLoop _ _ _ _ _ _ _ _ _) as [[[? ?] ?] ?].
Qed.

Lemma lastErrorW_cons init r atts :
  lastErrorW init (Returned r :: atts) = lastErrorW (error r) atts.
Proof.
  unfold lastErrorW. rewrite last_cons. by destruct (last atts) as [[?|?]|].
Qed.

Lemma failoverLoop_shape cands maxA req todo :
  forall i last w s,
    let run := failoverLoop registry cands maxA todo i last req w s in
    let atts := attempts run.2 in
    run.1.1.2 = w
    /\ (forall c, c ∈ invocations run.2 -> c ∈ cands)
    /\ (length atts <= todo)%nat
    /\ ((exists pre o, atts = pre ++ [o] /\ Forall failedResult pre
                       /\ run.1.1.1 = o /\ failed o = false)
        \/ (exists pre msg, atts = pre ++ [Threw msg] /\ Forall failedResult pre
                            /\ run.1.1.1 = Threw msg)
        \/ (Forall failedResult atts
            /\ run.1.1.1 = Returned (allFailed w (lastErrorW last atts))
            /\ ((i + todo <= length cands)%nat -> length atts = todo))).
Proof.
  induction todo as [|todo IH]; intros i last w s; cbv zeta.
  { simpl. split; [done|]. split; [by intros c Hc; apply elem_of_nil in Hc|].
    split; [done|]. right. right. repeat split; done. }
  rewrite failoverLoop_unfold.
  destruct (cands !! i) as [[ty m]|] eqn:Hc.
  2:{ simpl. split; [done|]. split; [by intros c Hc'; apply elem_of_nil in Hc'|].
      split; [lia|]. right. right. repeat split; [done|].
      intros Hlen. apply lookup_ge_None in Hc. lia. }
  cbv zeta.
  destruct (executeAdapter_spec w ty m req s) as (Hw & Hatt & Hinv).
  set (run := _executeAdapter registry w ty m req s) in *.
  assert (Hin : forall c, c ∈ invocations run.2 -> c ∈ cands).
  { intros c Hin. destruct Hinv as [Hinv|Hinv]; rewrite Hinv in Hin.
    - by apply elem_of_nil in Hin.
    - apply list_elem_of_singleton in Hin as ->. by eapply list_elem_of_lookup_2. }
  destruct run.1.1.1 as [r|msg] eqn:Ho.
  2:{ rewrite Hatt, Ho. split; [done|]. split; [done|]. split; [simpl; lia|].
      right. left. exists [], msg. by repeat split. }
  destruct (succeeded r) eqn:Hok.
  { rewrite Hatt, Ho. split; [done|]. split; [done|]. split; [simpl; lia|].
    left. exists [], (Returned r). repeat split; [done|].
    simpl. unfold succeeded in Hok. by destruct (JS.truthy (error r)). }
  specialize (IH (Datatypes.S i) (error r) run.1.1.2 run.1.2).
  cbv zeta in IH. destruct IH as (Hw' & Hin' & Hlen & Hend).
  set (rest := failoverLoop registry cands maxA todo (Datatypes.S i) _ _ _ _) in *.
  simpl fst; simpl snd.
  assert (Hatts : attempts
            (run.2 ++ (if Z.of_nat i <? maxA - 1
                       then [EvLog "warn" ("[" +:+ name w +:+ "] " +:+ ty +:+ " 失败，尝试下一个适配器...")]
                       else []) ++ rest.2)
          = Returned r :: attempts rest.2).
  { rewrite !attempts_app, Hatt. by destruct (Z.of_nat i <? maxA - 1). }
  assert (Hfail : failedResult (Returned r)) by (by exists r).
  rewrite Hatts. clear Hatts. split; [congruence|]. split; [|split].
  - intros c. rewrite !invocations_app, !elem_of_app.
    intros [?|[Hmid|?]]; [by apply Hin| |by apply Hin'].
    destruct (Z.of_nat i <? maxA - 1); by apply elem_of_nil in Hmid.
  - simpl. lia.
  - destruct Hend as [(pre & o & Heq & Hall & Hr & Hf)
                     |[(pre & msg & Heq & Hall & Hr)|(Hall & Hr & Hn)]].
    + left. exists (Returned r :: pre), o. rewrite Heq.
      repeat split; try done. by constructor.
    + right. left. exists (Returned r :: pre), msg. rewrite Heq.
      repeat split; try done. by constructor.
    + right. right. repeat split.
      * by constructor.
      * rewrite Hr, lastErrorW_cons. by rewrite Hw.
      * intros Hle. simpl. rewrite Hn; lia.
Qed.

End WorkerFacts.

(** ** Claims on the failover mechanism *)

Section ExecuteFacts.

Import Failover.

Context {C S : Type}.
Variable RETRY_MAX_ATTEMPTS : Z.
Variable attempt : C -> S -> Outcome * S.

Lemma maxAttemptsOf_le m n : maxAttemptsOf m n <= Z.of_nat n.
Proof. unfold maxAttemptsOf. destruct (m =? 0); lia. Qed.

Lemma execute_shape norm opts (cb : option (@Callback C S)) cands s :
  let run := execute RETRY_MAX_ATTEMPTS norm attempt opts cb cands s in
  let atts := attemptsOf run.2 in
  let maxAttempts :=
    maxAttemptsOf (maxRetriesOf RETRY_MAX_ATTEMPTS opts) (length cands) in
  cands <> [] ->
  atts.*1 `prefix_of` cands
  /\ (length atts <= Z.to_nat maxAttempts)%nat
  /\ (endsWell run.1.1 atts
      \/ endsExhausted None run.1.1 atts /\ length atts = Z.to_nat maxAttempts
      \/ endsRejected run.1.1 run.2 atts).
Proof.
  cbv zeta. intros Hne. unfold execute.
  destruct cands as [|c0 cands']; [done|]. set (cands := c0 :: cands') in *.
  set (maxA := maxAttemptsOf _ _).
  pose proof (maxAttemptsOf_le (maxRetriesOf RETRY_MAX_ATTEMPTS opts)
                (length cands)) as Hle. fold maxA in Hle.
  destruct (loop_shape attempt norm (onRetryOf cb) cands maxA (Z.to_nat maxA)
              0 None s) as (Hpre & Hlen & Hend).
  { destruct (decide (maxA <= 0)); [left|right]; lia. }
  { lia. }
  split; [|split; [done|done]].
  rewrite Hpre. rewrite drop_0. eexists. symmetry. apply take_drop.
Qed.

Lemma execute_quiet norm opts (cb : option (@Callback C S)) cands s :
  quiet (onRetryOf cb) ->
  exists r, (execute RETRY_MAX_ATTEMPTS norm attempt opts cb cands s).1.1 = Returned r.
Proof.
  intros Hq. unfold execute. destruct cands; [by eexists|]. by apply loop_quiet.
Qed.


Lemma execute_attempts_genuine norm opts (cb : option (@Callback C S)) cands s :
  Forall (fun a => exists s', a.2 = (attempt a.1 s').1)
         (attemptsOf (execute RETRY_MAX_ATTEMPTS norm attempt opts cb cands s).2).
Proof.
  unfold execute. destruct cands; [by constructor|]. apply loop_attempts_genuine.
Qed.

Lemma endsWell_not_all_failed o (atts : list (C * Outcome)) :
  endsWell o atts -> ~ Forall (fun a => failed a.2 = true) atts.
Proof.
  intros (pre & c & r & _ & -> & _ & Hok) Hall.
  apply Forall_app in Hall as [_ Hall]. apply Forall_inv in Hall.
  simpl in Hall. unfold succeeded in Hok. rewrite Hall in Hok. discriminate.
Qed.

Lemma endsRejected_throws o evs (atts : list (C * Outcome)) :
  endsRejected o evs atts -> exists msg, o = Threw msg.
Proof. intros (_ & msg & c & err & n & -> & _). by eexists. Qed.

(** With every attempt failing and a callback that does not throw, a run
    over [N >= 1] candidates makes [N] attempts when [maxRetries] is 0 and
    [min(maxRetries+1, N)] when it is positive. *)
Lemma execute_attempts_when_all_fail norm opts (cb : option (@Callback C S)) cands s :
  let run := execute RETRY_MAX_ATTEMPTS norm attempt opts cb cands s in
  let m := maxRetriesOf RETRY_MAX_ATTEMPTS opts in
  cands <> [] -> 0 <= m ->
  quiet (onRetryOf cb) ->
  (forall c s, failed (attempt c s).1 = true) ->
  Z.of_nat (length (attemptsOf run.2)) =
    if m =? 0 then Z.of_nat (length cands)
    else Z.min (m + 1) (Z.of_nat (length cands)).
Proof.
  cbv zeta. intros Hne Hm Hq Hfail.
  destruct (execute_shape norm opts cb cands s Hne) as (Hpre & _ & Hend).
  destruct Hend as [Hw|[[_ Hn]|Hr]].
  - exfalso. apply (endsWell_not_all_failed _ _ Hw).
    eapply Forall_impl; [apply (execute_attempts_genuine norm opts cb cands s)|].
    intros [c o] [s' ->]. apply Hfail.
  - rewrite Hn. pose proof (maxAttemptsOf_bounds (maxRetriesOf RETRY_MAX_ATTEMPTS opts)
                              (length cands) Hm) as Hb.
    rewrite Z2Nat.id by lia. done.
  - exfalso. destruct (endsRejected_throws _ _ _ Hr) as [msg Hmsg].
    destruct (execute_quiet norm opts cb cands s Hq) as [r Hret]. congruence.
Qed.

End ExecuteFacts.

Section MergeFailoverFacts.

Import Worker.

Context {S : Type}.
Variable registry : Registry S.

Lemma generateWithFailover_shape w req modelId fc s :
  let run := _generateWithFailover registry w req modelId fc s in
  let atts := attempts run.2 in
  let cands := _getCandidateTypes registry w modelId in
  let maxAttempts := Z.min (maxRetriesOr2 fc + 1) (Z.of_nat (length cands)) in
  cands <> [] ->
  run.1.1.2 = w
  /\ (forall c, c ∈ invocations run.2 -> c ∈ cands)
  /\ ((exists pre o, atts = pre ++ [o] /\ Forall failedResult pre
                     /\ run.1.1.1 = o /\ failed o = false)
      \/ (exists pre msg, atts = pre ++ [Threw msg] /\ Forall failedResult pre
                          /\ run.1.1.1 = Threw msg)
      \/ (Forall failedResult atts
          /\ run.1.1.1 = Returned (allFailed w (lastErrorW None atts))
          /\ length atts = Z.to_nat maxAttempts)).
Proof.
  cbv zeta. intros Hne. unfold _generateWithFailover.
  destruct (_getCandidateTypes registry w modelId) as [|c0 cs] eqn:Hc; [done|].
  set (cands := c0 :: cs) in *.
  assert (Hmax : (if maxRetriesOr2 fc =? 0 then Z.of_nat (length cands)
                  else Z.min (maxRetriesOr2 fc + 1) (Z.of_nat (length cands)))
                 = Z.min (maxRetriesOr2 fc + 1) (Z.of_nat (length cands))).
  { destruct (maxRetriesOr2 fc =? 0) eqn:E; [|done].
    unfold maxRetriesOr2 in E. destruct (maxRetries fc) as [m|]; [|done].
    destruct (m =? 0) eqn:E'; [done|]. lia. }
  rewrite Hmax. set (maxA := Z.min _ _).
  destruct (failoverLoop_shape registry cands maxA req (Z.to_nat maxA) 0 None w s)
    as (Hw & Hin & Hlen & Hend).
  split; [done|]. split; [done|].
  destruct Hend as [?|[?|(Hall & Hr & Hn)]]; [by left|by right; left|].
  right. right. repeat split; [done|done|]. apply Hn. lia.
Qed.

(** With every adapter answering an error, the merge loop makes
    [min(maxRetries' + 1, N)] attempts, [maxRetries'] being the configured
    value with 0 and [undefined] replaced by 2. *)
Lemma merge_attempts_when_all_fail w req modelId fc s :
  let run := _generateWithFailover registry w req modelId fc s in
  let cands := _getCandidateTypes registry w modelId in
  cands <> [] -> 0 <= maxRetriesOr2 fc ->
  Forall failedResult (attempts run.2) ->
  Z.of_nat (length (attempts run.2))
  = Z.min (maxRetriesOr2 fc + 1) (Z.of_nat (length cands)).
Proof.
  cbv zeta. intros Hne Hm Hall.
  destruct (generateWithFailover_shape w req modelId fc s Hne) as (_ & _ & Hend).
  destruct Hend as [(pre & o & Heq & _ & _ & Hf)
                   |[(pre & msg & Heq & _ & _)|(_ & _ & Hn)]].
  - rewrite Heq in Hall. apply Forall_app in Hall as [_ Hall].
    apply Forall_inv in Hall. destruct Hall as (r & -> & Hs).
    simpl in Hf. unfold succeeded in Hs. rewrite Hf in Hs. discriminate.
  - rewrite Heq in Hall. apply Forall_app in Hall as [_ Hall].
    apply Forall_inv in Hall. by destruct Hall as (r & ? & _).
  - rewrite Hn. rewrite Z2Nat.id; [done|]. destruct (_getCandidateTypes _ _ _); [done|].
    simpl length. lia.
Qed.

End MergeFailoverFacts.

(** C2 (defect in the code).  A merge Worker whose four members all list
    the model and are all down, configured with [maxRetries: 0]: the
    cross-adapter loop stops after three attempts and never tries the fourth
    member, while the standalone executor with the same setting tries all
    four candidates.  [failoverConfig.maxRetries || 2] turns the 0 into 2
    before the [maxRetries === 0] test is reached. *)
Theorem merge_failover_zero_retries_stops_at_three :
  let w := Examples.mergeWorker ["a"; "b"; "c"; "d"]%string (Some Examples.retriesZero) in
  let run := Worker.generate Examples.fourDown w Examples.aRequest "m" tt in
  let alone :=
    Failover.execute 2 Examples.normalizeError Examples.attemptDown (Some 0) None
      ["a"; "b"; "c"; "d"]%string tt in
  length (Worker._getCandidateTypes Examples.fourDown w "m") = 4%nat
  /\ Worker.invocations run.2 = [("a", "m"); ("b", "m"); ("c", "m")]%string
  /\ length (Worker.attempts run.2) = 3%nat
  /\ length (Failover.attemptsOf alone.2) = 4%nat.
Proof. vm_compute. repeat split. Qed.







(** ** The busy counter *)

Section BusyCounter.

Import Worker.

Context {S : Type}.
Variable registry : Registry S.

Lemma generate_restores_worker w req modelId s :
  (generate registry w req modelId s).1.1.2 = w.
Proof.
  unfold generate.
  destruct (isMerge w && _).
  - unfold _generateWithFailover.
    destruct (_getCandidateTypes registry w modelId) as [|c cs] eqn:Hc; [done|].
    apply failoverLoop_shape.
  - destruct (negb (supports registry w modelId)); [done|].
    destruct (_getAdapterType registry w modelId); [|done].
    apply executeAdapter_spec.
Qed.

Lemma generateAll_restores_worker w calls s :
  (generateAll registry w calls s).1.2 = w.
Proof.
  revert w s. induction calls as [|[req modelId] calls IH]; intros w s; [done|].
  simpl. pose proof (generate_restores_worker w req modelId s) as Hw.
  destruct (generate registry w req modelId s) as [[[o w1] s1] evs].
  simpl in Hw. subst w1. specialize (IH w s1).
  by destruct (generateAll registry w calls s1) as [[os w2] s2].
Qed.

Lemma init_busyCount env sharedBrowser w :
  busyCount (init registry env sharedBrowser w).1.2 = busyCount w.
Proof.
  unfold init. destruct (initialized w); [done|]. cbv zeta.
  destruct sharedBrowser as [b|].
  - unfold _initWithSharedBrowser. by destruct (newPage env b).
  - unfold _initNewBrowser.
    destruct (initBrowserBase env (userDataDir w)) as [[context p]|]; [|done].
    cbv zeta. by destruct (isLoginMode env).
Qed.

(** The first half of [_executeAdapter] suspends exactly when the registry
    knows the adapter, and then the counter has gone up by one. *)
Lemma executeAdapter_begin_spec w ty modelId :
  match _executeAdapter_begin registry w ty modelId with
  | inl (result, _) =>
      reg_getAdapter registry ty = None /\ result = noAdapter ty
  | inr (w1, adapter, subContext, _) =>
      reg_getAdapter registry ty = Some adapter
      /\ subContext = subContextOf w
      /\ busyCount w1 = busyCount w + 1
  end.
Proof.
  unfold _executeAdapter_begin. destruct (reg_getAdapter registry ty); [|done].
  cbv zeta. by repeat split.
Qed.

(** The second half hands the outcome on and takes the counter down by
    one, whatever the outcome. *)
Lemma executeAdapter_settle_spec w (o : Outcome) :
  (_executeAdapter_settle w o).1 = o
  /\ busyCount (_executeAdapter_settle w o).2 = busyCount w - 1.
Proof. unfold _executeAdapter_settle, leave. simpl. split; [done|lia]. Qed.

(** Each step moves the counter as it moves the number of suspended
    calls. *)
Lemma step_counter st st' :
  step registry st st' ->
  busyCount st'.1 - busyCount st.1
  = Z.of_nat (length st'.2) - Z.of_nat (length st.2).
Proof.
  intros Hstep.
  destruct Hstep as [w ops ty modelId r evs _
                    |w ops ty modelId w1 a sc evs Hb
                    |w ops1 op ops2 o o' w2 Hs
                    |w ops env sb thrown w1 evs Hi]; simpl.
  - lia.
  - pose proof (executeAdapter_begin_spec w ty modelId) as H.
    rewrite Hb in H. destruct H as (_ & _ & ->). rewrite length_app. simpl. lia.
  - destruct (executeAdapter_settle_spec w o) as [_ H].
    rewrite Hs in H. simpl in H. rewrite H, !length_app. simpl. lia.
  - pose proof (init_busyCount env sb w) as H. rewrite Hi in H. simpl in H. lia.
Qed.

Lemma reachable_invariant st :
  reachable registry st -> busyCount st.1 = Z.of_nat (length st.2).
Proof.
  induction 1 as [g c|st st' _ IH Hstep]; [done|].
  apply step_counter in Hstep. lia.
Qed.

(** A call that runs to completion is a [step_begin] followed by the
    [step_settle] of the call it suspended. *)
Lemma executeAdapter_two_steps w ty modelId req s ops adapter :
  reg_getAdapter registry ty = Some adapter ->
  let run := _executeAdapter registry w ty modelId req s in
  exists w1,
    step registry (w, ops) (w1, ops ++ [mkPending ty modelId])
    /\ busyCount w1 = busyCount w + 1
    /\ step registry (w1, ops ++ [mkPending ty modelId]) (run.1.1.2, ops)
    /\ run.1.1.1 = (generate_ adapter (subContextOf w) req modelId s).1
    /\ run.1.2 = (generate_ adapter (subContextOf w) req modelId s).2
    /\ run.1.1.2 = w.
Proof.
  intros Ha. cbv zeta.
  pose proof (executeAdapter_begin_spec w ty modelId) as Hb.
  unfold _executeAdapter.
  destruct (_executeAdapter_begin registry w ty modelId)
    as [[r evs]|[[[w1 a] sc] evs]] eqn:Hbegin.
  { destruct Hb as [Hn _]. congruence. }
  destruct Hb as (Ha' & -> & Hup).
  assert (a = adapter) as -> by congruence.
  destruct (generate_ adapter (subContextOf w) req modelId s) as [o s1] eqn:Hg.
  destruct (_executeAdapter_settle w1 o) as [o' w2] eqn:Hsettle.
  destruct (executeAdapter_settle_spec w1 o) as [Ho Hdown].
  rewrite Hsettle in Ho, Hdown. simpl in Ho, Hdown. subst o'.
  exists w1. simpl. split; [by eapply step_begin|]. split; [done|].
  split; [|split; [done|split; [done|]]].
  - pose proof (step_settle registry w1 ops (mkPending ty modelId) [] o o w2 Hsettle)
      as Hstep.
    by rewrite app_nil_r in Hstep.
  - pose proof (executeAdapter_spec registry w ty modelId req s) as [Hw _].
    unfold _executeAdapter in Hw. rewrite Hbegin, Hg, Hsettle in Hw. exact Hw.
Qed.

End BusyCounter.

(** C1.  In every state a Worker can be observed in, the busy counter is
    non-negative and equals the number of calls suspended inside
    [_executeAdapter], and every step moves the counter as it moves that
    number.  The code of [_executeAdapter] before its [await] takes the
    counter up by one exactly when the registry knows the adapter, that
    is, when an adapter execution begins; its code after the [await]
    takes the counter down by one for every outcome, a success result, an
    error result or an exception, and hands that outcome on.  A call run
    to completion is such a beginning followed by such a settlement, one
    up and one down around the adapter's own run; the early return without
    an adapter leaves the counter alone; so a completed [_executeAdapter],
    and any completed sequence of [generate] calls, leaves the counter
    (and the whole Worker) as it found it. *)
Theorem busy_counter_tracks_suspended_calls :
  forall (S : Type) (registry : Worker.Registry S),
    (forall st, Worker.reachable registry st ->
                0 <= Worker.busyCount st.1
                /\ Worker.busyCount st.1 = Z.of_nat (length st.2))
    /\ (forall st st', Worker.step registry st st' ->
          Worker.busyCount st'.1 - Worker.busyCount st.1
          = Z.of_nat (length st'.2) - Z.of_nat (length st.2))
    /\ (forall w ty modelId,
          match Worker._executeAdapter_begin registry w ty modelId with
          | inl (result, _) =>
              Worker.reg_getAdapter registry ty = None
              /\ result = Worker.noAdapter ty
          | inr (w1, adapter, subContext, _) =>
              Worker.reg_getAdapter registry ty = Some adapter
              /\ subContext = Worker.subContextOf w
              /\ Worker.busyCount w1 = Worker.busyCount w + 1
          end)
    /\ (forall w (o : Outcome),
          (Worker._executeAdapter_settle w o).1 = o
          /\ Worker.busyCount (Worker._executeAdapter_settle w o).2
             = Worker.busyCount w - 1)
    /\ (forall w ty modelId req s ops,
          let run := Worker._executeAdapter registry w ty modelId req s in
          match Worker.reg_getAdapter registry ty with
          | Some adapter =>
              let ran := Worker.generate_ adapter (Worker.subContextOf w) req modelId s in
              exists w1,
                Worker.step registry (w, ops)
                  (w1, ops ++ [Worker.mkPending ty modelId])
                /\ Worker.busyCount w1 = Worker.busyCount w + 1
                /\ Worker.step registry (w1, ops ++ [Worker.mkPending ty modelId])
                     (run.1.1.2, ops)
                /\ run.1.1.1 = ran.1
                /\ run.1.2 = ran.2
                /\ run.1.1.2 = w
          | None =>
              run = (Returned (Worker.noAdapter ty), w, s, [Worker.EvNoAdapter ty])
          end)
    /\ (forall w calls s,
          (Worker.generateAll registry w calls s).1.2 = w).
Proof.
  intros S registry. split; [|split; [|split; [|split; [|split]]]].
  - intros st Hr. pose proof (reachable_invariant registry st Hr). lia.
  - apply step_counter.
  - apply executeAdapter_begin_spec.
  - apply executeAdapter_settle_spec.
  - intros w ty modelId req s ops. cbv zeta.
    destruct (Worker.reg_getAdapter registry ty) as [adapter|] eqn:Ha.
    + apply (executeAdapter_two_steps registry w ty modelId req s ops adapter Ha).
    + unfold Worker._executeAdapter, Worker._executeAdapter_begin. by rewrite Ha.
  - apply generateAll_restores_worker.
Qed.

Lemma busy_counter_tracks_suspended_calls_witness :
  let w := Examples.singleWorker in
  let st := (Worker.enter (Worker.enter w),
             [Worker.mkPending "a" "m"; Worker.mkPending "a" "m"]) in
  Worker.reachable Examples.oneUp st
  /\ Worker.busyCount st.1 = 2.
Proof.
  cbv zeta.
  assert (Hr : Worker.reachable Examples.oneUp
                 (Worker.enter (Worker.enter Examples.singleWorker),
                  [Worker.mkPending "a" "m"; Worker.mkPending "a" "m"])).
  { eapply Worker.reach_step.
    - eapply Worker.reach_step; [apply Worker.reach_new|].
      eapply (Worker.step_begin Examples.oneUp _ [] "a" "m"). reflexivity.
    - eapply (Worker.step_begin Examples.oneUp _ [Worker.mkPending "a" "m"] "a" "m").
      reflexivity. }
  split; [exact Hr|].
  destruct (busy_counter_tracks_suspended_calls unit Examples.oneUp) as [Hinv _].
  destruct (Hinv _ Hr) as [_ Heq]. exact Heq.
Defined.

(** ** Initialisation *)

(** C9.  [init] on a Worker whose [initialized] flag is set returns at
    once: no event is produced (no directory, browser, tab, handler or
    navigation) and the Worker is unchanged.  A call of [init] that returns
    normally leaves the flag set, so that every later call is such a
    no-op. *)
Theorem init_is_idempotent :
  forall (S : Type) (registry : Worker.Registry S) (env : Worker.InitEnv)
         (sharedBrowser : option Worker.Browser) (w : Worker.t),
    (Worker.initialized w = true ->
     Worker.init registry env sharedBrowser w = (None, w, []))
    /\ (forall sharedBrowser',
          let first := Worker.init registry env sharedBrowser w in
          first.1.1 = None ->
          Worker.init registry env sharedBrowser' first.1.2 = (None, first.1.2, [])).
Proof.
  intros S registry env sharedBrowser w.
  assert (Hnoop : forall sb w0, Worker.initialized w0 = true ->
                                Worker.init registry env sb w0 = (None, w0, [])).
  { intros sb w0 H. unfold Worker.init. by rewrite H. }
  split; [apply Hnoop|].
  intros sb'. cbv zeta. intros Hok. apply Hnoop.
  unfold Worker.init in *. destruct (Worker.initialized w) eqn:Hi; [done|].
  destruct (match sharedBrowser with Some b => _ | None => _ end) as [[thrown w1] evs].
  destruct thrown; [discriminate|]. done.
Qed.

Lemma init_is_idempotent_witness :
  let w := (Worker.init Examples.oneUp Examples.healthy None Examples.singleWorker).1.2 in
  Worker.initialized w = true
  /\ Worker.init Examples.oneUp Examples.healthy None w = (None, w, []).
Proof.
  cbv zeta. split; [reflexivity|].
  apply (init_is_idempotent unit Examples.oneUp Examples.healthy None). reflexivity.
Defined.

(** ** Response writers *)

Section WriterFacts.

Import Respond.

Variable stringify : Json -> string.

(** Without the guard a late write would raise. *)
Lemma write_after_end res chunk :
  writableEnded res = true ->
  write res chunk = (Some "ERR_STREAM_WRITE_AFTER_END"%string, res).
Proof. intros H. unfold write. by rewrite H. Qed.

(** On an open response the writers do write. *)
Lemma sendSse_open res payload :
  writableEnded res = false ->
  (sendSse stringify res payload).1 = None
  /\ body (sendSse stringify res payload).2
     = body res ++ ["data: " +:+ stringify payload +:+ LF +:+ LF].
Proof. intros H. unfold sendSse, write. by rewrite !H. Qed.

Lemma sendSseDone_open res :
  writableEnded res = false ->
  (sendSseDone res).1 = None
  /\ writableEnded (sendSseDone res).2 = true
  /\ body (sendSseDone res).2 = body res ++ ["data: [DONE]" +:+ LF +:+ LF].
Proof.
  intros H. unfold sendSseDone, end_, write. rewrite !H. simpl.
  by rewrite app_nil_r.
Qed.

Lemma sendJson_open res status payload :
  writableEnded res = false -> headersSent res = false ->
  sendJson stringify res status payload
  = (None, {| writableEnded := true; headersSent := true; statusCode := status;
              headers := [("Content-Type", "application/json")]%string;
              body := body res ++ [stringify payload] |}).
Proof. intros H1 H2. unfold sendJson, writeHead, end_. by rewrite H1, H2. Qed.

(** Once the terminator is out, a late heartbeat or frame changes nothing. *)
Lemma nothing_after_done res now mode modelName payload :
  let done := (sendSseDone res).2 in
  (sendSseDone res).1 = None ->
  sendHeartbeat stringify now done mode modelName = (None, done)
  /\ sendSse stringify done payload = (None, done).
Proof.
  cbv zeta. intros Hok.
  assert (Hended : writableEnded (sendSseDone res).2 = true).
  { unfold sendSseDone in *. destruct (writableEnded res) eqn:H; [done|].
    unfold end_, write in *. by rewrite !H. }
  unfold sendHeartbeat, sendSse. by rewrite Hended.
Qed.

End WriterFacts.

(** C7.  On a response whose writable side has ended, [sendJson],
    [sendSse], [sendSseDone] and [sendHeartbeat] (in either mode) return
    without an error, write nothing and leave the response as it is. *)
Theorem writes_after_end_are_noops :
  forall (stringify : Respond.Json -> string) (res : Respond.Response),
    Respond.writableEnded res = true ->
    (forall status payload,
        Respond.sendJson stringify res status payload = (None, res))
    /\ (forall payload, Respond.sendSse stringify res payload = (None, res))
    /\ Respond.sendSseDone res = (None, res)
    /\ (forall now mode modelName,
          Respond.sendHeartbeat stringify now res mode modelName = (None, res)).
Proof.
  intros stringify res Hended.
  unfold Respond.sendJson, Respond.sendSse, Respond.sendSseDone, Respond.sendHeartbeat.
  rewrite Hended. repeat split.
Qed.

Lemma writes_after_end_are_noops_witness :
  Respond.writableEnded Examples.endedResponse = true
  /\ Respond.sendHeartbeat Examples.showJson 1700000000000 Examples.endedResponse
       "content" (Some "m"%string)
     = (None, Examples.endedResponse).
Proof.
  split; [reflexivity|].
  apply (writes_after_end_are_noops Examples.showJson Examples.endedResponse).
  reflexivity.
Defined.

(** ** Proxy resolution *)

(** C10.  An instance proxy block whose [enable] is neither [true] nor
    [false] resolves like an absent block, that is to the global proxy when
    that one is enabled and to a direct connection otherwise.  [enable:
    false] gives a direct connection and [enable: true] the instance block;
    the instance block is the result only when its [enable] is [true], and
    a direct connection whatever the global proxy only when it is
    [false]. *)
Theorem proxy_enable_must_be_explicit :
  forall (globalProxy : option Config.Proxy) (inst : Config.Proxy),
    (Config.enable inst <> Config.VBool true ->
     Config.enable inst <> Config.VBool false ->
     Config.resolveProxyConfig globalProxy (Some inst)
     = Config.resolveProxyConfig globalProxy None)
    /\ Config.resolveProxyConfig globalProxy None
       = match globalProxy with
         | Some g => if Config.isTrue (Config.enable g) then Some g else None
         | None => None
         end
    /\ (Config.enable inst = Config.VBool false ->
        Config.resolveProxyConfig globalProxy (Some inst) = None)
    /\ (Config.enable inst = Config.VBool true ->
        Config.resolveProxyConfig globalProxy (Some inst) = Some inst)
    /\ (Config.resolveProxyConfig globalProxy (Some inst) = Some inst ->
        Config.enable inst = Config.VBool true)
    /\ ((forall g, Config.resolveProxyConfig g (Some inst) = None) ->
        Config.enable inst = Config.VBool false).
Proof.
  intros globalProxy inst. unfold Config.resolveProxyConfig. simpl.
  repeat split.
  - intros Ht Hf. by destruct (Config.enable inst) as [| |[|]| |].
  - by destruct globalProxy.
  - by intros ->.
  - by intros ->.
  - destruct (Config.enable inst) as [| |[|]| |] eqn:He; simpl; try done;
      destruct globalProxy as [g|]; try done; simpl;
      destruct (Config.isTrue (Config.enable g)) eqn:Hg; try done;
      intros [= ->]; rewrite He in Hg; done.
  - intros Hall.
    specialize (Hall (Some Examples.globalProxy)). simpl in Hall.
    by destruct (Config.enable inst) as [| |[|]| |].
Qed.

Lemma proxy_enable_must_be_explicit_witness :
  Config.resolveProxyConfig (Some Examples.globalProxy)
    (Some Examples.instanceProxyNoEnable)
  = Some Examples.globalProxy.
Proof.
  destruct (proxy_enable_must_be_explicit (Some Examples.globalProxy)
              Examples.instanceProxyNoEnable) as [H _].
  rewrite H; [reflexivity|discriminate|discriminate].
Defined.

(** ** Image policy of a merge Worker *)

Section ImagePolicyFacts.

Import Worker.

Context {S : Type}.
Variable registry : Registry S.

Lemma collectPolicy_fold modelKey policy (types : list string) :
  forall acc : gset string,
    policy ∈ fold_left (collectPolicy registry modelKey) types acc
    <-> policy ∈ acc
        \/ exists ty, ty ∈ types
                      /\ reg_supportsModel registry ty modelKey = true
                      /\ reg_getImagePolicy registry ty modelKey = policy.
Proof.
  induction types as [|ty types IH]; intros acc; simpl.
  - split; [by left|]. intros [?|(ty & Hin & _)]; [done|].
    by apply elem_of_nil in Hin.
  - rewrite IH. unfold collectPolicy.
    destruct (reg_supportsModel registry ty modelKey) eqn:Hs.
    + rewrite elem_of_union, elem_of_singleton. split.
      * intros [[->|?]|(ty' & Hin & ? & ?)].
        -- right. exists ty. split; [by left|done].
        -- by left.
        -- right. exists ty'. split; [by right|done].
      * intros [?|(ty' & Hin & Hs' & Hp)]; [by left; right|].
        apply elem_of_cons in Hin as [->|Hin].
        -- left. left. done.
        -- right. by exists ty'.
    + split.
      * intros [?|(ty' & Hin & ? & ?)]; [by left|].
        right. exists ty'. split; [by right|done].
      * intros [?|(ty' & Hin & Hs' & Hp)]; [by left|].
        apply elem_of_cons in Hin as [->|Hin]; [congruence|].
        right. by exists ty'.
Qed.

Lemma policies_reported w modelKey policy :
  policy ∈ fold_left (collectPolicy registry modelKey) (mergeTypes w) (∅ : gset string)
  <-> reported registry w modelKey policy.
Proof.
  rewrite collectPolicy_fold. unfold reported. split; [|by right].
  intros [H|H]; [|done]. by apply elem_of_empty in H.
Qed.

Lemma getImagePolicy_unqualified w modelKey :
  isMerge w = true -> JS.includes "/" modelKey = false ->
  getImagePolicy registry w modelKey
  = lenient (fold_left (collectPolicy registry modelKey) (mergeTypes w) ∅).
Proof. intros Hm Hk. unfold getImagePolicy. by rewrite Hm, Hk. Qed.

End ImagePolicyFacts.

(** C5, as stated, fails: when no member supports the model, the policy
    set is empty and the answer is [optional], not [forbidden]. *)
Lemma image_policy_of_unsupported_model_is_optional :
  let w := Examples.mergeWorker ["a"; "b"]%string None in
  (forall ty, ty ∈ Worker.mergeTypes w ->
              Worker.reg_supportsModel Examples.twoMembers ty "unknown" = false)
  /\ Worker.getImagePolicy Examples.twoMembers w "unknown" = "optional"%string
  /\ Worker.getImagePolicy Examples.twoMembers w "unknown" <> "forbidden"%string.
Proof.
  cbv zeta. split; [|split].
  - intros ty Hin. vm_compute in Hin.
    apply elem_of_cons in Hin as [->|Hin]; [reflexivity|].
    apply elem_of_cons in Hin as [->|Hin]; [reflexivity|].
    by apply elem_of_nil in Hin.
  - reflexivity.
  - discriminate.
Qed.

(** C5 (amended).  For a merge Worker and a model key without [/]:
    [optional] if some supporting member reports [optional]; otherwise
    [required] if one reports [required]; otherwise [forbidden] if one
    reports [forbidden]; otherwise (no supporting member, or none with one
    of these three answers) [optional]. *)
Theorem merge_image_policy_is_lenient :
  forall (S : Type) (registry : Worker.Registry S) (w : Worker.t) (modelKey : string),
    Worker.isMerge w = true ->
    JS.includes "/" modelKey = false ->
    let says := Worker.reported registry w modelKey in
    let policy := Worker.getImagePolicy registry w modelKey in
    (says "optional"%string -> policy = "optional"%string)
    /\ (~ says "optional"%string -> says "required"%string ->
        policy = "required"%string)
    /\ (~ says "optional"%string -> ~ says "required"%string ->
        says "forbidden"%string -> policy = "forbidden"%string)
    /\ (~ says "optional"%string -> ~ says "required"%string ->
        ~ says "forbidden"%string -> policy = "optional"%string).
Proof.
  intros S registry w modelKey Hm Hk. cbv zeta.
  rewrite (getImagePolicy_unqualified registry w modelKey Hm Hk).
  set (policies := fold_left _ _ _).
  assert (Hiff : forall p, Worker.reported registry w modelKey p <-> p ∈ policies).
  { intros p. symmetry. apply policies_reported. }
  rewrite !Hiff. unfold Worker.lenient.
  repeat split; intros; repeat case_bool_decide; done.
Qed.

Lemma merge_image_policy_is_lenient_witness :
  let w := Examples.mergeWorker ["a"; "b"]%string None in
  Worker.getImagePolicy Examples.twoMembers w "shared" = "required"%string.
Proof.
  cbv zeta.
  destruct (merge_image_policy_is_lenient unit Examples.twoMembers
              (Examples.mergeWorker ["a"; "b"]%string None) "shared"
              eq_refl eq_refl) as (_ & Hreq & _).
  apply Hreq.
  - intros (ty & Hin & _ & Hp). vm_compute in Hin.
    apply elem_of_cons in Hin as [->|Hin]; [discriminate|].
    apply elem_of_cons in Hin as [->|Hin]; [discriminate|].
    by apply elem_of_nil in Hin.
  - exists "b"%string. split; [|split]; [|reflexivity|reflexivity].
    vm_compute. apply list_elem_of_further, list_elem_of_here.
Defined.

(** ** Routing of qualified model keys *)

Section RoutingFacts.

Import Worker.

Context {S : Type}.
Variable registry : Registry S.

Lemma split_two_includes modelKey a b :
  JS.split_limit "/" 2 modelKey = [a; b] -> JS.includes "/" modelKey = true.
Proof.
  intros Hs. destruct (JS.includes "/" modelKey) eqn:Hi; [done|].
  unfold JS.split_limit in Hs. by rewrite (no_slash_split _ _ Hi) in Hs.
Qed.

Lemma existsb_none (f : string -> bool) (l : list string) :
  (forall x, x ∈ l -> f x = false) -> existsb f l = false.
Proof.
  induction l as [|x l IH]; intros H; [done|]. simpl.
  rewrite (H x) by apply list_elem_of_here. simpl.
  apply IH. intros y Hy. apply H. by apply list_elem_of_further.
Qed.

(** The candidate list of a qualified key: the named member or nothing. *)
Lemma getCandidateTypes_qualified w modelKey specifiedType actualModel :
  JS.split_limit "/" 2 modelKey = [specifiedType; actualModel] ->
  _getCandidateTypes registry w modelKey
  = if arrayIncludes (mergeTypes w) specifiedType
       && reg_supportsModel registry specifiedType actualModel
    then [(specifiedType, actualModel)] else [].
Proof.
  intros Hs. unfold _getCandidateTypes.
  by rewrite (split_two_includes _ _ _ Hs), Hs.
Qed.

Lemma generate_qualified w req modelKey s specifiedType actualModel :
  isMerge w = true ->
  JS.split_limit "/" 2 modelKey = [specifiedType; actualModel] ->
  failoverEnabled w = true
  \/ (forall ty, ty ∈ mergeTypes w -> reg_supportsModel registry ty modelKey = false) ->
  let run := generate registry w req modelKey s in
  let named :=
    arrayIncludes (mergeTypes w) specifiedType
    && reg_supportsModel registry specifiedType actualModel in
  (forall c, c ∈ invocations run.2 -> c = (specifiedType, actualModel))
  /\ (named = false ->
      run.1.1.1 = Returned (unsupported w modelKey) /\ run.2 = []).
Proof.
  intros Hm Hs Hcase. cbv zeta. unfold generate. rewrite Hm. simpl andb.
  pose proof (getCandidateTypes_qualified w modelKey _ _ Hs) as Hc.
  destruct (failoverEnabled w) eqn:Hen.
  - (* through the failover loop *)
    destruct (arrayIncludes _ _ && _) eqn:Hnamed.
    + split; [|done]. intros c Hin.
      assert (Hne : _getCandidateTypes registry w modelKey <> []) by (by rewrite Hc).
      destruct (generateWithFailover_shape registry w req modelKey
                  (failoverConfigOf w) s Hne) as (_ & Hsub & _).
      apply Hsub in Hin. rewrite Hc in Hin.
      by apply list_elem_of_singleton in Hin.
    + unfold _generateWithFailover. rewrite Hc. split; [|done].
      intros c Hin. by apply elem_of_nil in Hin.
  - (* straight to the adapter *)
    destruct Hcase as [?|Hraw]; [done|].
    unfold supports, _getAdapterType. rewrite Hm.
    rewrite (existsb_none _ _ Hraw).
    rewrite (split_two_includes _ _ _ Hs), Hs.
    destruct (arrayIncludes (mergeTypes w) specifiedType) eqn:Hin; simpl.
    + destruct (reg_supportsModel registry specifiedType actualModel); simpl.
      * split; [|done]. intros c Hc'.
        destruct (executeAdapter_spec registry w specifiedType actualModel req s)
          as (_ & _ & [Hi|Hi]); rewrite Hi in Hc'.
        -- by apply elem_of_nil in Hc'.
        -- by apply list_elem_of_singleton in Hc'.
      * split; [|done]. intros c Hc'. by apply elem_of_nil in Hc'.
    + split; [|done]. intros c Hc'. by apply elem_of_nil in Hc'.
Qed.

End RoutingFacts.

(** C6 (defect in the code).  A merge Worker whose only member [a] lists
    the model id [x/y], and the key [x/y]: it names the adapter type [x],
    which knows [y] but is not a member.  With failover disabled [supports] accepts
    the key through [a], [_getAdapterType] falls back to the first member
    because [x] is not one, and adapter [a] is called, with the id [y] it
    does not list: the request is answered by a member that was not
    named.  With failover enabled the same Worker rejects the same key
    without calling any adapter, as its candidate list is empty. *)
Theorem qualified_key_falls_back_to_first_member :
  let off := Examples.mergeWorker ["a"]%string (Some Examples.failoverOff) in
  let on := Examples.mergeWorker ["a"]%string None in
  let run := Worker.generate Examples.slashId off Examples.aRequest "x/y" tt in
  let run' := Worker.generate Examples.slashId on Examples.aRequest "x/y" tt in
  JS.split_limit "/" 2 "x/y" = ["x"; "y"]%string
  /\ Worker.isMerge off = true
  /\ Worker.arrayIncludes (Worker.mergeTypes off) "x" = false
  /\ Worker.reg_supportsModel Examples.slashId "a" "y" = false
  /\ Worker.failoverEnabled off = false
  /\ Worker.supports Examples.slashId off "x/y" = true
  /\ Worker._getAdapterType Examples.slashId off "x/y" = Some "a"%string
  /\ Worker.invocations run.2 = [("a", "y")]%string
  /\ run.1.1.1 = Returned (Examples.ok "from a")
  /\ Worker.failoverEnabled on = true
  /\ Worker._getCandidateTypes Examples.slashId on "x/y" = []
  /\ run'.1.1.1 = Returned (Worker.unsupported on "x/y")
  /\ Worker.invocations run'.2 = [].
Proof. vm_compute. repeat split. Qed.

(** ** The model listing *)

Section ListingFacts.

Import Worker.

Context {S : Type}.
Variable registry : Registry S.

Lemma fold_push {A B : Type} (f : A -> B) (data : list A) :
  forall acc, fold_left (fun acc m => acc ++ [f m]) data acc = acc ++ map f data.
Proof.
  induction data as [|m data IH]; intros acc; simpl.
  - by rewrite app_nil_r.
  - rewrite IH. by rewrite <- app_assoc.
Qed.

Lemma fold_collectQualified (types : list string) :
  forall acc,
    fold_left (collectQualified registry) types acc
    = acc ++ qualifiedSection registry types.
Proof.
  unfold qualifiedSection.
  induction types as [|ty types IH]; intros acc; simpl.
  - by rewrite app_nil_r.
  - rewrite IH. unfold collectQualified, modelsOf.
    destruct (reg_getModelsForAdapter registry ty) as [data|]; simpl.
    + rewrite fold_push. by rewrite <- app_assoc.
    + done.
Qed.

Lemma pushUnseen_inv (P : Model -> Prop) st m :
  P m -> BareInv P st ->
  BareInv P (pushUnseen st m)
  /\ (forall x, x ∈ m_id <$> st.2 -> x ∈ m_id <$> (pushUnseen st m).2)
  /\ m_id m ∈ m_id <$> (pushUnseen st m).2.
Proof.
  intros HP (Hseen & Hnd & Hsrc). destruct st as [seen acc]. simpl in *.
  unfold pushUnseen. case_bool_decide as Hin; simpl.
  - split; [done|]. split; [done|]. by apply Hseen.
  - assert (Hfresh : m_id m ∉ m_id <$> acc) by (by rewrite <- Hseen).
    split; [split; [|split]|split].
    + intros x. simpl.
      rewrite elem_of_union, elem_of_singleton, fmap_app, elem_of_app.
      simpl. rewrite list_elem_of_singleton, Hseen. tauto.
    + simpl. rewrite fmap_app. apply NoDup_app. split; [done|]. split.
      * intros x Hx Hx'. simpl in Hx'. apply list_elem_of_singleton in Hx' as ->. done.
      * simpl. apply NoDup_singleton.
    + intros e He. apply elem_of_app in He as [He|He]; [by apply Hsrc|].
      apply list_elem_of_singleton in He as ->. by exists m.
    + intros x Hx. simpl. rewrite fmap_app, elem_of_app. by left.
    + simpl. rewrite fmap_app, elem_of_app. right. simpl. apply list_elem_of_here.
Qed.

Lemma fold_pushUnseen_inv (P : Model -> Prop) (data : list Model) :
  (forall m, m ∈ data -> P m) ->
  forall st, BareInv P st ->
    BareInv P (fold_left pushUnseen data st)
    /\ (forall x, x ∈ m_id <$> st.2 -> x ∈ m_id <$> (fold_left pushUnseen data st).2)
    /\ (forall m, m ∈ data -> m_id m ∈ m_id <$> (fold_left pushUnseen data st).2).
Proof.
  induction data as [|m data IH]; intros HP st Hinv; simpl.
  - split; [done|]. split; [done|]. intros m Hm. by apply elem_of_nil in Hm.
  - destruct (pushUnseen_inv P st m) as (Hinv' & Hmono & Hm);
      [apply HP, list_elem_of_here|done|].
    destruct (IH (fun m' Hm' => HP m' (list_elem_of_further _ _ _ Hm'))
                 (pushUnseen st m) Hinv') as (Hinv'' & Hmono' & Hall).
    split; [done|]. split; [by intros x Hx; apply Hmono', Hmono|].
    intros m' Hm'. apply elem_of_cons in Hm' as [->|Hm']; [by apply Hmono'|].
    by apply Hall.
Qed.

Lemma fold_collectBare_inv (types tys : list string) :
  let P := fun m => exists ty, ty ∈ types /\ m ∈ modelsOf registry ty in
  (forall ty, ty ∈ tys -> ty ∈ types) ->
  forall st, BareInv P st ->
    BareInv P (fold_left (collectBare registry) tys st)
    /\ (forall x, x ∈ m_id <$> st.2 ->
                  x ∈ m_id <$> (fold_left (collectBare registry) tys st).2)
    /\ (forall ty m, ty ∈ tys -> m ∈ modelsOf registry ty ->
                     m_id m ∈ m_id <$> (fold_left (collectBare registry) tys st).2).
Proof.
  intros P. induction tys as [|ty tys IH]; intros Hsub st Hinv; simpl.
  - split; [done|]. split; [done|]. intros ty m Hty. by apply elem_of_nil in Hty.
  - assert (Hstep : BareInv P (collectBare registry st ty)
                    /\ (forall x, x ∈ m_id <$> st.2 ->
                                  x ∈ m_id <$> (collectBare registry st ty).2)
                    /\ (forall m, m ∈ modelsOf registry ty ->
                                  m_id m ∈ m_id <$> (collectBare registry st ty).2)).
    { unfold collectBare, modelsOf.
      destruct (reg_getModelsForAdapter registry ty) as [data|] eqn:Hd; simpl.
      - apply fold_pushUnseen_inv; [|done]. intros m Hm. exists ty.
        split; [apply Hsub, list_elem_of_here|]. unfold modelsOf. by rewrite Hd.
      - split; [done|]. split; [done|]. intros m Hm. by apply elem_of_nil in Hm. }
    destruct Hstep as (Hinv' & Hmono & Hhere).
    destruct (IH (fun t Ht => Hsub t (list_elem_of_further _ _ _ Ht)) _ Hinv')
      as (Hinv'' & Hmono' & Hall).
    split; [done|]. split; [by intros x Hx; apply Hmono', Hmono|].
    intros ty' m Hty Hm. apply elem_of_cons in Hty as [->|Hty].
    + by apply Hmono', Hhere.
    + by eapply Hall.
Qed.

Lemma filter_none {A : Type} (P : A -> Prop) `{!forall x, Decision (P x)}
    (l : list A) :
  (forall x, x ∈ l -> ~ P x) -> filter P l = [].
Proof.
  induction l as [|a l IH]; intros Hno; [done|].
  rewrite filter_cons_False by apply Hno, list_elem_of_here.
  apply IH. intros x Hx. by apply Hno, list_elem_of_further.
Qed.

(** An id that occurs once among the ids of [l] selects one entry. *)
Lemma one_entry_per_id (l : list Model) (x : string) :
  NoDup (m_id <$> l) -> x ∈ m_id <$> l ->
  length (filter (fun e => m_id e = x) l) = 1%nat.
Proof.
  induction l as [|e l IH]; simpl; intros Hnd Hin.
  - by apply elem_of_nil in Hin.
  - apply NoDup_cons in Hnd as [Hfresh Hnd].
    rewrite filter_cons. case_decide as He.
    + simpl. f_equal. rewrite filter_none; [done|]. intros e' He' Heq.
      apply Hfresh. rewrite He, <- Heq. by apply list_elem_of_fmap_2.
    + apply IH; [done|]. by apply elem_of_cons in Hin as [?|?].
Qed.

Lemma qualified_id_inj ty (a b : string) :
  ty +:+ "/" +:+ a = ty +:+ "/" +:+ b -> a = b.
Proof. intros H. by do 2 apply append_inj_l in H. Qed.

Lemma qualifiedSection_cons ty types :
  qualifiedSection registry (ty :: types)
  = map (qualified ty) (modelsOf registry ty) ++ qualifiedSection registry types.
Proof. done. Qed.

Lemma qualifiedSection_source types e :
  e ∈ qualifiedSection registry types ->
  exists ty m, ty ∈ types /\ m ∈ modelsOf registry ty /\ e = qualified ty m.
Proof.
  induction types as [|ty types IH]; intros He.
  - by apply elem_of_nil in He.
  - rewrite qualifiedSection_cons in He. apply elem_of_app in He as [He|He].
    + apply list_elem_of_fmap in He as (m & -> & Hm).
      exists ty, m. split; [apply list_elem_of_here|done].
    + destruct (IH He) as (ty' & m & Hty & Hm & ->).
      exists ty', m. split; [by apply list_elem_of_further|done].
Qed.

(** Among the qualified copies of one adapter's models. *)
Lemma one_qualified_entry ty (ms : list Model) (m : Model) :
  NoDup (m_id <$> ms) -> m ∈ ms ->
  length (filter (fun e => m_owned_by e = ty /\ m_id e = ty +:+ "/" +:+ m_id m)
                 (map (qualified ty) ms)) = 1%nat.
Proof.
  induction ms as [|m0 ms IH]; intros Hnd Hin.
  - by apply elem_of_nil in Hin.
  - simpl in Hnd. apply NoDup_cons in Hnd as [Hfresh Hnd]. simpl map.
    destruct (decide (m_id m0 = m_id m)) as [Heq|Hne].
    + rewrite filter_cons_True by (simpl; by rewrite Heq).
      simpl. f_equal. rewrite filter_none; [done|].
      intros e He [_ Hid]. apply list_elem_of_fmap in He as (m' & -> & Hm').
      simpl in Hid. apply qualified_id_inj in Hid.
      apply Hfresh. rewrite Heq, <- Hid. by apply list_elem_of_fmap_2.
    + rewrite filter_cons_False.
      * apply IH; [done|]. apply elem_of_cons in Hin as [->|?]; done.
      * simpl. intros [_ Hid]. by apply qualified_id_inj in Hid.
Qed.

Lemma one_qualified_entry_overall types ty m :
  NoDup types ->
  (forall ty', ty' ∈ types -> NoDup (m_id <$> modelsOf registry ty')) ->
  ty ∈ types -> m ∈ modelsOf registry ty ->
  length (filter (fun e => m_owned_by e = ty /\ m_id e = ty +:+ "/" +:+ m_id m)
                 (qualifiedSection registry types)) = 1%nat.
Proof.
  induction types as [|ty0 types IH]; intros Hnd Hids Hty Hm.
  - by apply elem_of_nil in Hty.
  - apply NoDup_cons in Hnd as [Hfresh Hnd].
    rewrite qualifiedSection_cons, filter_app, length_app.
    destruct (decide (ty0 = ty)) as [->|Hne].
    + rewrite one_qualified_entry; [|apply Hids, list_elem_of_here|done].
      rewrite (filter_none _ (qualifiedSection registry types)); [done|].
      intros e He [Hown _].
      apply qualifiedSection_source in He as (ty' & m' & Hty' & _ & ->).
      simpl in Hown. by subst.
    + rewrite (filter_none _ (map _ _)).
      * simpl. apply IH; [done| |by apply elem_of_cons in Hty as [?|?]|done].
        intros ty' Hty'. by apply Hids, list_elem_of_further.
      * intros e He [Hown _]. apply list_elem_of_fmap in He as (m' & -> & _).
        done.
Qed.

Lemma bare_ids (ms : list Model) : m_id <$> (bare <$> ms) = m_id <$> ms.
Proof. induction ms as [|m ms IH]; [done|]. rewrite !fmap_cons, IH. done. Qed.

(** The listing: a bare section followed by the qualified section. *)
Lemma getModels_sections w :
  exists bareSec,
    getModels registry w = bareSec ++ qualifiedSection registry (listedTypes w)
    /\ (forall e, e ∈ bareSec ->
                  exists ty m, ty ∈ listedTypes w /\ m ∈ modelsOf registry ty
                               /\ e = bare m)
    /\ ((forall ty, ty ∈ listedTypes w -> NoDup (m_id <$> modelsOf registry ty)) ->
        NoDup (m_id <$> bareSec))
    /\ (forall ty m, ty ∈ listedTypes w -> m ∈ modelsOf registry ty ->
                     m_id m ∈ m_id <$> bareSec).
Proof.
  unfold getModels, listedTypes. destruct (isMerge w).
  - pose proof (fold_collectBare_inv (mergeTypes w) (mergeTypes w)
                  (fun _ H => H) (∅, [])) as Hfold.
    cbv zeta in Hfold.
    destruct (fold_left (collectBare registry) (mergeTypes w) (∅, []))
      as [seen bareSec].
    destruct Hfold as ((_ & Hnd & Hsrc) & _ & Hall).
    { split; [|split].
      - intros x. simpl. split; intros H; [by apply elem_of_empty in H|].
        by apply elem_of_nil in H.
      - simpl. apply NoDup_nil_2.
      - intros e He. by apply elem_of_nil in He. }
    exists bareSec. split; [apply fold_collectQualified|].
    split; [|split; [done|done]].
    intros e He. destruct (Hsrc e He) as (m & (ty & Hty & Hm) & ->).
    by exists ty, m.
  - exists (map bare (modelsOf registry (type w))).
    fold (modelsOf registry (type w)). rewrite !fold_push. simpl.
    unfold qualifiedSection. simpl. rewrite app_nil_r.
    split; [done|]. split; [|split].
    + intros e He. apply list_elem_of_fmap in He as (m & -> & Hm).
      exists (type w), m. split; [apply list_elem_of_here|done].
    + intros Hids. rewrite bare_ids. apply Hids, list_elem_of_here.
    + intros ty m Hty Hm. apply list_elem_of_singleton in Hty as ->.
      rewrite bare_ids. by apply list_elem_of_fmap_2.
Qed.

End ListingFacts.

(** C8, as stated, fails for a merge Worker whose members list the same
    id: [shared] is listed by [a] and by [b], and the listing has three
    entries for it, one bare and two qualified. *)
Lemma shared_model_is_listed_three_times :
  let w := Examples.mergeWorker ["a"; "b"]%string None in
  let listing := Worker.getModels Examples.twoMembers w in
  listing = [Worker.mkModel "shared" "model" 0 "internal_server";
             Worker.mkModel "a/shared" "model" 0 "a";
             Worker.mkModel "b/shared" "model" 0 "b"]
  /\ length (filter (fun e => Worker.listedFor (Worker.mergeTypes w) "shared" e = true)
                    listing) = 3%nat.
Proof. vm_compute. split; reflexivity. Qed.

(** C8 (amended).  A listing is a section of bare entries followed by the
    qualified entries of every listed adapter type in turn.  Every bare
    entry is owned by [internal_server] and copies a registered model.
    When no adapter type is configured twice and no adapter lists an id
    twice, every registered id has exactly one bare entry, and exactly one
    entry [<adapterType>/<id>] owned by [adapterType] for each adapter type
    that lists it: an id listed by k members of a merge Worker appears
    k + 1 times. *)
Theorem model_listing_entries :
  forall (S : Type) (registry : Worker.Registry S) (w : Worker.t),
    let types := Worker.listedTypes w in
    let qualSec := Worker.qualifiedSection registry types in
    exists bareSec,
      Worker.getModels registry w = bareSec ++ qualSec
      /\ (forall e, e ∈ bareSec ->
                   Worker.m_owned_by e = "internal_server"%string
                   /\ exists ty m, ty ∈ types /\ m ∈ Worker.modelsOf registry ty
                                   /\ e = Worker.bare m)
      /\ (NoDup types ->
          (forall ty, ty ∈ types ->
                      NoDup (Worker.m_id <$> Worker.modelsOf registry ty)) ->
          forall ty m,
            ty ∈ types -> m ∈ Worker.modelsOf registry ty ->
            length (filter (fun e => Worker.m_id e = Worker.m_id m) bareSec) = 1%nat
            /\ length (filter (fun e => Worker.m_owned_by e = ty
                                       /\ Worker.m_id e = ty +:+ "/" +:+ Worker.m_id m)
                              qualSec) = 1%nat).
Proof.
  intros S registry w. cbv zeta.
  destruct (getModels_sections registry w) as (bareSec & Heq & Hsrc & Hnd & Hall).
  exists bareSec. split; [done|]. split.
  - intros e He. destruct (Hsrc e He) as (ty & m & Hty & Hm & ->).
    split; [done|]. by exists ty, m.
  - intros Htypes Hids ty m Hty Hm. split.
    + apply one_entry_per_id; [by apply Hnd|by eapply Hall].
    + by apply one_qualified_entry_overall.
Qed.

Lemma model_listing_entries_witness :
  let w := Examples.mergeWorker ["a"; "b"]%string None in
  exists bareSec,
    Worker.getModels Examples.twoMembers w
    = bareSec ++ Worker.qualifiedSection Examples.twoMembers ["a"; "b"]%string
    /\ length (filter (fun e => Worker.m_id e = "shared"%string) bareSec) = 1%nat
    /\ length (filter (fun e => Worker.m_owned_by e = "b"%string
                               /\ Worker.m_id e = "b/shared"%string)
                      (Worker.qualifiedSection Examples.twoMembers ["a"; "b"]%string))
       = 1%nat.
Proof.
  cbv zeta.
  destruct (model_listing_entries unit Examples.twoMembers
              (Examples.mergeWorker ["a"; "b"]%string None))
    as (bareSec & Heq & _ & Hcount).
  exists bareSec. split; [exact Heq|].
  assert (Htypes : NoDup (Worker.listedTypes
                            (Examples.mergeWorker ["a"; "b"]%string None))).
  { vm_compute. apply NoDup_cons. split; [|apply NoDup_singleton].
    intros Hin. by apply list_elem_of_singleton in Hin. }
  assert (Hids : forall ty,
             ty ∈ Worker.listedTypes (Examples.mergeWorker ["a"; "b"]%string None) ->
             NoDup (Worker.m_id <$> Worker.modelsOf Examples.twoMembers ty)).
  { intros ty Hty. vm_compute in Hty.
    apply elem_of_cons in Hty as [->|Hty]; [vm_compute; apply NoDup_singleton|].
    apply elem_of_cons in Hty as [->|Hty]; [vm_compute; apply NoDup_singleton|].
    by apply elem_of_nil in Hty. }
  apply (Hcount Htypes Hids "b"%string (Worker.mkModel "shared" "model" 0 "b")).
  - vm_compute. apply list_elem_of_further, list_elem_of_here.
  - vm_compute. apply list_elem_of_here.
Defined.

(* ===================================================================== *)
(** * Further properties: scheduling, errors, configuration                 *)
(* ===================================================================== *)

(** ** Load-balancing strategies *)

Section StrategyFacts.

Import Strategy.

Context {A : Type}.
Variable busyCount : A -> option Z.
Variable randomOrder : list A -> list A.

#[local] Abbreviation load := (load busyCount).
#[local] Abbreviation insertByLoad := (insertByLoad busyCount).
#[local] Abbreviation sortByLoad := (sortByLoad busyCount).

Lemma insertByLoad_perm x l : insertByLoad x l ≡ₚ x :: l.
Proof.
  induction l as [|y l IH]; simpl; [done|].
  destruct (load x <=? load y); [done|].
  rewrite IH. apply Permutation_swap.
Qed.

Lemma sortByLoad_perm l : sortByLoad l ≡ₚ l.
Proof.
  induction l as [|x l IH]; simpl; [done|].
  by rewrite insertByLoad_perm, IH.
Qed.

Lemma insertByLoad_ascending x l :
  ascending busyCount l -> ascending busyCount (insertByLoad x l).
Proof.
  induction l as [|y l IH]; simpl; [done|]. intros [Hy Hs].
  destruct (load x <=? load y) eqn:E.
  - apply Z.leb_le in E. simpl. split; [|done].
    constructor; [done|]. eapply Forall_impl; [exact Hy|]. simpl. intros b Hb. lia.
  - apply Z.leb_gt in E. simpl. split; [|by apply IH].
    rewrite insertByLoad_perm. constructor; [lia|done].
Qed.

Lemma sortByLoad_ascending l : ascending busyCount (sortByLoad l).
Proof.
  induction l as [|x l IH]; simpl; [done|]. by apply insertByLoad_ascending.
Qed.

Lemma insertByLoad_class v x l :
  filter (fun a => load a = v) (insertByLoad x l)
  = filter (fun a => load a = v) (x :: l).
Proof.
  induction l as [|y l IH]; simpl; [done|].
  destruct (load x <=? load y) eqn:E; [done|]. apply Z.leb_gt in E.
  rewrite (filter_cons _ y), IH, !filter_cons.
  repeat case_decide; try done. lia.
Qed.

Lemma sortByLoad_stable v l :
  filter (fun a => load a = v) (sortByLoad l) = filter (fun a => load a = v) l.
Proof.
  induction l as [|x l IH]; simpl; [done|].
  by rewrite insertByLoad_class, !filter_cons, IH.
Qed.

Lemma head_sortByLoad l a :
  head (sortByLoad l) = Some a ->
  exists pre post,
    l = pre ++ a :: post
    /\ Forall (fun b => load a < load b) pre
    /\ Forall (fun b => load a <= load b) post.
Proof.
  revert a. induction l as [|x l IH]; intros a; simpl; [done|].
  destruct (sortByLoad l) as [|h rest] eqn:Hs.
  - assert (l = []) as ->.
    { apply Permutation_nil_r. by rewrite <- Hs, sortByLoad_perm. }
    simpl. intros [= <-]. by exists [], [].
  - destruct (IH h eq_refl) as (pre & post & -> & Hpre & Hpost).
    simpl. destruct (load x <=? load h) eqn:E; simpl; intros [= <-].
    + apply Z.leb_le in E. exists [], (pre ++ h :: post).
      split; [done|]. split; [done|].
      apply Forall_app. split.
      * eapply Forall_impl; [exact Hpre|]. simpl. intros b Hb. lia.
      * constructor; [done|].
        eapply Forall_impl; [exact Hpost|]. simpl. intros b Hb. lia.
    + apply Z.leb_gt in E. exists (x :: pre), post.
      split; [done|]. split; [|done]. by constructor.
Qed.

Lemma sort_least_busy strategy idx (cands : list A) :
  strategy <> ROUND_ROBIN -> strategy <> RANDOM ->
  sort busyCount randomOrder strategy idx cands
  = (if (length cands <=? 1)%nat then cands else sortByLoad cands, idx).
Proof.
  intros Hrr Hrand. unfold sort. destruct (length cands <=? 1)%nat; [done|].
  apply String.eqb_neq in Hrr, Hrand. by rewrite Hrr, Hrand.
Qed.

Lemma short_list_sorted (cands : list A) :
  (length cands <= 1)%nat -> sortByLoad cands = cands.
Proof. destruct cands as [|a [|b l]]; simpl; [done|done|lia]. Qed.

Lemma select_round_robin idx (cands : list A) :
  (2 <= length cands)%nat ->
  select busyCount randomOrder ROUND_ROBIN idx cands
  = (cands !! (idx mod length cands)%nat, Datatypes.S idx).
Proof.
  intros Hn. unfold select.
  destruct cands as [|a [|b l]] eqn:Hc; [simpl in Hn; lia|simpl in Hn; lia|].
  rewrite <- Hc in *. unfold sort.
  destruct (length cands <=? 1)%nat eqn:E; [apply Nat.leb_le in E; lia|].
  simpl String.eqb. cbv iota. f_equal.
  assert (Hs : (idx mod length cands < length cands)%nat)
    by (apply Nat.mod_upper_bound; lia).
  rewrite head_lookup, lookup_app_l by (rewrite length_drop; lia).
  rewrite lookup_drop. f_equal. lia.
Qed.

Lemma selectMany_round_robin (cands : list A) k :
  (2 <= length cands)%nat ->
  forall idx,
    selectMany busyCount randomOrder ROUND_ROBIN idx cands k
    = ((fun j => cands !! (j mod length cands)%nat) <$> seq idx k, (idx + k)%nat).
Proof.
  intros Hn. induction k as [|k IH]; intros idx; simpl.
  - f_equal. lia.
  - rewrite select_round_robin by done. rewrite IH. f_equal. lia.
Qed.

Lemma rotation_lookup (cands : list A) (s i : nat) :
  (s < length cands)%nat -> (i < length cands)%nat ->
  (drop s cands ++ take s cands) !! i = cands !! ((s + i) mod length cands)%nat.
Proof.
  intros Hs Hi. destruct (decide (s + i < length cands)%nat) as [Hlt|Hge].
  - rewrite Nat.mod_small by done.
    rewrite lookup_app_l by (rewrite length_drop; lia). by rewrite lookup_drop.
  - rewrite lookup_app_r by (rewrite length_drop; lia).
    rewrite length_drop, lookup_take_lt by lia.
    f_equal.
    replace (s + i)%nat with ((s + i - length cands) + 1 * length cands)%nat by lia.
    rewrite Nat.Div0.mod_add, Nat.mod_small by lia. lia.
Qed.

End StrategyFacts.

(** X1.  Under the least-busy strategy (any strategy name other than
    [round_robin] and [random]) [sort] returns the candidates rearranged
    in ascending order of [busyCount || 0], candidates of equal load keeping
    their given order, and leaves the round-robin counter alone. *)
Theorem least_busy_sort_is_stable_ascending :
  forall (A : Type) (busyCount : A -> option Z) (randomOrder : list A -> list A)
         (strategy : string) (idx : nat) (cands : list A),
    strategy <> Strategy.ROUND_ROBIN -> strategy <> Strategy.RANDOM ->
    let run := Strategy.sort busyCount randomOrder strategy idx cands in
    run.2 = idx
    /\ run.1 ≡ₚ cands
    /\ Strategy.ascending busyCount run.1
    /\ (forall v, filter (fun a => Strategy.load busyCount a = v) run.1
                  = filter (fun a => Strategy.load busyCount a = v) cands).
Proof.
  intros A busyCount randomOrder strategy idx cands Hrr Hrand. cbv zeta.
  rewrite (sort_least_busy busyCount randomOrder strategy idx cands Hrr Hrand).
  simpl. split; [done|].
  destruct (length cands <=? 1)%nat eqn:E.
  - apply Nat.leb_le in E. split; [done|]. split; [|done].
    rewrite <- (short_list_sorted busyCount cands E). apply sortByLoad_ascending.
  - split; [apply sortByLoad_perm|]. split; [apply sortByLoad_ascending|].
    intros v. apply sortByLoad_stable.
Qed.

Lemma least_busy_sort_is_stable_ascending_witness :
  (Strategy.sort StrategyExamples.workerLoad StrategyExamples.keepOrder
     "least_busy" 0
     [StrategyExamples.busy2; StrategyExamples.idle; StrategyExamples.busy1]).1
  ≡ₚ [StrategyExamples.busy2; StrategyExamples.idle; StrategyExamples.busy1].
Proof.
  apply (least_busy_sort_is_stable_ascending Worker.t StrategyExamples.workerLoad
           StrategyExamples.keepOrder "least_busy" 0
           [StrategyExamples.busy2; StrategyExamples.idle; StrategyExamples.busy1]);
    discriminate.
Defined.

(** X2.  Under the least-busy strategy [select] answers [null] exactly for
    an empty candidate list; otherwise it picks a candidate of minimal
    load, and among several of minimal load the one that comes first in
    the list. *)
Theorem least_busy_select_picks_first_minimum :
  forall (A : Type) (busyCount : A -> option Z) (randomOrder : list A -> list A)
         (strategy : string) (idx : nat) (cands : list A),
    strategy <> Strategy.ROUND_ROBIN -> strategy <> Strategy.RANDOM ->
    let picked := (Strategy.select busyCount randomOrder strategy idx cands).1 in
    (picked = None <-> cands = [])
    /\ (forall a, picked = Some a ->
          exists pre post,
            cands = pre ++ a :: post
            /\ Forall (fun b => Strategy.load busyCount a < Strategy.load busyCount b) pre
            /\ Forall (fun b => Strategy.load busyCount a <= Strategy.load busyCount b) post).
Proof.
  intros A busyCount randomOrder strategy idx cands Hrr Hrand. cbv zeta.
  assert (Hsel : (Strategy.select busyCount randomOrder strategy idx cands).1
                 = head (Strategy.sortByLoad busyCount cands)).
  { unfold Strategy.select. destruct cands as [|a [|b l]]; [done|done|].
    rewrite (sort_least_busy busyCount randomOrder strategy idx _ Hrr Hrand).
    done. }
  rewrite Hsel. split.
  - split.
    + intros Hnone. destruct (Strategy.sortByLoad busyCount cands) eqn:Hs; [|done].
      apply Permutation_nil_r. by rewrite <- Hs, sortByLoad_perm.
    + by intros ->.
  - intros a. apply head_sortByLoad.
Qed.

Lemma least_busy_select_picks_first_minimum_witness :
  (Strategy.select StrategyExamples.workerLoad StrategyExamples.keepOrder
     "least_busy" 0 [StrategyExamples.busy1; StrategyExamples.idle]).1 = None
  <-> [StrategyExamples.busy1; StrategyExamples.idle] = [].
Proof.
  apply (least_busy_select_picks_first_minimum Worker.t StrategyExamples.workerLoad
           StrategyExamples.keepOrder "least_busy" 0
           [StrategyExamples.busy1; StrategyExamples.idle]);
    discriminate.
Defined.

(** X3.  Round robin is fair: [n] successive [select] calls on the same
    list of [n >= 2] candidates pick every candidate exactly once, in list
    order starting at position [roundRobinIndex mod n], and advance the
    counter by [n]. *)
Theorem round_robin_visits_every_candidate :
  forall (A : Type) (busyCount : A -> option Z) (randomOrder : list A -> list A)
         (idx : nat) (cands : list A),
    (2 <= length cands)%nat ->
    let n := length cands in
    let start := (idx mod n)%nat in
    let run := Strategy.selectMany busyCount randomOrder Strategy.ROUND_ROBIN
                 idx cands n in
    run.1 = Some <$> (drop start cands ++ take start cands)
    /\ drop start cands ++ take start cands ≡ₚ cands
    /\ run.2 = (idx + n)%nat.
Proof.
  intros A busyCount randomOrder idx cands Hn. cbv zeta.
  rewrite (selectMany_round_robin busyCount randomOrder cands _ Hn). simpl.
  split; [|split; [|done]].
  - assert (Hs : (idx mod length cands < length cands)%nat)
      by (apply Nat.mod_upper_bound; lia).
    apply list_eq. intros i.
    rewrite !list_lookup_fmap.
    destruct (decide (i < length cands)%nat) as [Hi|Hi].
    + rewrite lookup_seq_lt by done. simpl.
      rewrite rotation_lookup by done.
      rewrite Nat.Div0.add_mod_idemp_l.
      destruct (cands !! ((idx + i) mod length cands)%nat) eqn:Hl; [done|].
      apply lookup_ge_None in Hl.
      pose proof (Nat.mod_upper_bound (idx + i) (length cands)). lia.
    + rewrite lookup_seq_ge by lia. simpl.
      rewrite lookup_ge_None_2; [done|].
      rewrite length_app, length_drop, length_take. lia.
  - rewrite Permutation_app_comm. by rewrite take_drop.
Qed.

Lemma round_robin_visits_every_candidate_witness :
  (Strategy.selectMany StrategyExamples.workerLoad StrategyExamples.keepOrder
     Strategy.ROUND_ROBIN 4
     [StrategyExamples.idle; StrategyExamples.busy1; StrategyExamples.busy2] 3).1
  = Some <$> [StrategyExamples.busy1; StrategyExamples.busy2; StrategyExamples.idle].
Proof.
  apply (round_robin_visits_every_candidate Worker.t StrategyExamples.workerLoad
           StrategyExamples.keepOrder 4
           [StrategyExamples.idle; StrategyExamples.busy1; StrategyExamples.busy2]).
  simpl. lia.
Defined.

(** ** The failover executor: callbacks and edge inputs *)

Section RetryFacts.

Import Failover FailoverCallbacks.

Context {C S : Type}.
Variable attempt : C -> S -> Outcome * S.

Lemma retriesOf_app (a b : list (@Event C)) :
  retriesOf (a ++ b) = retriesOf a ++ retriesOf b.
Proof. apply omap_app. Qed.

(** The callback calls of one iteration: none without attempts left, and
    for the candidate and number at hand otherwise. *)
Lemma afterFailure_retries norm (onRetry : @Callback C S) more c n o s :
  Forall (fun call => call.1.1 = c /\ call.2 = n /\ more = true)
         (retriesOf (afterFailure norm onRetry more c n o s).2).
Proof.
  rewrite afterFailure_cases. cbv zeta. destruct more; [|by constructor].
  destruct (onRetry c (errText o) n s).1 as [msg|].
  - destruct o as [r|m]; simpl.
    + rewrite !retriesOf_app. simpl.
      destruct (negb _ && _); simpl; by repeat constructor.
    + by repeat constructor.
  - cbn [snd]. rewrite retriesOf_app. simpl.
    destruct o; [destruct (negb _ && _)|]; simpl; by repeat constructor.
Qed.

Lemma afterFailure_retries_quiet norm (onRetry : @Callback C S) more c n o s :
  quiet onRetry ->
  retriesOf (afterFailure norm onRetry more c n o s).2
  = if more then [(c, errText o, n)] else [].
Proof.
  intros Hq. rewrite afterFailure_cases. cbv zeta. destruct more; [|done].
  rewrite (Hq c (errText o) n s). cbn [snd]. rewrite retriesOf_app. simpl.
  destruct o; [destruct (negb _ && _)|]; done.
Qed.

(** Every callback call follows a failed attempt that is not the last one
    allowed, and names its candidate and number. *)
Lemma loop_retries_follow norm (onRetry : @Callback C S) cands maxA todo :
  forall i last s,
    let run := loop norm attempt onRetry cands maxA todo i last s in
    let atts := attemptsOf run.2 in
    Forall (fun call =>
              exists j o,
                atts !! j = Some (call.1.1, o) /\ failed o = true
                /\ call.2 = Z.of_nat (i + j) + 1
                /\ Z.of_nat (i + j) < maxA - 1)
           (retriesOf run.2).
Proof.
  induction todo as [|todo IH]; intros i last s; cbv zeta; [by constructor|].
  rewrite loop_unfold. destruct (cands !! i) as [c|]; [|by constructor].
  cbv zeta. destruct (failed (attempt c s).1) eqn:Hf; [|by constructor].
  set (o := (attempt c s).1) in *. set (s1 := (attempt c s).2).
  pose proof (afterFailure_attempts norm onRetry (Z.of_nat i <? maxA - 1) c
                (Z.of_nat i + 1) o s1) as Hna.
  pose proof (afterFailure_retries norm onRetry (Z.of_nat i <? maxA - 1) c
                (Z.of_nat i + 1) o s1) as Hcalls.
  assert (Hhere :
    forall atts',
      Forall (fun call : C * string * Z =>
                exists j o',
                  ((c, o) :: atts') !! j = Some (call.1.1, o') /\ failed o' = true
                  /\ call.2 = Z.of_nat (i + j) + 1
                  /\ Z.of_nat (i + j) < maxA - 1)
             (retriesOf (afterFailure norm onRetry (Z.of_nat i <? maxA - 1) c
                           (Z.of_nat i + 1) o s1).2)).
  { intros atts'. eapply Forall_impl; [exact Hcalls|].
    intros [[c' e] n] (Hc' & Hn & Hmore). simpl in *. subst c' n.
    exists 0%nat, o. apply Z.ltb_lt in Hmore.
    rewrite Nat.add_0_r. done. }
  destruct (afterFailure norm onRetry _ _ _ _ _) as [[[err|msg] s2] evs]; simpl in *.
  - change (attemptsOf (EvAttempt c o :: evs ++ ?l))
      with ((c, o) :: attemptsOf (evs ++ l)).
    change (retriesOf (EvAttempt c o :: evs ++ ?l)) with (retriesOf (evs ++ l)).
    rewrite attemptsOf_app, retriesOf_app, Hna. simpl app.
    apply Forall_app. split; [apply Hhere|].
    eapply Forall_impl; [apply (IH (Datatypes.S i) (Some err) s2)|].
    intros call (j & o' & Hj & Hfo & Hn & Hlt).
    exists (Datatypes.S j), o'. simpl.
    replace (i + Datatypes.S j)%nat with (Datatypes.S i + j)%nat by lia. done.
  - change (attemptsOf (EvAttempt c o :: evs)) with ((c, o) :: attemptsOf evs).
    change (retriesOf (EvAttempt c o :: evs)) with (retriesOf evs).
    rewrite Hna. apply Hhere.
Qed.

Lemma loop_retries norm (onRetry : @Callback C S) cands maxA todo :
  quiet onRetry ->
  forall i last s,
    todo = O \/ Z.of_nat (i + todo) = maxA ->
    (i + todo <= length cands)%nat ->
    let run := loop norm attempt onRetry cands maxA todo i last s in
    let atts := attemptsOf run.2 in
    retriesOf run.2
    = imap (fun j => retryAfter (i + j)) (take (length atts - 1) atts).
Proof.
  intros Hq.
  induction todo as [|todo IH]; intros i last s Hsum Hlen; cbv zeta; [done|].
  destruct Hsum as [?|Hsum]; [done|].
  rewrite loop_unfold.
  destruct (lookup_lt_is_Some_2 cands i ltac:(lia)) as [c Hc]. rewrite Hc.
  cbv zeta. destruct (failed (attempt c s).1) eqn:Hf; [|done].
  set (o := (attempt c s).1) in *. set (s1 := (attempt c s).2).
  pose proof (afterFailure_attempts norm onRetry (Z.of_nat i <? maxA - 1) c
                (Z.of_nat i + 1) o s1) as Hna.
  pose proof (afterFailure_retries_quiet norm onRetry (Z.of_nat i <? maxA - 1) c
                (Z.of_nat i + 1) o s1 Hq) as Hcalls.
  pose proof (afterFailure_quiet norm onRetry (Z.of_nat i <? maxA - 1) c
                (Z.of_nat i + 1) o s1 Hq) as Hgo.
  destruct (afterFailure norm onRetry _ _ _ _ _) as [[k s2] evs]; simpl in *.
  subst k. cbn [fst snd].
  set (rest := loop norm attempt onRetry cands maxA todo (Datatypes.S i)
                 (Some (errText o)) s2).
  change (attemptsOf (EvAttempt c o :: evs ++ rest.2))
    with ((c, o) :: attemptsOf (evs ++ rest.2)).
  change (retriesOf (EvAttempt c o :: evs ++ rest.2))
    with (retriesOf (evs ++ rest.2)).
  rewrite attemptsOf_app, retriesOf_app, Hna, Hcalls. simpl app.
  replace (length ((c, o) :: attemptsOf rest.2) - 1)%nat
    with (length (attemptsOf rest.2)) by (simpl; lia).
  specialize (IH (Datatypes.S i) (Some (errText o)) s2).
  cbv zeta in IH. fold rest in IH.
  destruct todo as [|todo'].
  - (* this was the last attempt allowed *)
    assert (Hmore : (Z.of_nat i <? maxA - 1) = false) by (apply Z.ltb_ge; lia).
    rewrite Hmore. done.
  - assert (Hmore : (Z.of_nat i <? maxA - 1) = true) by (apply Z.ltb_lt; lia).
    rewrite Hmore. simpl app.
    rewrite IH by (try right; lia).
    pose proof (loop_first_attempt attempt norm onRetry cands maxA (Datatypes.S todo')
                  (Datatypes.S i) (Some (errText o)) s2 ltac:(lia) ltac:(lia)) as Hne.
    fold rest in Hne.
    destruct (attemptsOf rest.2) as [|a atts'] eqn:Hr; [done|].
    replace (length (a :: atts') - 1)%nat with (length atts') by (simpl; lia).
    change (take (length (a :: atts')) ((c, o) :: a :: atts'))
      with ((c, o) :: take (length atts') (a :: atts')).
    rewrite imap_cons. unfold retryAfter at 1. simpl fst. simpl snd.
    rewrite Nat.add_0_r. f_equal. apply imap_ext. intros j x _. simpl.
    unfold retryAfter. do 2 f_equal. lia.
Qed.

End RetryFacts.

(** X4.  Every call of [onRetry] follows a failed attempt that is not the
    last one allowed, and carries that attempt's candidate and its number
    counted from 1; there is never a call after attempt [maxAttempts].
    When the callback does not throw, as the default, it is called exactly
    once between two consecutive attempts: the calls are, in order, one
    for every attempt but the last, each with the candidate that failed,
    its error, and the attempt's number. *)
Theorem on_retry_once_between_attempts :
  forall (C S : Type) (RETRY_MAX_ATTEMPTS : Z)
         (norm : string -> Failover.Normalized)
         (attempt : C -> S -> Outcome * S)
         (opts : option Z) (onRetry : option (@Failover.Callback C S))
         (cands : list C) (s : S),
    let run := Failover.execute RETRY_MAX_ATTEMPTS norm attempt opts onRetry cands s in
    let atts := Failover.attemptsOf run.2 in
    let maxAttempts :=
      Failover.maxAttemptsOf (Failover.maxRetriesOf RETRY_MAX_ATTEMPTS opts)
                             (length cands) in
    Forall (fun call =>
              exists j o,
                atts !! j = Some (call.1.1, o) /\ failed o = true
                /\ call.2 = Z.of_nat j + 1 /\ call.2 < maxAttempts)
           (FailoverCallbacks.retriesOf run.2)
    /\ (Failover.quiet (Failover.onRetryOf onRetry) ->
        FailoverCallbacks.retriesOf run.2
        = imap FailoverCallbacks.retryAfter (take (length atts - 1) atts)).
Proof.
  intros C S RETRY norm attempt opts onRetry cands s. cbv zeta.
  unfold Failover.execute.
  destruct cands as [|c0 cs] eqn:Hc; [split; [by constructor|done]|].
  rewrite <- Hc.
  set (maxA := Failover.maxAttemptsOf _ _).
  pose proof (maxAttemptsOf_le (Failover.maxRetriesOf RETRY opts) (length cands)) as Hle.
  fold maxA in Hle. split.
  - eapply Forall_impl;
      [apply (loop_retries_follow attempt norm (Failover.onRetryOf onRetry) cands maxA
                (Z.to_nat maxA) 0 None s)|].
    intros call (j & o & Hj & Hf & Hn & Hlt). exists j, o.
    simpl in Hn, Hlt. repeat split; try done. lia.
  - intros Hq.
    apply (loop_retries attempt norm (Failover.onRetryOf onRetry) cands maxA
             (Z.to_nat maxA) Hq 0 None s).
    + destruct (decide (maxA <= 0)); [left|right]; lia.
    + lia.
Qed.

Lemma on_retry_once_between_attempts_witness :
  let run :=
    Failover.execute 2 Examples.normalizeError Examples.attemptDown None None
      ["A"; "B"; "C"]%string tt in
  let twice :=
    Failover.execute 2 Examples.normalizeError Examples.attemptDownCounting None
      (Some Examples.throwsOnce) ["A"; "B"; "C"]%string 0%nat in
  FailoverCallbacks.retriesOf run.2
  = [("A", "down: A", 1); ("B", "down: B", 2)]%string
  /\ FailoverCallbacks.retriesOf twice.2
     = [("A", "down: A", 1); ("A", "boom", 1); ("B", "down: B", 2)]%string.
Proof.
  cbv zeta. split; [|reflexivity].
  destruct (on_retry_once_between_attempts string unit 2 Examples.normalizeError
              Examples.attemptDown None None ["A"; "B"; "C"]%string tt) as [_ H].
  rewrite H; [reflexivity|]. by intros c err n s.
Defined.

(** X5.  A negative [maxRetries] makes the executor give up at once: no
    candidate is attempted, no callback is called, the state is untouched,
    and the answer is the exhaustion error with [null] as its cause. *)
Theorem negative_max_retries_attempts_nothing :
  forall (C S : Type) (RETRY_MAX_ATTEMPTS : Z)
         (norm : string -> Failover.Normalized)
         (attempt : C -> S -> Outcome * S)
         (opts : option Z) (onRetry : option (@Failover.Callback C S))
         (cands : list C) (s : S),
    cands <> [] ->
    Failover.maxRetriesOf RETRY_MAX_ATTEMPTS opts < 0 ->
    Failover.execute RETRY_MAX_ATTEMPTS norm attempt opts onRetry cands s
    = (Returned {| error := Some "所有候选都失败: null"%string;
                   code := Some "FAILOVER_EXHAUSTED"%string;
                   retryable := Some false;
                   content := None |}, s, []).
Proof.
  intros C S RETRY norm attempt opts onRetry cands s Hne Hneg.
  unfold Failover.execute.
  destruct cands as [|c0 cs]; [done|].
  unfold Failover.maxAttemptsOf.
  destruct (Failover.maxRetriesOf RETRY opts =? 0) eqn:E; [lia|].
  replace (Z.to_nat (Z.min _ _)) with O by lia. done.
Qed.

Lemma negative_max_retries_attempts_nothing_witness :
  (Failover.execute 2 Examples.normalizeError Examples.attemptABC (Some (-1))
     (Some Examples.alwaysThrows) ["C"]%string tt).1.1
  = Returned (Failover.exhausted None).
Proof.
  rewrite (negative_max_retries_attempts_nothing string unit 2
             Examples.normalizeError Examples.attemptABC (Some (-1))
             (Some Examples.alwaysThrows) ["C"]%string tt);
    [reflexivity|discriminate|simpl; lia].
Defined.

(** ** The Worker: routing and queries *)

Section RoutingMoreFacts.

Import Worker.

Context {S : Type}.
Variable registry : Registry S.

Lemma existsb_filter (f : string -> bool) (l : list string) :
  existsb f l = true <-> filter (fun x => f x = true) l <> [].
Proof.
  induction l as [|x l IH]; simpl; [done|].
  destruct (f x) eqn:E; simpl.
  - by rewrite filter_cons_True.
  - rewrite filter_cons_False by congruence. done.
Qed.

(** A key the failover path finds a candidate for is a key [supports]
    accepts. *)
Lemma candidates_supported w modelKey :
  isMerge w = true ->
  _getCandidateTypes registry w modelKey <> [] ->
  supports registry w modelKey = true.
Proof.
  intros Hm Hc. unfold supports, _getCandidateTypes in *. rewrite Hm.
  destruct (existsb _ (mergeTypes w)) eqn:He; [done|].
  destruct (JS.includes "/" modelKey).
  - destruct (JS.split_limit "/" 2 modelKey) as [|a [|b l]]; [done|done|].
    destruct (arrayIncludes (mergeTypes w) a); simpl in *; [|done].
    by destruct (reg_supportsModel registry a b).
  - exfalso. apply Hc.
    destruct (filter _ (mergeTypes w)) eqn:Hf; [done|].
    assert (existsb (fun ty => reg_supportsModel registry ty modelKey) (mergeTypes w)
            = true) as Ht by (apply existsb_filter; by rewrite Hf).
    congruence.
Qed.

Lemma generate_unsupported w req modelKey s :
  supports registry w modelKey = false ->
  generate registry w req modelKey s
  = (Returned (unsupported w modelKey), w, s, []).
Proof.
  intros Hs. unfold generate.
  destruct (isMerge w && failoverEnabled w) eqn:Hmode.
  - apply andb_true_iff in Hmode as [Hm _].
    unfold _generateWithFailover.
    destruct (_getCandidateTypes registry w modelKey) eqn:Hc; [done|].
    rewrite candidates_supported in Hs; [done|done|by rewrite Hc].
  - by rewrite Hs.
Qed.

Lemma generate_single w req modelKey s :
  isMerge w = false ->
  let run := generate registry w req modelKey s in
  (length (invocations run.2) <= 1)%nat
  /\ Forall (fun c => c.1 = type w) (invocations run.2).
Proof.
  intros Hm. cbv zeta. unfold generate. rewrite Hm. simpl andb. cbv iota.
  destruct (negb (supports registry w modelKey));
    [simpl; split; [lia|constructor]|].
  unfold _getAdapterType. rewrite Hm. cbv beta iota.
  match goal with
  | |- context [_executeAdapter registry w (type w) ?id req s] =>
      destruct (executeAdapter_spec registry w (type w) id req s)
        as (_ & _ & [Hi|Hi]); rewrite Hi
  end.
  - simpl. split; [lia|constructor].
  - split; [simpl; lia|]. by repeat constructor.
Qed.

Lemma first_candidate_is_adapter_type w modelKey ty id rest :
  isMerge w = true -> JS.includes "/" modelKey = false ->
  _getCandidateTypes registry w modelKey = (ty, id) :: rest ->
  id = modelKey
  /\ _getAdapterType registry w modelKey = Some ty
  /\ supports registry w modelKey = true.
Proof.
  intros Hm Hk Hc.
  assert (Hsup : supports registry w modelKey = true).
  { apply candidates_supported; [done|]. by rewrite Hc. }
  unfold _getCandidateTypes, _getAdapterType in *. rewrite Hk in Hc.
  rewrite Hm, Hk.
  destruct (filter _ (mergeTypes w)) as [|ty' l]; [done|].
  simpl in Hc. by injection Hc as -> <- _.
Qed.

Lemma split_qualified ty id :
  JS.includes "/" ty = false ->
  JS.split "/" (ty +:+ "/" +:+ id) = ty :: JS.split "/" id.
Proof.
  induction ty as [|a ty IH]; intros Hty.
  - done.
  - simpl in Hty.
    change (String a ty +:+ "/" +:+ id) with (String a (ty +:+ "/" +:+ id)).
    simpl. destruct (Ascii.eqb a "/"); [done|]. by rewrite (IH Hty).
Qed.

End RoutingMoreFacts.

(** X6.  A model key that [supports] rejects is rejected by [generate],
    for single and merge Workers and with failover on or off: the answer
    is the not-supported error, no adapter is called, nothing is logged and
    the Worker and the outside state are unchanged. *)
Theorem generate_rejects_what_supports_rejects :
  forall (S : Type) (registry : Worker.Registry S) (w : Worker.t)
         (req : Worker.Request) (modelKey : string) (s : S),
    Worker.supports registry w modelKey = false ->
    Worker.generate registry w req modelKey s
    = (Returned (Worker.unsupported w modelKey), w, s, []).
Proof. intros. by apply generate_unsupported. Qed.

Lemma generate_rejects_what_supports_rejects_witness :
  (Worker.generate Examples.twoMembers
     (Examples.mergeWorker ["a"; "b"]%string None) Examples.aRequest "c/shared" tt).2
  = [].
Proof.
  rewrite (generate_rejects_what_supports_rejects unit Examples.twoMembers
             (Examples.mergeWorker ["a"; "b"]%string None)
             Examples.aRequest "c/shared" tt); reflexivity.
Defined.

(** X7.  A single-adapter Worker calls no adapter but its own, and calls
    it at most once per request. *)
Theorem single_worker_calls_only_its_adapter :
  forall (S : Type) (registry : Worker.Registry S) (w : Worker.t)
         (req : Worker.Request) (modelKey : string) (s : S),
    Worker.isMerge w = false ->
    let run := Worker.generate registry w req modelKey s in
    (length (Worker.invocations run.2) <= 1)%nat
    /\ Forall (fun c => c.1 = Worker.type w) (Worker.invocations run.2).
Proof. intros. by apply generate_single. Qed.

Lemma single_worker_calls_only_its_adapter_witness :
  Forall (fun c => c.1 = "a"%string)
    (Worker.invocations
       (Worker.generate Examples.oneUp Examples.singleWorker
          Examples.aRequest "a/m" tt).2).
Proof.
  apply (single_worker_calls_only_its_adapter unit Examples.oneUp
           Examples.singleWorker Examples.aRequest "a/m" tt).
  reflexivity.
Defined.

(** X8.  For a merge Worker and a key without [/], the adapter tried first
    is the same with and without failover: the first configured member
    that supports the model.  With failover disabled [generate] is that one
    call; with failover enabled (and a non-negative retry count) it is that
    one call too unless the adapter returns an error result. *)
Theorem failover_begins_with_the_direct_adapter :
  forall (S : Type) (registry : Worker.Registry S) (w : Worker.t)
         (req : Worker.Request) (modelKey : string) (s : S)
         (ty id : string) (rest : list (string * string)),
    Worker.isMerge w = true ->
    JS.includes "/" modelKey = false ->
    Worker._getCandidateTypes registry w modelKey = (ty, id) :: rest ->
    let direct := Worker._executeAdapter registry w ty modelKey req s in
    head (filter (fun m => Worker.reg_supportsModel registry m modelKey = true)
                 (Worker.mergeTypes w)) = Some ty
    /\ (Worker.failoverEnabled w = false ->
        Worker.generate registry w req modelKey s = direct)
    /\ (Worker.failoverEnabled w = true ->
        0 <= Worker.maxRetriesOr2 (Worker.failoverConfigOf w) ->
        ~ Worker.failedResult direct.1.1.1 ->
        Worker.generate registry w req modelKey s = direct).
Proof.
  intros S registry w req modelKey s ty id rest Hm Hk Hc. cbv zeta.
  destruct (first_candidate_is_adapter_type registry w modelKey ty id rest Hm Hk Hc)
    as (-> & Hty & Hsup).
  split; [|split].
  - unfold Worker._getCandidateTypes in Hc. rewrite Hk in Hc.
    destruct (filter _ (Worker.mergeTypes w)); [done|].
    simpl in Hc. by injection Hc as -> _.
  - intros Hoff. unfold Worker.generate. rewrite Hm, Hoff, Hsup, Hty, Hk. done.
  - intros Hon Hretries Hnotfailed. unfold Worker.generate. rewrite Hm, Hon.
    simpl andb. cbv iota. unfold Worker._generateWithFailover. rewrite Hc.
    set (maxA := if _ =? 0 then _ else _).
    assert (Hpos : 1 <= maxA).
    { unfold maxA. simpl length.
      destruct (Worker.maxRetriesOr2 (Worker.failoverConfigOf w) =? 0); lia. }
    destruct (Z.to_nat maxA) as [|todo] eqn:Htodo; [lia|].
    rewrite failoverLoop_unfold. simpl lookup. cbv iota beta zeta.
    set (direct := Worker._executeAdapter registry w ty modelKey req s) in *.
    destruct direct.1.1.1 as [r|msg] eqn:Ho; [|done].
    destruct (succeeded r) eqn:Hok; [done|].
    exfalso. apply Hnotfailed. by exists r.
Qed.

Lemma failover_begins_with_the_direct_adapter_witness :
  Worker.generate Examples.twoMembers
    (Examples.mergeWorker ["a"; "b"]%string None) Examples.aRequest "shared" tt
  = Worker._executeAdapter Examples.twoMembers
      (Examples.mergeWorker ["a"; "b"]%string None) "a" "shared" Examples.aRequest tt.
Proof.
  destruct (failover_begins_with_the_direct_adapter unit Examples.twoMembers
              (Examples.mergeWorker ["a"; "b"]%string None) Examples.aRequest
              "shared" tt "a" "shared" [("b", "shared")]%string
              eq_refl eq_refl eq_refl) as (_ & _ & Hon).
  apply Hon.
  - reflexivity.
  - vm_compute. discriminate.
  - intros (r & Hr & Hs). vm_compute in Hr. injection Hr as <-.
    vm_compute in Hs. discriminate.
Defined.

(** X9.  [getModelType] of a merge Worker reports the modality of the
    first failover candidate (its adapter type and model id); for a key
    without [/] that no member supports it answers [image].  A
    single-adapter Worker asks the registry with the key as given. *)
Theorem model_type_follows_first_candidate :
  forall (S : Type) (registry : Worker.Registry S)
         (reg_getModelType : string -> string -> string)
         (w : Worker.t) (modelKey : string),
    let modelType := WorkerQueries.getModelType registry reg_getModelType w modelKey in
    (Worker.isMerge w = true ->
     match Worker._getCandidateTypes registry w modelKey with
     | (ty, id) :: _ => modelType = reg_getModelType ty id
     | [] => JS.includes "/" modelKey = false -> modelType = "image"%string
     end)
    /\ (Worker.isMerge w = false ->
        modelType = reg_getModelType (Worker.type w) modelKey).
Proof.
  intros S registry reg_getModelType w modelKey. cbv zeta.
  unfold WorkerQueries.getModelType, Worker._getCandidateTypes.
  split; intros Hm; rewrite Hm; [|done].
  destruct (JS.includes "/" modelKey) eqn:Hk.
  - destruct (JS.split_limit "/" 2 modelKey) as [|a [|b l]]; [done|done|].
    destruct (Worker.arrayIncludes (Worker.mergeTypes w) a); [|done].
    simpl. by destruct (Worker.reg_supportsModel registry a b).
  - by destruct (filter _ (Worker.mergeTypes w)).
Qed.

Lemma model_type_follows_first_candidate_witness :
  WorkerQueries.getModelType Examples.twoMembers (fun ty _ => ty)
    (Examples.mergeWorker ["a"; "b"]%string None) "b/shared"
  = "b"%string.
Proof.
  destruct (model_type_follows_first_candidate unit Examples.twoMembers
              (fun ty _ => ty) (Examples.mergeWorker ["a"; "b"]%string None)
              "b/shared") as [Hmerge _].
  exact (Hmerge eq_refl).
Defined.

(** X10.  Listing and routing round trip: the qualified id
    [<adapterType>/<id>] a merge Worker lists for a member's model splits
    back into that adapter type and that id, provided neither contains a
    [/]; the failover candidates for it are that member alone when it
    supports the id. *)
Theorem listed_qualified_id_routes_back :
  forall (S : Type) (registry : Worker.Registry S) (w : Worker.t)
         (ty : string) (m : Worker.Model),
    ty ∈ Worker.mergeTypes w ->
    JS.includes "/" ty = false ->
    JS.includes "/" (Worker.m_id m) = false ->
    let key := Worker.m_id (Worker.qualified ty m) in
    JS.split_limit "/" 2 key = [ty; Worker.m_id m]
    /\ Worker._getCandidateTypes registry w key
       = if Worker.reg_supportsModel registry ty (Worker.m_id m)
         then [(ty, Worker.m_id m)] else [].
Proof.
  intros S registry w ty m Hin Hty Hid. cbv zeta.
  assert (Hsplit : JS.split_limit "/" 2 (Worker.m_id (Worker.qualified ty m))
                   = [ty; Worker.m_id m]).
  { unfold JS.split_limit. simpl Worker.m_id.
    rewrite split_qualified by done. by rewrite (no_slash_split _ _ Hid). }
  split; [done|].
  rewrite (getCandidateTypes_qualified registry w _ _ _ Hsplit).
  unfold Worker.arrayIncludes. by rewrite bool_decide_eq_true_2.
Qed.

Lemma listed_qualified_id_routes_back_witness :
  Worker._getCandidateTypes Examples.twoMembers
    (Examples.mergeWorker ["a"; "b"]%string None)
    (Worker.m_id (Worker.qualified "b" (Worker.mkModel "shared" "model" 0 "b")))
  = [("b", "shared")]%string.
Proof.
  destruct (listed_qualified_id_routes_back unit Examples.twoMembers
              (Examples.mergeWorker ["a"; "b"]%string None) "b"
              (Worker.mkModel "shared" "model" 0 "b")) as [_ Hc].
  - vm_compute. apply list_elem_of_further, list_elem_of_here.
  - reflexivity.
  - reflexivity.
  - exact Hc.
Defined.

(** X11.  [getCookies] fails on a Worker without a page; otherwise it
    queries the browser once, without a filter when the domain is absent
    or empty, and else with a URL that always carries a scheme: the domain
    itself when it starts with [http], and [https://] in front of it when
    it does not. *)
Theorem cookies_query_always_has_a_scheme :
  forall (Cookie : Type) (cookies : Worker.Page -> option string -> list Cookie)
         (w : Worker.t) (domain : option string),
    match Worker.page w with
    | None => exists msg, WorkerQueries.getCookies cookies w domain = inl msg
    | Some p =>
        exists filter,
          WorkerQueries.getCookies cookies w domain = inr (cookies p filter)
          /\ (JS.truthy domain = false -> filter = None)
          /\ (JS.truthy domain = true ->
              exists url, filter = Some url
                          /\ String.prefix "http" url = true
                          /\ (String.prefix "http" (JS.interp domain) = true ->
                              url = JS.interp domain)
                          /\ (String.prefix "http" (JS.interp domain) = false ->
                              url = "https://" +:+ JS.interp domain))
    end.
Proof.
  intros Cookie cookies w domain. unfold WorkerQueries.getCookies.
  destruct (Worker.page w) as [p|]; [|by eexists].
  destruct (JS.truthy domain) eqn:Ht.
  - eexists. split; [done|]. split; [done|]. intros _.
    eexists. split; [done|]. unfold WorkerQueries.cookieUrl.
    destruct (String.prefix "http" (JS.interp domain)) eqn:Hp.
    + by repeat split.
    + by repeat split.
  - eexists. split; [done|]. split; [done|]. done.
Qed.

(** ** Error table and error responses *)

Section ErrorFacts.

Import Errors.

(** Every entry of the table is complete and carries an error status. *)
Lemma table_entries_complete :
  Forall (fun kd =>
            exists msg st ty,
              kd.2 = entry msg st ty /\ msg <> ""%string /\ ty <> ""%string
              /\ 400 <= st <= 599)
         ERROR_DETAILS.
Proof.
  unfold ERROR_DETAILS.
  repeat (constructor; [do 3 eexists; repeat split; [done|done|lia|lia]|]).
  constructor.
Qed.

Lemma assoc_in code table d : assoc code table = Some d -> (code, d) ∈ table.
Proof.
  induction table as [|[k d'] table IH]; simpl; [done|].
  destruct (String.eqb k code) eqn:E.
  - apply String.eqb_eq in E as ->. intros [= ->]. apply list_elem_of_here.
  - intros H. by apply list_elem_of_further, IH.
Qed.

Lemma assoc_complete code d :
  assoc code ERROR_DETAILS = Some d ->
  exists msg st ty,
    d = entry msg st ty /\ msg <> ""%string /\ ty <> ""%string /\ 400 <= st <= 599.
Proof.
  intros H. apply assoc_in in H.
  pose proof table_entries_complete as Hall.
  rewrite Forall_forall in Hall. exact (Hall _ H).
Qed.

Lemma truthy_nonempty s : s <> ""%string -> JS.truthy (Some s) = true.
Proof. by destruct s. Qed.

End ErrorFacts.

(** X12.  Every error code, known or not, maps to an HTTP error status and
    a non-empty message: [getErrorStatus] is always between 400 and 599
    (500 for a code that is not in the table), and for a code of the table
    the three accessors agree with the table entry. *)
Theorem error_codes_map_to_error_statuses :
  forall code : string,
    400 <= Errors.getErrorStatus code <= 599
    /\ Errors.getErrorMessage code <> ""%string
    /\ (forall d, (code, d) ∈ Errors.ERROR_DETAILS ->
                  Errors.getErrorDetails code = d
                  /\ Errors.status d = Some (Errors.getErrorStatus code)
                  /\ Errors.message d = Some (Errors.getErrorMessage code))
    /\ ((forall d, (code, d) ∉ Errors.ERROR_DETAILS) ->
        Errors.getErrorStatus code = 500
        /\ Errors.getErrorMessage code = "未知错误"%string
        /\ (code ∉ Errors.inheritedKeys ->
            Errors.getErrorDetails code
            = {| Errors.message := Some "未知错误"%string;
                 Errors.status := Some 500;
                 Errors.type_ := None |})).
Proof.
  intros code.
  unfold Errors.getErrorStatus, Errors.getErrorMessage, Errors.getErrorDetails,
    Errors.tableGet.
  destruct (Errors.assoc code Errors.ERROR_DETAILS) as [d|] eqn:Ha.
  - destruct (assoc_complete code d Ha) as (msg & st & ty & -> & Hmsg & Hty & Hst).
    destruct msg as [|c0 msg]; [done|].
    simpl. replace (st =? 0) with false by lia. simpl.
    split; [lia|]. split; [done|]. split.
    + intros d Hin.
      assert (Hd : Errors.assoc code Errors.ERROR_DETAILS = Some d).
      { unfold Errors.ERROR_DETAILS in Hin.
        repeat (apply elem_of_cons in Hin as [[= -> ->]|Hin]; [reflexivity|]).
        by apply elem_of_nil in Hin. }
      rewrite Ha in Hd. injection Hd as <-. done.
    + intros Hnot. exfalso. apply (Hnot _ (assoc_in _ _ _ Ha)).
  - assert (Hnot : forall d, (code, d) ∉ Errors.ERROR_DETAILS).
    { intros d Hin. unfold Errors.ERROR_DETAILS in Hin.
      repeat (apply elem_of_cons in Hin as [[= -> ->]|Hin]; [discriminate Ha|]).
      by apply elem_of_nil in Hin. }
    case_bool_decide as Hk; simpl.
    + split; [lia|]. split; [done|]. split; [|done].
      intros d Hin. by apply Hnot in Hin.
    + split; [lia|]. split; [done|]. split; [|done].
      intros d Hin. by apply Hnot in Hin.
Qed.

Section ErrorWriterFacts.

Import Respond RespondApi.

Variable stringify : Json -> string.

Lemma sendSseDone_ends res res' :
  sendSseDone res = (None, res') -> writableEnded res' = true.
Proof.
  unfold sendSseDone. destruct (writableEnded res) eqn:He.
  - by intros [= <-].
  - unfold write. rewrite He. unfold end_. simpl. by intros [= <-].
Qed.

Lemma sendJson_ends res st payload res' :
  sendJson stringify res st payload = (None, res') -> writableEnded res' = true.
Proof.
  unfold sendJson. destruct (writableEnded res) eqn:He.
  - by intros [= <-].
  - unfold writeHead. destruct (headersSent res); [done|].
    unfold end_. simpl. rewrite He. by intros [= <-].
Qed.

Lemma sendApiError_ends res opts res' :
  sendApiError stringify res opts = (None, res') -> writableEnded res' = true.
Proof.
  unfold sendApiError. destruct (o_isStreaming opts).
  - destruct (sendSse stringify res (errorPayload opts)) as [[err|] res1] eqn:Hs;
      [done|]. apply sendSseDone_ends.
  - unfold sendJsonStatus. destruct (writableEnded res) eqn:He.
    + by intros [= <-].
    + destruct (headersSent res); [done|].
      destruct (httpStatus opts) as [st|]; [|done].
      destruct ((100 <=? st) && (st <=? 999)); [|done].
      apply sendJson_ends.
Qed.

Lemma sendApiError_streaming_open res opts :
  writableEnded res = false -> o_isStreaming opts = true ->
  exists res',
    sendApiError stringify res opts = (None, res')
    /\ writableEnded res' = true
    /\ body res' = body res
                   ++ ["data: " +:+ stringify (errorPayload opts) +:+ LF +:+ LF;
                       "data: [DONE]" +:+ LF +:+ LF]
    /\ statusCode res' = statusCode res /\ headers res' = headers res.
Proof.
  intros He Hstream. unfold sendApiError, sendSse, sendSseDone, write, end_.
  rewrite Hstream, He. simpl. eexists. split; [done|]. simpl.
  rewrite app_nil_r, <- app_assoc. done.
Qed.

End ErrorWriterFacts.

(** X13.  [sendApiError] never leaves a response open: whenever it returns
    without raising, in either mode, the response has ended; on a response
    that has already ended it changes nothing. *)
Theorem api_error_always_ends_the_response :
  forall (stringify : Respond.Json -> string) (res : Respond.Response)
         (opts : RespondApi.Options),
    (forall res', RespondApi.sendApiError stringify res opts = (None, res') ->
                  Respond.writableEnded res' = true)
    /\ (Respond.writableEnded res = true ->
        RespondApi.sendApiError stringify res opts = (None, res)).
Proof.
  intros stringify res opts. split.
  - intros res'. apply sendApiError_ends.
  - intros He. unfold RespondApi.sendApiError, RespondApi.sendJsonStatus,
      Respond.sendSse, Respond.sendSseDone.
    rewrite He. destruct (RespondApi.o_isStreaming opts); [|done].
    cbv iota beta. by rewrite He.
Qed.

Lemma api_error_always_ends_the_response_witness :
  RespondApi.sendApiError Examples.showJson Examples.endedResponse
    {| RespondApi.o_code := Some "SERVER_BUSY"%string;
       RespondApi.o_message := None; RespondApi.o_status := None;
       RespondApi.o_isStreaming := true |}
  = (None, Examples.endedResponse).
Proof.
  apply (api_error_always_ends_the_response Examples.showJson Examples.endedResponse).
  reflexivity.
Defined.

(** X14.  On an open stream, [sendApiError] in streaming mode writes
    exactly two frames, the error as one [data:] frame and then
    [data: [DONE]], ends the response, and leaves status and headers as
    they are. *)
Theorem streaming_error_is_one_frame_then_done :
  forall (stringify : Respond.Json -> string) (res : Respond.Response)
         (opts : RespondApi.Options),
    Respond.writableEnded res = false ->
    RespondApi.o_isStreaming opts = true ->
    exists res',
      RespondApi.sendApiError stringify res opts = (None, res')
      /\ Respond.writableEnded res' = true
      /\ Respond.body res'
         = Respond.body res
           ++ ["data: " +:+ stringify (RespondApi.errorPayload opts)
                 +:+ Respond.LF +:+ Respond.LF;
               "data: [DONE]" +:+ Respond.LF +:+ Respond.LF]
      /\ Respond.statusCode res' = Respond.statusCode res
      /\ Respond.headers res' = Respond.headers res.
Proof. intros. by apply sendApiError_streaming_open. Qed.

Lemma streaming_error_is_one_frame_then_done_witness :
  exists res',
    RespondApi.sendApiError Examples.showJson ErrorExamples.openStream
      (ErrorExamples.busy true) = (None, res')
    /\ Respond.writableEnded res' = true.
Proof.
  destruct (streaming_error_is_one_frame_then_done Examples.showJson
              ErrorExamples.openStream (ErrorExamples.busy true) eq_refl eq_refl)
    as (res' & Hrun & Hended & _).
  exists res'. split; [exact Hrun|exact Hended].
Defined.

(** X15.  For a code of the table, without a message or status of the
    caller's own, the non-streaming error response on a response that has
    not sent its headers carries the table's HTTP status, the JSON content
    type and the serialised error body, and ends the response. *)
Theorem known_error_is_sent_with_its_status :
  forall (stringify : Respond.Json -> string) (res : Respond.Response)
         (code : string) (d : Errors.Details),
    (code, d) ∈ Errors.ERROR_DETAILS ->
    Respond.writableEnded res = false ->
    Respond.headersSent res = false ->
    let opts := {| RespondApi.o_code := Some code; RespondApi.o_message := None;
                   RespondApi.o_status := None; RespondApi.o_isStreaming := false |} in
    RespondApi.sendApiError stringify res opts
    = (None,
       {| Respond.writableEnded := true; Respond.headersSent := true;
          Respond.statusCode := Errors.getErrorStatus code;
          Respond.headers := [("Content-Type", "application/json")]%string;
          Respond.body :=
            Respond.body res
            ++ [stringify
                  (Respond.JObj
                     [("error"%string,
                       Respond.JObj
                         [("message"%string,
                           Respond.JStr (Errors.getErrorMessage code));
                          ("type"%string,
                           Respond.JStr (JS.interp (Errors.type_ d)));
                          ("code"%string, Respond.JStr code)])])] |}).
Proof.
  intros stringify res code d Hin He Hh. cbv zeta.
  unfold Errors.ERROR_DETAILS in Hin.
  repeat (apply elem_of_cons in Hin as [[= -> ->]|Hin];
          [unfold RespondApi.sendApiError, RespondApi.sendJsonStatus,
             Respond.sendJson, Respond.writeHead, Respond.end_;
           simpl; rewrite He, Hh; simpl; reflexivity|]).
  by apply elem_of_nil in Hin.
Qed.

Lemma known_error_is_sent_with_its_status_witness :
  Respond.statusCode
    (RespondApi.sendApiError Examples.showJson ErrorExamples.fresh
       (ErrorExamples.busy false)).2
  = 429.
Proof.
  unfold ErrorExamples.busy.
  rewrite (known_error_is_sent_with_its_status Examples.showJson
             ErrorExamples.fresh "SERVER_BUSY"
             (Errors.entry "服务器繁忙（队列已满）" 429 Errors.RATE_LIMIT)).
  - reflexivity.
  - unfold Errors.ERROR_DETAILS. do 2 apply list_elem_of_further.
    apply list_elem_of_here.
  - reflexivity.
  - reflexivity.
Defined.

(** ** The configuration loader *)

Section FlattenFacts.

Import ConfigLoader.

Variable cwd : string.
Variable path_join : string -> string -> string.
Variable globalProxy : option Config.Proxy.

#[local] Abbreviation flatOf := (flatOf cwd path_join globalProxy).

Lemma validateWorker_ok worker instanceName j :
  validateWorker worker instanceName j = None <-> workerOk worker.
Proof.
  unfold validateWorker, workerOk.
  destruct (JS.truthy (rw_name worker)); simpl; [|split; [done|by intros [? _]]].
  destruct (JS.truthy (rw_type worker)) eqn:Ht; simpl;
    [|split; [done|by intros (_ & ? & _)]].
  destruct (rw_type worker) as [ty|] eqn:Hty; [|done]. simpl.
  destruct (String.eqb ty "merge") eqn:E.
  - apply String.eqb_eq in E as ->.
    destruct (rw_mergeTypes worker) as [[|m ms]|]; simpl.
    + split; [done|]. intros (_ & _ & H). by destruct H.
    + split; [|done]. intros _. repeat split. done.
    + split; [done|]. intros (_ & _ & H). by destruct H.
  - apply String.eqb_neq in E. split; [|done]. intros _.
    repeat split. intros [= ->]. done.
Qed.

Lemma validateInstance_ok instance i :
  validateInstance instance i = None
  <-> JS.truthy (ri_name instance) = true /\ workersOf instance <> [].
Proof.
  unfold validateInstance, workersOf.
  destruct (JS.truthy (ri_name instance)); simpl; [|split; [done|by intros [? _]]].
  destruct (ri_workers instance) as [[|w ws]|]; simpl.
  - split; [done|]. by intros [_ ?].
  - split; [|done]. by intros _.
  - split; [done|]. by intros [_ ?].
Qed.

Lemma flattenWorkers_spec instance workers :
  forall j st,
    namesInv st ->
    match flattenWorkers cwd path_join globalProxy instance workers j st with
    | inr st' =>
        namesInv st'
        /\ st'.2 = st.2 ++ map (flatOf instance) workers
        /\ acceptedWorkers cwd path_join globalProxy instance st.2 workers
    | inl _ => ~ acceptedWorkers cwd path_join globalProxy instance st.2 workers
    end.
Proof.
  induction workers as [|w workers IH]; intros j [seen acc] [Hseen Hnd]; simpl.
  - split; [done|]. split; [by rewrite app_nil_r|].
    split; [done|]. by rewrite app_nil_r.
  - destruct (validateWorker w (JS.interp (ri_name instance)) j) as [err|] eqn:Hv.
    { intros [Hall _]. apply Forall_cons in Hall as [Hw _].
      apply validateWorker_ok with (instanceName := JS.interp (ri_name instance))
                                   (j := j) in Hw. congruence. }
    apply validateWorker_ok in Hv.
    case_bool_decide as Hdup.
    { intros [_ Hnd']. simpl in Hseen. apply Hseen in Hdup.
      rewrite fmap_app in Hnd'. apply NoDup_app in Hnd' as (_ & Hdisj & _).
      apply (Hdisj _ Hdup). simpl. apply list_elem_of_here. }
    assert (Hinv' : namesInv ({[JS.interp (rw_name w)]} ∪ seen, acc ++ [flatOf instance w])).
    { split; simpl.
      - intros x. rewrite elem_of_union, elem_of_singleton, fmap_app, elem_of_app.
        simpl. rewrite list_elem_of_singleton. simpl in Hseen.
        rewrite Hseen. tauto.
      - rewrite fmap_app. apply NoDup_app. split; [done|]. split.
        + intros x Hx Hx'. simpl in Hx'. apply list_elem_of_singleton in Hx' as ->.
          apply Hdup. by apply Hseen.
        + simpl. apply NoDup_singleton. }
    specialize (IH (Datatypes.S j) _ Hinv'). simpl in IH.
    destruct (flattenWorkers _ _ _ _ workers _ _) as [err|st'].
    + intros [Hall Hnd']. apply IH. split.
      * by apply Forall_cons in Hall as [_ ?].
      * by rewrite <- app_assoc.
    + destruct IH as (Hinv'' & Heq & Hall & Hnd'). split; [done|].
      split; [by rewrite Heq, <- app_assoc|].
      split; [by constructor|]. by rewrite <- app_assoc in Hnd'.
Qed.

Lemma expand_cons instance instances :
  expand cwd path_join globalProxy (instance :: instances)
  = map (flatOf instance) (workersOf instance)
    ++ expand cwd path_join globalProxy instances.
Proof. done. Qed.

Lemma flattenInstances_spec instances :
  forall i st,
    namesInv st ->
    match flattenInstances cwd path_join globalProxy instances i st with
    | inr st' =>
        namesInv st'
        /\ st'.2 = st.2 ++ expand cwd path_join globalProxy instances
        /\ accepted cwd path_join globalProxy st.2 instances
    | inl _ => ~ accepted cwd path_join globalProxy st.2 instances
    end.
Proof.
  induction instances as [|inst instances IH]; intros i st Hinv; simpl.
  - split; [done|]. unfold accepted, expand. simpl. rewrite app_nil_r.
    split; [done|]. split; [done|]. apply Hinv.
  - destruct (validateInstance inst i) as [err|] eqn:Hv.
    { intros [Hall _]. apply Forall_cons in Hall as [(Hn & Hw & _) _].
      assert (validateInstance inst i = None) by (by apply validateInstance_ok).
      congruence. }
    apply validateInstance_ok in Hv as [Hname Hws].
    pose proof (flattenWorkers_spec inst (workersOf inst) 0 st Hinv) as Hinner.
    destruct (flattenWorkers _ _ _ inst (workersOf inst) 0 st) as [err|st1].
    { intros [Hall Hnd]. apply Hinner. split.
      - by apply Forall_cons in Hall as [(_ & _ & ?) _].
      - rewrite expand_cons, app_assoc, fmap_app in Hnd.
        by apply NoDup_app in Hnd as [? _]. }
    destruct Hinner as (Hinv1 & Heq1 & Hallw & Hnd1).
    specialize (IH (Datatypes.S i) st1 Hinv1).
    destruct (flattenInstances _ _ _ instances _ st1) as [err|st'].
    + intros [Hall Hnd]. apply IH. split.
      * by apply Forall_cons in Hall as [_ ?].
      * by rewrite Heq1, <- app_assoc, <- expand_cons.
    + destruct IH as (Hinv' & Heq & Hall & Hnd). split; [done|].
      split; [by rewrite Heq, Heq1, <- app_assoc|].
      split; [constructor; [done|done]|].
      rewrite Heq1, <- app_assoc in Hnd. by rewrite expand_cons.
Qed.

Lemma flatten_iff instances ws :
  flattenInstancesToWorkers cwd path_join instances globalProxy = inr ws
  <-> accepted cwd path_join globalProxy [] instances
      /\ ws = expand cwd path_join globalProxy instances.
Proof.
  unfold flattenInstancesToWorkers.
  assert (Hinv : namesInv ((∅ : gset string), ([] : list FlatWorker))).
  { split; simpl; [|apply NoDup_nil_2].
    intros x. split; intros H; [by apply elem_of_empty in H|by apply elem_of_nil in H]. }
  pose proof (flattenInstances_spec instances 0 _ Hinv) as Hspec.
  destruct (flattenInstances _ _ _ instances 0 _) as [err|st].
  - split; [done|]. by intros [? _].
  - destruct Hspec as (_ & Heq & Hacc). simpl in Heq. split.
    + intros [= <-]. done.
    + intros [_ ->]. by rewrite Heq.
Qed.

Lemma expand_source instances fw :
  fw ∈ expand cwd path_join globalProxy instances ->
  exists inst w, inst ∈ instances /\ w ∈ workersOf inst /\ fw = flatOf inst w.
Proof.
  induction instances as [|inst instances IH]; intros Hin.
  - by apply elem_of_nil in Hin.
  - rewrite expand_cons in Hin. apply elem_of_app in Hin as [Hin|Hin].
    + apply list_elem_of_fmap in Hin as (w & -> & Hw).
      exists inst, w. split; [apply list_elem_of_here|done].
    + destruct (IH Hin) as (inst' & w & Hi & Hw & ->).
      exists inst', w. split; [by apply list_elem_of_further|done].
Qed.

Lemma names_expand instances :
  fw_name <$> expand cwd path_join globalProxy instances = allNames instances.
Proof.
  induction instances as [|inst instances IH]; [done|].
  rewrite expand_cons, fmap_app, IH. unfold allNames. simpl. f_equal.
  induction (workersOf inst) as [|w ws IHw]; [done|]. simpl. by rewrite <- IHw.
Qed.

Lemma flatten_source instances ws fw :
  flattenInstancesToWorkers cwd path_join instances globalProxy = inr ws ->
  fw ∈ ws ->
  exists inst w,
    inst ∈ instances /\ instanceOk inst /\ w ∈ workersOf inst /\ workerOk w
    /\ fw = flatOf inst w.
Proof.
  intros Hflat Hin. apply flatten_iff in Hflat as [[Hall _] ->].
  destruct (expand_source _ _ Hin) as (inst & w & Hi & Hw & ->).
  exists inst, w. rewrite Forall_forall in Hall.
  pose proof (Hall _ Hi) as Hok. split; [done|]. split; [done|]. split; [done|].
  split; [|done]. destruct Hok as (_ & _ & Hws).
  rewrite Forall_forall in Hws. by apply Hws.
Qed.

Lemma truthy_interp_nonempty (o : option string) :
  JS.truthy o = true -> JS.interp o <> ""%string /\ o = Some (JS.interp o).
Proof. destruct o as [[|c s]|]; simpl; try done. Qed.

End FlattenFacts.

(** X16.  [flattenInstancesToWorkers] returns, rather than throws, exactly
    when every instance has a name and a non-empty [workers] array, every
    worker has a name and a type, every worker of type [merge] has a
    non-empty [mergeTypes], and no worker name occurs twice in the whole
    configuration; what it returns is then one entry for each worker of
    each instance, in the order of the configuration. *)
Theorem flatten_succeeds_iff_valid_and_unique :
  forall (cwd : string) (path_join : string -> string -> string)
         (globalProxy : option Config.Proxy)
         (instances : list ConfigLoader.RawInstance)
         (ws : list ConfigLoader.FlatWorker),
    ConfigLoader.flattenInstancesToWorkers cwd path_join instances globalProxy
    = inr ws
    <-> (Forall ConfigLoader.instanceOk instances
         /\ NoDup (ConfigLoader.allNames instances))
        /\ ws = concat (map (fun instance =>
                               map (ConfigLoader.flatOf cwd path_join globalProxy
                                      instance)
                                   (ConfigLoader.workersOf instance))
                            instances).
Proof.
  intros cwd path_join globalProxy instances ws.
  rewrite flatten_iff. unfold ConfigLoader.accepted. simpl.
  by rewrite names_expand.
Qed.

(** X17.  What a flattened configuration guarantees to the Worker class:
    the worker names are pairwise different and not empty, and a Worker
    constructed from any entry always resolves an adapter type for a model
    key, its own type when it is not a merge Worker and one of its
    [mergeTypes] when it is (the [mergeTypes[0]] fallback never reads an
    empty array). *)
Theorem flattened_worker_resolves_an_adapter :
  forall (S : Type) (registry : Worker.Registry S) (g : Worker.GlobalConfig)
         (cwd : string) (path_join : string -> string -> string)
         (globalProxy : option Config.Proxy)
         (instances : list ConfigLoader.RawInstance)
         (ws : list ConfigLoader.FlatWorker),
    ConfigLoader.flattenInstancesToWorkers cwd path_join instances globalProxy
    = inr ws ->
    NoDup (ConfigLoader.fw_name <$> ws)
    /\ forall fw modelKey,
         fw ∈ ws ->
         let w := Worker.constructor g (ConfigLoader.toWorkerConfig fw) in
         Worker.name w <> ""%string
         /\ exists ty,
              Worker._getAdapterType registry w modelKey = Some ty
              /\ if Worker.isMerge w then ty ∈ Worker.mergeTypes w
                 else ty = Worker.type w.
Proof.
  intros S registry g cwd path_join globalProxy instances ws Hflat. split.
  { apply flatten_iff in Hflat as [[_ Hnd] ->]. done. }
  intros fw modelKey Hin.
  destruct (flatten_source _ _ _ _ _ _ Hflat Hin)
    as (inst & rw & _ & _ & _ & (Hname & Htype & Hmerge) & ->).
  simpl. split; [by apply truthy_interp_nonempty|].
  unfold Worker._getAdapterType, Worker.isMerge. simpl.
  destruct (String.eqb (JS.interp (ConfigLoader.rw_type rw)) "merge") eqn:E;
    [|by eexists].
  apply String.eqb_eq in E.
  destruct (truthy_interp_nonempty _ Htype) as [_ Hty]. rewrite E in Hty.
  specialize (Hmerge Hty).
  destruct (default [] (ConfigLoader.rw_mergeTypes rw)) as [|m ms] eqn:Hm; [done|].
  assert (Hhead : head (m :: ms) = Some m) by done.
  assert (Hfirst : m ∈ m :: ms) by apply list_elem_of_here.
  destruct (JS.includes "/" modelKey).
  - destruct (JS.split_limit "/" 2 modelKey) as [|specifiedType rest];
      [by exists m|].
    unfold Worker.arrayIncludes. case_bool_decide as Hinc; [|by exists m].
    by exists specifiedType.
  - destruct (filter _ (m :: ms)) as [|ty tys] eqn:Hf; [by exists m|].
    exists ty. split; [done|].
    assert (Hty' : ty ∈ ty :: tys) by apply list_elem_of_here.
    rewrite <- Hf in Hty'. by apply list_elem_of_filter in Hty' as [_ ?].
Qed.

Lemma flattened_worker_resolves_an_adapter_witness :
  let w := Worker.constructor (Worker.mkGlobalConfig None)
             (ConfigLoader.toWorkerConfig
                (ConfigLoader.flatOf "/srv" ConfigExamples.pathJoin
                   (Some Examples.globalProxy) ConfigExamples.first
                   ConfigExamples.both)) in
  exists ty,
    Worker._getAdapterType Examples.twoMembers w "shared" = Some ty
    /\ ty ∈ Worker.mergeTypes w.
Proof.
  assert (Hflat :
    ConfigLoader.flattenInstancesToWorkers "/srv" ConfigExamples.pathJoin
      [ConfigExamples.first; ConfigExamples.second] (Some Examples.globalProxy)
    = inr ConfigExamples.flattened) by (vm_compute; reflexivity).
  destruct (flattened_worker_resolves_an_adapter unit Examples.twoMembers
              (Worker.mkGlobalConfig None) _ _ _ _ _ Hflat) as [_ H].
  apply (H (ConfigLoader.flatOf "/srv" ConfigExamples.pathJoin
              (Some Examples.globalProxy) ConfigExamples.first
              ConfigExamples.both) "shared"%string).
  unfold ConfigExamples.flattened, ConfigLoader.expand. simpl.
  apply list_elem_of_further, list_elem_of_here.
Defined.

(** X18.  A flattened worker is given a proxy only from a block whose
    [enable] is the boolean [true]: its instance's block, or else the global
    block provided the instance's block does not say [enable: false].  All
    the workers of one instance get the same proxy. *)
Theorem flattened_proxy_is_explicitly_enabled :
  forall (cwd : string) (path_join : string -> string -> string)
         (globalProxy : option Config.Proxy)
         (instances : list ConfigLoader.RawInstance)
         (ws : list ConfigLoader.FlatWorker) (fw : ConfigLoader.FlatWorker),
    ConfigLoader.flattenInstancesToWorkers cwd path_join instances globalProxy
    = inr ws ->
    fw ∈ ws ->
    exists instance,
      instance ∈ instances
      /\ ConfigLoader.fw_instanceName fw
         = JS.interp (ConfigLoader.ri_name instance)
      /\ match ConfigLoader.fw_resolvedProxy fw with
         | None => True
         | Some p =>
             Config.enable p = Config.VBool true
             /\ (ConfigLoader.ri_proxy instance = Some p
                 \/ (globalProxy = Some p
                     /\ Config.enableIs Config.isFalse
                          (ConfigLoader.ri_proxy instance) = false))
         end.
Proof.
  intros cwd path_join globalProxy instances ws fw Hflat Hin.
  destruct (flatten_source _ _ _ _ _ _ Hflat Hin)
    as (inst & rw & Hi & _ & _ & _ & ->).
  exists inst. split; [done|]. split; [done|]. simpl.
  unfold Config.resolveProxyConfig.
  destruct (Config.enableIs Config.isFalse (ConfigLoader.ri_proxy inst)) eqn:Hf;
    [done|].
  destruct (Config.enableIs Config.isTrue (ConfigLoader.ri_proxy inst)) eqn:Ht.
  { destruct (ConfigLoader.ri_proxy inst) as [p|]; [|done]. simpl in Ht.
    split; [|by left]. by destruct (Config.enable p) as [| |[|]| |]. }
  destruct (Config.enableIs Config.isTrue globalProxy) eqn:Hg; [|done].
  destruct globalProxy as [p|]; [|done]. simpl in Hg.
  split; [|by right]. by destruct (Config.enable p) as [| |[|]| |].
Qed.

Lemma flattened_proxy_is_explicitly_enabled_witness :
  exists instance,
    instance ∈ [ConfigExamples.first; ConfigExamples.second]
    /\ "first"%string = JS.interp (ConfigLoader.ri_name instance)
    /\ (Config.enable Examples.globalProxy = Config.VBool true
        /\ (ConfigLoader.ri_proxy instance = Some Examples.globalProxy
            \/ (Some Examples.globalProxy = Some Examples.globalProxy
                /\ Config.enableIs Config.isFalse
                     (ConfigLoader.ri_proxy instance) = false))).
Proof.
  apply (flattened_proxy_is_explicitly_enabled "/srv" ConfigExamples.pathJoin
           (Some Examples.globalProxy)
           [ConfigExamples.first; ConfigExamples.second]
           ConfigExamples.flattened
           (ConfigLoader.flatOf "/srv" ConfigExamples.pathJoin
              (Some Examples.globalProxy) ConfigExamples.first
              ConfigExamples.chat)).
  - vm_compute. reflexivity.
  - unfold ConfigExamples.flattened, ConfigLoader.expand. simpl.
    apply list_elem_of_here.
Defined.

(** X19.  The profile directory depends on the [userDataMark] only, and a
    missing or empty mark is stored as [null]: all the workers whose
    [userDataMark] is [null] share one profile directory, also across
    instances, and two workers with the same mark share theirs. *)
Theorem unmarked_instances_share_a_profile_directory :
  forall (cwd : string) (path_join : string -> string -> string)
         (globalProxy : option Config.Proxy)
         (instances : list ConfigLoader.RawInstance)
         (ws : list ConfigLoader.FlatWorker) (fw1 fw2 : ConfigLoader.FlatWorker),
    ConfigLoader.flattenInstancesToWorkers cwd path_join instances globalProxy
    = inr ws ->
    fw1 ∈ ws -> fw2 ∈ ws ->
    ConfigLoader.fw_userDataMark fw1 = ConfigLoader.fw_userDataMark fw2 ->
    ConfigLoader.fw_userDataDir fw1 = ConfigLoader.fw_userDataDir fw2
    /\ (ConfigLoader.fw_userDataMark fw1 = None ->
        ConfigLoader.fw_userDataDir fw1
        = path_join (path_join cwd "data") "camoufoxUserData").
Proof.
  intros cwd path_join globalProxy instances ws fw1 fw2 Hflat Hin1 Hin2.
  destruct (flatten_source _ _ _ _ _ _ Hflat Hin1)
    as (i1 & w1 & _ & _ & _ & _ & ->).
  destruct (flatten_source _ _ _ _ _ _ Hflat Hin2)
    as (i2 & w2 & _ & _ & _ & _ & ->).
  simpl. unfold ConfigLoader.orNull, ConfigLoader.resolveUserDataDir.
  destruct (ConfigLoader.ri_userDataMark i1) as [[|c1 m1]|];
    destruct (ConfigLoader.ri_userDataMark i2) as [[|c2 m2]|]; simpl;
    intros Heq; try done.
  by injection Heq as -> ->.
Qed.

Lemma unmarked_instances_share_a_profile_directory_witness :
  ConfigLoader.fw_userDataDir
    (ConfigLoader.flatOf "/srv" ConfigExamples.pathJoin
       (Some Examples.globalProxy) ConfigExamples.first ConfigExamples.chat)
  = ConfigLoader.fw_userDataDir
      (ConfigLoader.flatOf "/srv" ConfigExamples.pathJoin
         (Some Examples.globalProxy) ConfigExamples.second ConfigExamples.draw).
Proof.
  apply (unmarked_instances_share_a_profile_directory "/srv"
           ConfigExamples.pathJoin (Some Examples.globalProxy)
           [ConfigExamples.first; ConfigExamples.second]
           ConfigExamples.flattened).
  - vm_compute. reflexivity.
  - unfold ConfigExamples.flattened, ConfigLoader.expand. simpl.
    apply list_elem_of_here.
  - unfold ConfigExamples.flattened, ConfigLoader.expand. simpl.
    do 2 apply list_elem_of_further. apply list_elem_of_here.
  - reflexivity.
Defined.

(** ** Finding and loading the configuration file *)

Section ConfigPathFacts.

Import ConfigFiles.

Variable cwd : string.
Variable path_join : string -> string -> string.
Variable dirname : string -> string.

#[local] Abbreviation DATA_DIR := (DATA_DIR cwd path_join).
#[local] Abbreviation DATA_CONFIG_PATH := (DATA_CONFIG_PATH cwd path_join).
#[local] Abbreviation ROOT_CONFIG_PATH := (ROOT_CONFIG_PATH cwd path_join).
#[local] Abbreviation EXAMPLE_CONFIG_PATH := (EXAMPLE_CONFIG_PATH cwd path_join).
#[local] Abbreviation resolveConfigPath := (resolveConfigPath cwd path_join dirname).

Hypothesis parent : dirname DATA_CONFIG_PATH = DATA_DIR.
Hypothesis distinct :
  NoDup [DATA_DIR; DATA_CONFIG_PATH; ROOT_CONFIG_PATH; EXAMPLE_CONFIG_PATH].

Lemma exists_lookup {A} (o : option A) :
  bool_decide (is_Some o) = match o with Some _ => true | None => false end.
Proof.
  destruct o.
  - by rewrite bool_decide_true.
  - rewrite bool_decide_false; [done|]. by intros [? ?].
Qed.

Lemma paths_distinct :
  DATA_DIR <> DATA_CONFIG_PATH /\ DATA_DIR <> ROOT_CONFIG_PATH
  /\ DATA_DIR <> EXAMPLE_CONFIG_PATH /\ DATA_CONFIG_PATH <> ROOT_CONFIG_PATH
  /\ DATA_CONFIG_PATH <> EXAMPLE_CONFIG_PATH
  /\ ROOT_CONFIG_PATH <> EXAMPLE_CONFIG_PATH.
Proof.
  pose proof distinct as Hnd.
  rewrite !NoDup_cons, !elem_of_cons in Hnd.
  destruct Hnd as (H1 & H2 & H3 & _).
  repeat split; intros E; rewrite E in *; tauto.
Qed.

(** The outcome of [resolveConfigPath], by what the three files and the
    data directory are. *)
Lemma resolveConfigPath_cases st :
  let fs := files st in
  match fs !! DATA_CONFIG_PATH, fs !! ROOT_CONFIG_PATH, fs !! EXAMPLE_CONFIG_PATH with
  | Some _, _, _ | None, None, None =>
      resolveConfigPath st = (inr DATA_CONFIG_PATH, st)
  | None, Some e, _ =>
      match fs !! DATA_DIR with
      | Some (File _) => exists code, resolveConfigPath st = (inl (FsError code), st)
      | Some Dir =>
          resolveConfigPath st
          = (inr DATA_CONFIG_PATH,
             {| files := <[DATA_CONFIG_PATH := e]> (delete ROOT_CONFIG_PATH fs);
                cachedConfig := cachedConfig st;
                activeConfigPath := activeConfigPath st;
                logs := logs st ++ [Migrated ROOT_CONFIG_PATH DATA_CONFIG_PATH] |})
      | None =>
          resolveConfigPath st
          = (inr DATA_CONFIG_PATH,
             {| files := <[DATA_CONFIG_PATH := e]>
                           (delete ROOT_CONFIG_PATH (<[DATA_DIR := Dir]> fs));
                cachedConfig := cachedConfig st;
                activeConfigPath := activeConfigPath st;
                logs := logs st ++ [Migrated ROOT_CONFIG_PATH DATA_CONFIG_PATH] |})
      end
  | None, None, Some Dir =>
      exists code st', resolveConfigPath st = (inl (FsError code), st')
  | None, None, Some (File text) =>
      match fs !! DATA_DIR with
      | Some (File _) => exists code, resolveConfigPath st = (inl (FsError code), st)
      | Some Dir =>
          resolveConfigPath st
          = (inr DATA_CONFIG_PATH,
             {| files := <[DATA_CONFIG_PATH := File text]> fs;
                cachedConfig := cachedConfig st;
                activeConfigPath := activeConfigPath st;
                logs := logs st ++ [Copied EXAMPLE_CONFIG_PATH DATA_CONFIG_PATH] |})
      | None =>
          resolveConfigPath st
          = (inr DATA_CONFIG_PATH,
             {| files := <[DATA_CONFIG_PATH := File text]> (<[DATA_DIR := Dir]> fs);
                cachedConfig := cachedConfig st;
                activeConfigPath := activeConfigPath st;
                logs := logs st ++ [Copied EXAMPLE_CONFIG_PATH DATA_CONFIG_PATH] |})
      end
  end.
Proof.
  destruct paths_distinct as (Hn1 & Hn2 & Hn3 & Hn4 & Hn5 & Hn6).
  destruct st as [fs cached active lg]. simpl.
  unfold ConfigFiles.resolveConfigPath, bind, ensureDataDir, bind, existsSync,
    renameSync, copyFileSync, mkdirSync, log, ret, set_files.
  destruct (fs !! DATA_CONFIG_PATH) as [ed|] eqn:Hd;
    [simpl; by rewrite exists_lookup, Hd|].
  destruct (fs !! ROOT_CONFIG_PATH) as [er|] eqn:Hr;
    [|destruct (fs !! EXAMPLE_CONFIG_PATH) as [[text|]|] eqn:He];
    destruct (fs !! DATA_DIR) as [[t|]|] eqn:Hdd;
    repeat (progress (simpl;
                      rewrite ?exists_lookup, ?parent, ?lookup_insert_eq;
                      rewrite ?lookup_insert_ne by done;
                      repeat match goal with
                             | H : _ !! _ = _ |- _ => rewrite H
                             end));
    try done; try (by eexists); try (by do 2 eexists);
    try (by destruct er).
Qed.

Lemma resolveConfigPath_outcome st :
  let fs := files st in
  match resolveConfigPath st with
  | (inr p, st') =>
      p = DATA_CONFIG_PATH
      /\ files st' !! DATA_CONFIG_PATH
         = fs !! DATA_CONFIG_PATH ∪ fs !! ROOT_CONFIG_PATH ∪ fs !! EXAMPLE_CONFIG_PATH
      /\ files st' !! ROOT_CONFIG_PATH
         = match fs !! DATA_CONFIG_PATH with
           | Some _ => fs !! ROOT_CONFIG_PATH
           | None => None
           end
      /\ files st' !! EXAMPLE_CONFIG_PATH = fs !! EXAMPLE_CONFIG_PATH
      /\ cachedConfig st' = cachedConfig st
      /\ activeConfigPath st' = activeConfigPath st
  | (inl e, _) =>
      (exists code, e = FsError code)
      /\ fs !! DATA_CONFIG_PATH = None
      /\ ((exists text, fs !! DATA_DIR = Some (File text))
          \/ (fs !! ROOT_CONFIG_PATH = None /\ fs !! EXAMPLE_CONFIG_PATH = Some Dir))
  end.
Proof.
  destruct paths_distinct as (Hn1 & Hn2 & Hn3 & Hn4 & Hn5 & Hn6).
  pose proof (resolveConfigPath_cases st) as Hc. simpl in Hc |- *. revert Hc.
  destruct (files st !! DATA_CONFIG_PATH) as [ed|] eqn:Hd;
    destruct (files st !! ROOT_CONFIG_PATH) as [er|] eqn:Hr;
    destruct (files st !! EXAMPLE_CONFIG_PATH) as [[text|]|] eqn:He;
    destruct (files st !! DATA_DIR) as [[t|]|] eqn:Hdd; intros Hc;
    repeat match type of Hc with
           | exists _, _ => destruct Hc as [? Hc]
           end;
    rewrite Hc; simpl;
    rewrite ?lookup_insert_eq; rewrite ?lookup_insert_ne by done;
    rewrite ?lookup_delete_eq; rewrite ?lookup_delete_ne by done;
    rewrite ?lookup_insert_ne by done;
    rewrite ?Hd, ?Hr, ?He, ?Hdd;
    repeat split; try done; try (by eexists); try (left; by eexists);
    try (by right).
Qed.

Lemma resolveConfigPath_again st p st' :
  resolveConfigPath st = (inr p, st') -> resolveConfigPath st' = (inr p, st').
Proof.
  intros Hres.
  pose proof (resolveConfigPath_outcome st) as Ho. rewrite Hres in Ho.
  simpl in Ho. destruct Ho as (-> & Hdata & _).
  pose proof (resolveConfigPath_cases st') as Hc'. simpl in Hc'.
  destruct (files st' !! DATA_CONFIG_PATH) as [e|] eqn:Hd'; [done|].
  clear Hc'.
  pose proof (resolveConfigPath_cases st) as Hc. simpl in Hc.
  destruct (files st !! DATA_CONFIG_PATH) as [ed|];
    destruct (files st !! ROOT_CONFIG_PATH) as [er|];
    destruct (files st !! EXAMPLE_CONFIG_PATH) as [ee|];
    try (cbv in Hdata; discriminate Hdata).
  rewrite Hc in Hres. by injection Hres as <-.
Qed.

End ConfigPathFacts.

(** X20.  [resolveConfigPath] returns the path of [data/config.yaml],
    whatever it finds.  What that path names afterwards is the first there
    was of [data/config.yaml], [config.yaml] and [config.example.yaml]: a
    root [config.yaml] is moved (it is gone afterwards), the example is
    copied (it stays).  It throws only when the configuration exists
    outside [data] alone and [data] is a regular file, or when the only
    candidate, the example, is a directory. *)
Theorem config_path_prefers_data_then_root_then_example :
  forall (cwd : string) (path_join : string -> string -> string)
         (dirname : string -> string) (st : ConfigFiles.State),
    let DATA_DIR := ConfigFiles.DATA_DIR cwd path_join in
    let DATA_CONFIG_PATH := ConfigFiles.DATA_CONFIG_PATH cwd path_join in
    let ROOT_CONFIG_PATH := ConfigFiles.ROOT_CONFIG_PATH cwd path_join in
    let EXAMPLE_CONFIG_PATH := ConfigFiles.EXAMPLE_CONFIG_PATH cwd path_join in
    let fs := ConfigFiles.files st in
    dirname DATA_CONFIG_PATH = DATA_DIR ->
    NoDup [DATA_DIR; DATA_CONFIG_PATH; ROOT_CONFIG_PATH; EXAMPLE_CONFIG_PATH] ->
    match ConfigFiles.resolveConfigPath cwd path_join dirname st with
    | (inr p, st') =>
        p = DATA_CONFIG_PATH
        /\ ConfigFiles.files st' !! DATA_CONFIG_PATH
           = fs !! DATA_CONFIG_PATH ∪ fs !! ROOT_CONFIG_PATH
             ∪ fs !! EXAMPLE_CONFIG_PATH
        /\ ConfigFiles.files st' !! ROOT_CONFIG_PATH
           = match fs !! DATA_CONFIG_PATH with
             | Some _ => fs !! ROOT_CONFIG_PATH
             | None => None
             end
        /\ ConfigFiles.files st' !! EXAMPLE_CONFIG_PATH = fs !! EXAMPLE_CONFIG_PATH
        /\ ConfigFiles.cachedConfig st' = ConfigFiles.cachedConfig st
        /\ ConfigFiles.activeConfigPath st' = ConfigFiles.activeConfigPath st
    | (inl e, _) =>
        (exists code, e = ConfigFiles.FsError code)
        /\ fs !! DATA_CONFIG_PATH = None
        /\ ((exists text, fs !! DATA_DIR = Some (ConfigFiles.File text))
            \/ (fs !! ROOT_CONFIG_PATH = None
                /\ fs !! EXAMPLE_CONFIG_PATH = Some ConfigFiles.Dir))
    end.
Proof.
  intros cwd path_join dirname st ? ? ? ? ? Hparent Hdistinct.
  exact (resolveConfigPath_outcome cwd path_join dirname Hparent Hdistinct st).
Qed.

Lemma config_path_prefers_data_then_root_then_example_witness :
  ConfigFiles.files
    (ConfigFiles.resolveConfigPath "/srv" ConfigExamples.pathJoin
       LoaderExamples.parentOf LoaderExamples.firstStart).2
  !! "/srv/data/config.yaml"%string
  = Some (ConfigFiles.File LoaderExamples.exampleText).
Proof.
  assert (Hparent : LoaderExamples.parentOf
                      (ConfigFiles.DATA_CONFIG_PATH "/srv" ConfigExamples.pathJoin)
                    = ConfigFiles.DATA_DIR "/srv" ConfigExamples.pathJoin)
    by reflexivity.
  assert (Hdistinct :
            NoDup [ConfigFiles.DATA_DIR "/srv" ConfigExamples.pathJoin;
                   ConfigFiles.DATA_CONFIG_PATH "/srv" ConfigExamples.pathJoin;
                   ConfigFiles.ROOT_CONFIG_PATH "/srv" ConfigExamples.pathJoin;
                   ConfigFiles.EXAMPLE_CONFIG_PATH "/srv" ConfigExamples.pathJoin])
    by (apply (bool_decide_unpack _); vm_compute; reflexivity).
  pose proof (config_path_prefers_data_then_root_then_example "/srv"
                ConfigExamples.pathJoin LoaderExamples.parentOf
                LoaderExamples.firstStart Hparent Hdistinct) as H.
  destruct (ConfigFiles.resolveConfigPath "/srv" ConfigExamples.pathJoin
              LoaderExamples.parentOf LoaderExamples.firstStart)
    as [[e|p] st'] eqn:Hres.
  - vm_compute in Hres. discriminate Hres.
  - destruct H as (_ & H & _). refine (eq_trans H _). vm_compute. reflexivity.
Defined.

(** X21.  Resolving the path is idempotent: after a call that returned, a
    second call returns the same path, changes no file and logs nothing. *)
Theorem config_path_resolution_is_idempotent :
  forall (cwd : string) (path_join : string -> string -> string)
         (dirname : string -> string) (st st' : ConfigFiles.State) (p : string),
    dirname (ConfigFiles.DATA_CONFIG_PATH cwd path_join)
    = ConfigFiles.DATA_DIR cwd path_join ->
    NoDup [ConfigFiles.DATA_DIR cwd path_join;
           ConfigFiles.DATA_CONFIG_PATH cwd path_join;
           ConfigFiles.ROOT_CONFIG_PATH cwd path_join;
           ConfigFiles.EXAMPLE_CONFIG_PATH cwd path_join] ->
    ConfigFiles.resolveConfigPath cwd path_join dirname st = (inr p, st') ->
    ConfigFiles.resolveConfigPath cwd path_join dirname st' = (inr p, st').
Proof.
  intros cwd path_join dirname st st' p Hparent Hdistinct.
  exact (resolveConfigPath_again cwd path_join dirname Hparent Hdistinct st p st').
Qed.

Lemma config_path_resolution_is_idempotent_witness :
  let st' := (ConfigFiles.resolveConfigPath "/srv" ConfigExamples.pathJoin
                LoaderExamples.parentOf LoaderExamples.firstStart).2 in
  ConfigFiles.resolveConfigPath "/srv" ConfigExamples.pathJoin
    LoaderExamples.parentOf st'
  = (inr "/srv/data/config.yaml"%string, st').
Proof.
  apply (config_path_resolution_is_idempotent "/srv" ConfigExamples.pathJoin
           LoaderExamples.parentOf LoaderExamples.firstStart).
  - reflexivity.
  - apply (bool_decide_unpack _). vm_compute. reflexivity.
  - vm_compute. reflexivity.
Defined.

Section LoadFacts.

Import ConfigLoader ConfigFiles.

Variable cwd : string.
Variable path_join : string -> string -> string.
Variable dirname : string -> string.
Variable parse : string -> Parsed.
Variable strlen : string -> nat.

#[local] Abbreviation same st st' :=
  (files st' = files st /\ cachedConfig st' = cachedConfig st
   /\ activeConfigPath st' = activeConfigPath st).

#[local] Abbreviation proxyOf b :=
  (match b with Some b' => b_proxy b' | None => None end).

Lemma dockerPath_spec raw st :
  exists b st1,
    dockerPath raw st = (inr b, st1) /\ same st st1
    /\ proxyOf b = proxyOf (browser raw).
Proof.
  unfold dockerPath, bind, existsSyncV, existsSync, log, ret.
  destruct (browser raw) as [[path proxy]|]; simpl.
  - destruct (truthyV path); simpl.
    + destruct path; simpl; repeat (case_bool_decide; simpl); eauto 10.
    + case_bool_decide; simpl; eauto 10.
  - case_bool_decide; simpl; eauto 10.
Qed.

Lemma checkServer_spec raw st s st1 :
  checkServer strlen raw st = (inr s, st1) ->
  st1 = st /\ server raw = Some s
  /\ exists port auth,
       s_port s = VInt port /\ (1 <= port <= 65535)%Z
       /\ s_auth s = VStr auth /\ (10 <= strlen auth)%nat.
Proof.
  unfold checkServer, throw, ret.
  destruct (server raw) as [s0|]; [|done].
  destruct (truthyV (s_port s0)); [|done]. cbn [negb].
  destruct (validPort (s_port s0)) eqn:Hp; [|done]. cbn [negb].
  destruct (truthyV (s_auth s0)); [|done]. cbn [negb].
  destruct (validAuth strlen (s_auth s0)) eqn:Ha; [|done]. cbn [negb].
  intros [= <- <-]. split; [done|]. split; [done|].
  unfold validPort in Hp. unfold validAuth in Ha.
  destruct (s_port s0) as [| | |n| | |]; try done.
  destruct (s_auth s0) as [| | | | |a|]; try done.
  exists n, a. apply andb_true_iff in Hp as [H1 H2].
  apply Z.leb_le in H1, H2. apply Nat.leb_le in Ha. done.
Qed.

Lemma keepaliveMode_spec s st :
  exists m st1,
    keepaliveMode s st = (inr (VStr m), st1)
    /\ m ∈ ["comment"; "content"]%string /\ same st st1.
Proof.
  unfold keepaliveMode, bind, log, ret.
  destruct (s_keepalive s) as [[mode]|]; simpl.
  - destruct mode as [| | | | |m|]; simpl;
      try (exists "comment"%string; eexists; split; [done|];
           split; [apply list_elem_of_here|done]).
    case_bool_decide as Hm; simpl.
    + by exists m, st.
    + exists "comment"%string. eexists. split; [done|].
      split; [apply list_elem_of_here|done].
  - exists "comment"%string, st. split; [done|].
    split; [apply list_elem_of_here|done].
Qed.

Lemma poolStrategy_spec pool st :
  exists m st1,
    poolStrategy pool st = (inr (VStr m), st1)
    /\ m ∈ ["least_busy"; "round_robin"; "random"]%string /\ same st st1.
Proof.
  unfold poolStrategy, bind, log, ret.
  destruct (truthyV (p_strategy pool)) eqn:Ht; simpl.
  - destruct (p_strategy pool) as [| | | | |m|]; simpl;
      try (exists "least_busy"%string; eexists; split; [done|];
           split; [apply list_elem_of_here|done]).
    case_bool_decide as Hm; simpl.
    + by exists m, st.
    + exists "least_busy"%string. eexists. split; [done|].
      split; [apply list_elem_of_here|done].
  - exists "least_busy"%string, st. split; [done|].
    split; [apply list_elem_of_here|done].
Qed.

Lemma poolFailover_defined pool :
  f_enabled (poolFailover pool) <> VUndefined
  /\ f_maxRetries (poolFailover pool) <> VUndefined.
Proof.
  unfold poolFailover.
  destruct (p_failover pool) as [[enabled maxRetries]|]; simpl.
  - by destruct enabled, maxRetries.
  - done.
Qed.

Lemma poolWorkers_spec pool b st iw st1 :
  poolWorkers cwd path_join pool b st = (inr iw, st1) ->
  st1 = st /\ p_instances pool = Some iw.1 /\ iw.1 <> []
  /\ flattenInstancesToWorkers cwd path_join iw.1 (proxyOf b) = inr iw.2.
Proof.
  unfold poolWorkers, throw, ret.
  destruct (p_instances pool) as [[|inst instances]|]; [done| |done].
  destruct (flattenInstancesToWorkers _ _ (inst :: instances) _) as [msg|ws] eqn:Hf;
    [done|].
  intros [= <- <-]. done.
Qed.

Lemma flatten_nonempty gp instances ws :
  flattenInstancesToWorkers cwd path_join instances gp = inr ws ->
  instances <> [] -> ws <> [].
Proof.
  intros Hf Hne. apply flatten_iff in Hf as [[Hall _] ->].
  destruct instances as [|inst instances]; [done|].
  apply Forall_cons in Hall as [(_ & Hws & _) _].
  rewrite expand_cons. destruct (workersOf inst); [done|]. done.
Qed.

Lemma queueOf_spec raw ws :
  q_maxConcurrent (queueOf raw ws) = VInt (Z.of_nat (length ws))
  /\ q_queueBuffer (queueOf raw ws) <> VUndefined
  /\ q_imageLimit (queueOf raw ws) <> VUndefined.
Proof.
  unfold queueOf. destruct (queue raw) as [[qb il mc]|]; simpl; [|done].
  by destruct qb, il.
Qed.

(** What [loadConfig] has checked and filled in when it returns. *)
Lemma complete_spec configPath raw st cfg st1 :
  complete cwd path_join strlen configPath raw st = (inr cfg, st1) ->
  same st st1
  /\ exists b s port auth mode strategy instances ws,
       proxyOf b = proxyOf (browser raw)
       /\ server raw = Some s /\ s_port s = VInt port /\ s_auth s = VStr auth
       /\ (1 <= port <= 65535)%Z /\ (10 <= strlen auth)%nat
       /\ mode ∈ ["comment"; "content"]%string
       /\ strategy ∈ ["least_busy"; "round_robin"; "random"]%string
       /\ instances <> []
       /\ flattenInstancesToWorkers cwd path_join instances (proxyOf b) = inr ws
       /\ (existsb usesGeminiBiz ws = true ->
           truthyV (entryUrlOf (adapterOf raw)) = true)
       /\ cfg = {| server := Some {| s_port := VInt port; s_auth := VStr auth;
                                     s_keepalive := Some {| ka_mode := VStr mode |} |};
                   browser := b;
                   backend :=
                     Some {| bk_pool :=
                               Some {| p_strategy := VStr strategy;
                                       p_failover := Some (poolFailover (poolOf raw));
                                       p_instances := Some instances;
                                       p_workers := Some ws |};
                             bk_adapter := Some (adapterOf raw) |};
                   queue := Some (queueOf raw ws);
                   logLevel := logLevel raw |}.
Proof.
  unfold complete, bind.
  destruct (dockerPath_spec raw st) as (b & st_a & -> & Ha & Hproxy).
  destruct (checkServer strlen raw st_a) as [[e|s] st_b] eqn:Hs; [done|].
  apply checkServer_spec in Hs as (-> & Hserver & port & auth & Hp & Hport & Hau & Hauth).
  destruct (keepaliveMode_spec s st_a) as (mode & st_c & -> & Hmode & Hc).
  destruct (poolStrategy_spec (poolOf raw) st_c) as (strategy & st_d & -> & Hstrat & Hd).
  destruct (poolWorkers cwd path_join (poolOf raw) b st_d) as [[e|iw] st_e] eqn:Hw;
    [done|].
  apply poolWorkers_spec in Hw as (-> & Hinst & Hne & Hflat).
  destruct (existsb usesGeminiBiz iw.2 && negb (truthyV (entryUrlOf (adapterOf raw))))
    eqn:Hg; [done|].
  unfold logAll, log, ret.
  destruct Ha as (Ha1 & Ha2 & Ha3), Hc as (Hc1 & Hc2 & Hc3), Hd as (Hd1 & Hd2 & Hd3).
  destruct (truthyV (logLevel raw)); simpl; intros [= <- <-]; simpl.
  - split; [by rewrite Hd1, Hd2, Hd3, Hc1, Hc2, Hc3|].
    exists b, s, port, auth, mode, strategy, iw.1, iw.2.
    rewrite Hp, Hau. repeat split; try done; try lia.
    intros Hex. rewrite Hex in Hg. simpl in Hg. by apply negb_false_iff in Hg.
  - split; [by rewrite Hd1, Hd2, Hd3, Hc1, Hc2, Hc3|].
    exists b, s, port, auth, mode, strategy, iw.1, iw.2.
    rewrite Hp, Hau. repeat split; try done; try lia.
    intros Hex. rewrite Hex in Hg. simpl in Hg. by apply negb_false_iff in Hg.
Qed.

Lemma loadConfig_success st cfg st' :
  cachedConfig st = None ->
  loadConfig cwd path_join dirname parse strlen st = (inr cfg, st') ->
  exists configPath st_a text raw st_b,
    getConfigPath cwd path_join dirname st = (inr configPath, st_a)
    /\ files st_a !! configPath = Some (File text)
    /\ parse text = Mapping raw
    /\ complete cwd path_join strlen configPath raw st_a = (inr cfg, st_b)
    /\ st' = {| files := files st_b; cachedConfig := Some cfg;
                activeConfigPath := activeConfigPath st_b; logs := logs st_b |}.
Proof.
  intros Hcached. unfold loadConfig. rewrite Hcached. unfold bind at 1.
  destruct (getConfigPath cwd path_join dirname st) as [[e|configPath] st_a];
    [done|].
  unfold bind at 1, existsSync, readFileSync, throw.
  destruct (files st_a !! configPath) as [[text|]|] eqn:Hfile.
  - rewrite bool_decide_true by done. cbn [negb]. unfold bind at 1.
    rewrite Hfile. destruct (parse text) as [msg| |raw] eqn:Hparse; [done|done|].
    unfold bind.
    destruct (complete cwd path_join strlen configPath raw st_a)
      as [[e|cfg'] st_b] eqn:Hcomplete; [done|].
    intros [= <- <-]. by exists configPath, st_a, text, raw, st_b.
  - rewrite bool_decide_true by done. cbn [negb]. unfold bind at 1.
    by rewrite Hfile.
  - rewrite bool_decide_false by (by intros [? ?]). done.
Qed.

Lemma loadConfig_cached st cfg :
  cachedConfig st = Some cfg ->
  loadConfig cwd path_join dirname parse strlen st = (inr cfg, st).
Proof. intros H. unfold loadConfig. by rewrite H. Qed.

End LoadFacts.

(** X22.  A configuration that [loadConfig] returns from the file (not from
    its cache) has been checked and completed: the port is an integer from 1
    to 65535, the key a string of at least 10 characters, the keepalive mode
    [comment] or [content], the strategy one of the three known, both
    failover settings defined, [workers] the flattening of a non-empty
    [instances] and itself not empty, [queue.maxConcurrent] the number of
    workers, and [entryUrl] set when a worker uses [gemini_biz].  The
    configuration is cached: the next call returns it and touches
    nothing. *)
Theorem loaded_config_is_checked_and_completed :
  forall (cwd : string) (path_join : string -> string -> string)
         (dirname : string -> string) (parse : string -> ConfigFiles.Parsed)
         (strlen : string -> nat) (st st' : ConfigFiles.State)
         (cfg : ConfigFiles.ConfigObject),
    ConfigFiles.cachedConfig st = None ->
    ConfigFiles.loadConfig cwd path_join dirname parse strlen st = (inr cfg, st') ->
    (exists port auth mode strategy failover instances ws adapter q,
       ConfigFiles.server cfg
       = Some {| ConfigFiles.s_port := ConfigFiles.VInt port;
                 ConfigFiles.s_auth := ConfigFiles.VStr auth;
                 ConfigFiles.s_keepalive :=
                   Some {| ConfigFiles.ka_mode := ConfigFiles.VStr mode |} |}
       /\ (1 <= port <= 65535)%Z
       /\ (10 <= strlen auth)%nat
       /\ mode ∈ ["comment"; "content"]%string
       /\ ConfigFiles.backend cfg
          = Some {| ConfigFiles.bk_pool :=
                      Some {| ConfigFiles.p_strategy := ConfigFiles.VStr strategy;
                              ConfigFiles.p_failover := Some failover;
                              ConfigFiles.p_instances := Some instances;
                              ConfigFiles.p_workers := Some ws |};
                    ConfigFiles.bk_adapter := Some adapter |}
       /\ strategy ∈ ["least_busy"; "round_robin"; "random"]%string
       /\ ConfigFiles.f_enabled failover <> ConfigFiles.VUndefined
       /\ ConfigFiles.f_maxRetries failover <> ConfigFiles.VUndefined
       /\ instances <> []
       /\ ConfigLoader.flattenInstancesToWorkers cwd path_join instances
            (match ConfigFiles.browser cfg with
             | Some b => ConfigFiles.b_proxy b
             | None => None
             end)
          = inr ws
       /\ ws <> []
       /\ ConfigFiles.queue cfg = Some q
       /\ ConfigFiles.q_maxConcurrent q = ConfigFiles.VInt (Z.of_nat (length ws))
       /\ ConfigFiles.q_queueBuffer q <> ConfigFiles.VUndefined
       /\ ConfigFiles.q_imageLimit q <> ConfigFiles.VUndefined
       /\ (existsb ConfigFiles.usesGeminiBiz ws = true ->
           ConfigFiles.truthyV (ConfigFiles.entryUrlOf adapter) = true))
    /\ ConfigFiles.loadConfig cwd path_join dirname parse strlen st' = (inr cfg, st').
Proof.
  intros cwd path_join dirname parse strlen st st' cfg Hcached Hload.
  destruct (loadConfig_success _ _ _ _ _ _ _ _ Hcached Hload)
    as (configPath & st_a & text & raw & st_b & _ & _ & _ & Hcomplete & ->).
  split; [|by apply loadConfig_cached].
  apply complete_spec in Hcomplete
    as (_ & b & s & port & auth & mode & strategy & instances & ws & Hproxy
        & Hserver & Hp & Ha & Hport & Hauth & Hmode & Hstrategy & Hne & Hflat
        & Hgemini & ->).
  destruct (poolFailover_defined (ConfigFiles.poolOf raw)) as [He Hm].
  destruct (queueOf_spec raw ws) as (Hq1 & Hq2 & Hq3).
  exists port, auth, mode, strategy,
    (ConfigFiles.poolFailover (ConfigFiles.poolOf raw)), instances, ws,
    (ConfigFiles.adapterOf raw), (ConfigFiles.queueOf raw ws).
  simpl. repeat split; try done; try lia.
  by apply (flatten_nonempty cwd path_join _ instances ws Hflat).
Qed.

Lemma loaded_config_is_checked_and_completed_witness :
  let r := ConfigFiles.loadConfig "/srv" ConfigExamples.pathJoin
             LoaderExamples.parentOf LoaderExamples.parseExample String.length
             LoaderExamples.firstStart in
  ConfigFiles.loadConfig "/srv" ConfigExamples.pathJoin LoaderExamples.parentOf
    LoaderExamples.parseExample String.length r.2
  = r.
Proof.
  intros r.
  destruct r as [[e|cfg] st'] eqn:Hr; [vm_compute in Hr; discriminate Hr|].
  apply (loaded_config_is_checked_and_completed "/srv" ConfigExamples.pathJoin
           LoaderExamples.parentOf LoaderExamples.parseExample String.length
           LoaderExamples.firstStart st' cfg); [reflexivity|exact Hr].
Defined.

Section LoadSourceFacts.

Import ConfigLoader ConfigFiles.

Variable cwd : string.
Variable path_join : string -> string -> string.
Variable dirname : string -> string.
Variable parse : string -> Parsed.
Variable strlen : string -> nat.

#[local] Abbreviation DATA_DIR := (DATA_DIR cwd path_join).
#[local] Abbreviation DATA_CONFIG_PATH := (DATA_CONFIG_PATH cwd path_join).
#[local] Abbreviation ROOT_CONFIG_PATH := (ROOT_CONFIG_PATH cwd path_join).
#[local] Abbreviation EXAMPLE_CONFIG_PATH := (EXAMPLE_CONFIG_PATH cwd path_join).
#[local] Abbreviation resolveConfigPath := (resolveConfigPath cwd path_join dirname).
#[local] Abbreviation loadConfig := (loadConfig cwd path_join dirname parse strlen).
#[local] Abbreviation complete := (complete cwd path_join strlen).

Hypothesis parent : dirname DATA_CONFIG_PATH = DATA_DIR.
Hypothesis distinct :
  NoDup [DATA_DIR; DATA_CONFIG_PATH; ROOT_CONFIG_PATH; EXAMPLE_CONFIG_PATH].

(** [loadConfig] on a module that has neither a cached configuration nor
    an active path yet. *)
Lemma loadConfig_fresh st :
  cachedConfig st = None -> activeConfigPath st = None ->
  loadConfig st
  = match resolveConfigPath st with
    | (inl e, st1) => (inl e, st1)
    | (inr p, st1) =>
        let st_a := {| files := files st1; cachedConfig := cachedConfig st1;
                       activeConfigPath := Some p; logs := logs st1 |} in
        match files st1 !! p with
        | None => (inl (NotFound p), st_a)
        | Some Dir => (inl (FsError "EISDIR"), st_a)
        | Some (File text) =>
            match parse text with
            | Invalid msg => (inl (YamlError msg), st_a)
            | Scalar => (inl (ParseFailed p), st_a)
            | Mapping raw =>
                match complete p raw st_a with
                | (inl e, st_b) => (inl e, st_b)
                | (inr cfg, st_b) =>
                    (inr cfg,
                     {| files := files st_b; cachedConfig := Some cfg;
                        activeConfigPath := activeConfigPath st_b;
                        logs := logs st_b |})
                end
            end
        end
    end.
Proof.
  intros Hcached Hactive. unfold ConfigFiles.loadConfig. rewrite Hcached.
  unfold bind at 1. unfold getConfigPath. rewrite Hactive. simpl.
  destruct (resolveConfigPath st) as [[e|p] st1]; [done|].
  unfold bind at 1, existsSync, readFileSync, throw. simpl.
  destruct (files st1 !! p) as [[text|]|] eqn:Hfile.
  - rewrite bool_decide_true by done. cbn [negb]. unfold bind at 1. simpl.
    rewrite Hfile. destruct (parse text) as [msg| |raw]; [done|done|].
    unfold bind. by destruct (complete p raw _) as [[e|cfg] st_b].
  - rewrite bool_decide_true by done. cbn [negb]. unfold bind at 1. simpl.
    by rewrite Hfile.
  - rewrite bool_decide_false by (by intros [? ?]). done.
Qed.

Lemma complete_errors configPath raw st e st1 :
  complete configPath raw st = (inl e, st1) -> forall p, e <> NotFound p.
Proof.
  unfold ConfigFiles.complete, bind.
  destruct (dockerPath_spec raw st) as (b & st_a & -> & _).
  destruct (checkServer strlen raw st_a) as [[e1|s] st_b] eqn:Hs.
  { intros [= <- <-] p. revert Hs. unfold checkServer, throw, ret.
    destruct (server raw) as [s0|]; [|by intros [= <- _]].
    repeat (match goal with
            | |- context [if ?c then _ else _] => destruct c
            end; [by intros [= <- _]|]).
    done. }
  destruct (keepaliveMode_spec s st_b) as (mode & st_c & -> & _).
  destruct (poolStrategy_spec (poolOf raw) st_c) as (strategy & st_d & -> & _).
  destruct (poolWorkers cwd path_join (poolOf raw) b st_d) as [[e1|iw] st_e] eqn:Hw.
  { intros [= <- <-] p. revert Hw. unfold poolWorkers, throw, ret.
    destruct (p_instances (poolOf raw)) as [[|inst instances]|];
      [by intros [= <- _]| |by intros [= <- _]].
    destruct (flattenInstancesToWorkers _ _ _ _); [by intros [= <- _]|done]. }
  destruct (existsb usesGeminiBiz iw.2 && negb (truthyV (entryUrlOf (adapterOf raw)))).
  { by intros [= <- <-] p. }
  unfold logAll, log, ret. by destruct (truthyV (logLevel raw)).
Qed.

Lemma source_None (a b c : option Entry) :
  a ∪ b ∪ c = None <-> a = None /\ b = None /\ c = None.
Proof. destruct a, b, c; cbv; intuition congruence. Qed.

Lemma load_source st :
  cachedConfig st = None -> activeConfigPath st = None ->
  let fs := files st in
  let source := fs !! DATA_CONFIG_PATH ∪ fs !! ROOT_CONFIG_PATH
                ∪ fs !! EXAMPLE_CONFIG_PATH in
  (source = None
   <-> exists st', loadConfig st = (inl (NotFound DATA_CONFIG_PATH), st'))
  /\ forall cfg st',
       loadConfig st = (inr cfg, st') ->
       exists text raw,
         source = Some (File text) /\ parse text = Mapping raw
         /\ files st' !! DATA_CONFIG_PATH = Some (File text)
         /\ activeConfigPath st' = Some DATA_CONFIG_PATH
         /\ s_port <$> server cfg = s_port <$> server raw
         /\ s_auth <$> server cfg = s_auth <$> server raw.
Proof.
  intros Hcached Hactive fs source.
  rewrite (loadConfig_fresh st Hcached Hactive).
  pose proof (resolveConfigPath_outcome cwd path_join dirname parent distinct st)
    as Ho. simpl in Ho. fold fs in Ho. fold source in Ho.
  destruct (resolveConfigPath st) as [[e|p] st1] eqn:Hres.
  { destruct Ho as ([code ->] & _). split; [|by intros cfg st' [=]].
    split; [|by intros [st' [=]]]. intros Hnone. exfalso.
    apply source_None in Hnone as (Hd & Hr & He).
    pose proof (resolveConfigPath_cases cwd path_join dirname parent distinct st)
      as Hc. simpl in Hc. fold fs in Hc. rewrite Hd, Hr, He in Hc.
    by rewrite Hc in Hres. }
  destruct Ho as (-> & Hdata & _). simpl. rewrite Hdata.
  destruct source as [[text|]|] eqn:Hsource.
  - split; [split; [done|]|].
    + intros [st' Hl]. destruct (parse text) as [msg| |raw]; [done|done|].
      destruct (complete DATA_CONFIG_PATH raw _) as [[e|cfg] st_b] eqn:Hc; [|done].
      injection Hl as -> _. by apply complete_errors with (p := DATA_CONFIG_PATH) in Hc.
    + intros cfg st'. destruct (parse text) as [msg| |raw] eqn:Hparse; [done|done|].
      destruct (complete DATA_CONFIG_PATH raw _) as [[e|cfg'] st_b] eqn:Hc; [done|].
      intros [= <- <-]. exists text, raw.
      apply complete_spec in Hc
        as ((Hf & _ & Ha) & b & s & port & auth & mode & strategy & instances & ws
            & _ & Hserver & Hp & Hau & _ & _ & _ & _ & _ & _ & _ & ->).
      simpl in *. rewrite Hf, Ha, Hdata, Hserver. simpl. by rewrite Hp, Hau.
  - split; [split; [done|by intros [st' [=]]]|]. by intros cfg st' [=].
  - split; [split; [by eexists|done]|]. by intros cfg st' [=].
Qed.

End LoadSourceFacts.

(** X23.  On its first call [loadConfig] loads the text of the first there
    is of [data/config.yaml], [config.yaml] and [config.example.yaml], which
    is at [data/config.yaml] afterwards; it throws "configuration file not
    found" exactly when none of the three exists. *)
Theorem first_load_reads_the_preferred_file :
  forall (cwd : string) (path_join : string -> string -> string)
         (dirname : string -> string) (parse : string -> ConfigFiles.Parsed)
         (strlen : string -> nat) (st : ConfigFiles.State),
    let DATA_DIR := ConfigFiles.DATA_DIR cwd path_join in
    let DATA_CONFIG_PATH := ConfigFiles.DATA_CONFIG_PATH cwd path_join in
    let ROOT_CONFIG_PATH := ConfigFiles.ROOT_CONFIG_PATH cwd path_join in
    let EXAMPLE_CONFIG_PATH := ConfigFiles.EXAMPLE_CONFIG_PATH cwd path_join in
    let fs := ConfigFiles.files st in
    let source := fs !! DATA_CONFIG_PATH ∪ fs !! ROOT_CONFIG_PATH
                  ∪ fs !! EXAMPLE_CONFIG_PATH in
    dirname DATA_CONFIG_PATH = DATA_DIR ->
    NoDup [DATA_DIR; DATA_CONFIG_PATH; ROOT_CONFIG_PATH; EXAMPLE_CONFIG_PATH] ->
    ConfigFiles.cachedConfig st = None ->
    ConfigFiles.activeConfigPath st = None ->
    (source = None
     <-> exists st',
           ConfigFiles.loadConfig cwd path_join dirname parse strlen st
           = (inl (ConfigFiles.NotFound DATA_CONFIG_PATH), st'))
    /\ forall cfg st',
         ConfigFiles.loadConfig cwd path_join dirname parse strlen st
         = (inr cfg, st') ->
         exists text raw,
           source = Some (ConfigFiles.File text)
           /\ parse text = ConfigFiles.Mapping raw
           /\ ConfigFiles.files st' !! DATA_CONFIG_PATH
              = Some (ConfigFiles.File text)
           /\ ConfigFiles.activeConfigPath st' = Some DATA_CONFIG_PATH
           /\ ConfigFiles.s_port <$> ConfigFiles.server cfg
              = ConfigFiles.s_port <$> ConfigFiles.server raw
           /\ ConfigFiles.s_auth <$> ConfigFiles.server cfg
              = ConfigFiles.s_auth <$> ConfigFiles.server raw.
Proof.
  intros cwd path_join dirname parse strlen st ? ? ? ? ? ? Hparent Hdistinct
    Hcached Hactive.
  exact (load_source cwd path_join dirname parse strlen Hparent Hdistinct st
           Hcached Hactive).
Qed.

Lemma first_load_reads_the_preferred_file_witness :
  exists text raw,
    Some (ConfigFiles.File LoaderExamples.exampleText)
    = Some (ConfigFiles.File text)
    /\ LoaderExamples.parseExample text = ConfigFiles.Mapping raw.
Proof.
  assert (Hdistinct :
            NoDup [ConfigFiles.DATA_DIR "/srv" ConfigExamples.pathJoin;
                   ConfigFiles.DATA_CONFIG_PATH "/srv" ConfigExamples.pathJoin;
                   ConfigFiles.ROOT_CONFIG_PATH "/srv" ConfigExamples.pathJoin;
                   ConfigFiles.EXAMPLE_CONFIG_PATH "/srv" ConfigExamples.pathJoin])
    by (apply (bool_decide_unpack _); vm_compute; reflexivity).
  destruct (first_load_reads_the_preferred_file "/srv" ConfigExamples.pathJoin
              LoaderExamples.parentOf LoaderExamples.parseExample String.length
              LoaderExamples.firstStart eq_refl Hdistinct eq_refl eq_refl)
    as [_ H].
  destruct (ConfigFiles.loadConfig "/srv" ConfigExamples.pathJoin
              LoaderExamples.parentOf LoaderExamples.parseExample String.length
              LoaderExamples.firstStart) as [[e|cfg] st'] eqn:Hr;
    [vm_compute in Hr; discriminate Hr|].
  destruct (H cfg st' eq_refl) as (text & raw & Hsource & Hparse & _).
  exists text, raw. split; [|exact Hparse].
  refine (eq_trans _ Hsource). vm_compute. reflexivity.
Defined.

(** ** The page authentication lock *)

Section PageAuthFacts.

Import Worker.

Context {S : Type}.
Variable registry : Registry S.



End PageAuthFacts.


